(** * liutaihua/binary: buffered reader and writer with a fixed-width binary codec

    A shallow embedding of the Go package [bufio] of this repository
    (bufio.go and the codec file) and the properties its specification
    states about it.

    Conventions of the embedding:
    - a Go [int] is a [Z]; the cursors never come near the machine bounds,
      so no wrap-around is written for them;
    - an unsigned w-bit integer is a [Z] in [0, 2^w); where Go's arithmetic
      can wrap (left shifts) the reduction modulo [2^w] is written out;
    - a [[]byte] is a [list byte]; [len] is its length as a [Z];
    - Go's [error] is [option error], [nil] being [None];
    - a call that can panic or loop returns an [outcome];
    - a float32 / float64 is carried by its IEEE-754 bit pattern, which is all
      the codec ever looks at ([math.Float32bits] and friends are bit casts). *)

From Stdlib Require Import ZArith List Lia Bool.
From Stdlib.Strings Require Import Byte.
Import ListNotations.
Local Open Scope Z_scope.

(* ===================================================================== *)
(** * Part I: definitions *)
(* ===================================================================== *)

(** ** Bytes, slices and machine integers *)

Definition len {A : Type} (l : list A) : Z := Z.of_nat (length l).

(** [uintN(b)] for a byte [b]: value preserving. *)
Definition byte_val (b : byte) : Z := Z.of_N (Byte.to_N b).

(** [byte(v)]: the low eight bits of an unsigned integer. *)
Definition to_byte (v : Z) : byte :=
  match Byte.of_N (Z.to_N (v mod 256)) with
  | Some b => b
  | None => x00
  end.

(** [x << k] at an unsigned type of width [w]. *)
Definition shl (w x k : Z) : Z := (Z.shiftl x k) mod 2 ^ w.

(** [b[i]] once the bounds check has passed. *)
Definition at_ (b : list byte) (i : nat) : Z := byte_val (nth i b x00).

(** [b[i] = x]. *)
Fixpoint upd (b : list byte) (i : nat) (x : byte) : list byte :=
  match b, i with
  | [], _ => []
  | _ :: t, O => x :: t
  | h :: t, S i' => h :: upd t i' x
  end.

(** [b[lo:hi]] *)
Definition slice (b : list byte) (lo hi : Z) : list byte :=
  firstn (Z.to_nat (hi - lo)) (skipn (Z.to_nat lo) b).

(** [copy(dst[off:], src)]: the new content of [dst].  At most
    [len dst - off] bytes are stored; the length of [dst] never changes. *)
Definition copy_into (dst : list byte) (off : Z) (src : list byte) : list byte :=
  let o := Z.to_nat off in
  let k := Nat.min (length src) (length dst - o) in
  firstn o dst ++ firstn k src ++ skipn (o + k) dst.

(** The count [copy(dst[off:], src)] returns. *)
Definition copy_count (dst : list byte) (off : Z) (src : list byte) : Z :=
  Z.min (len src) (len dst - off).

(** [make([]byte, n)] *)
Definition make (n : Z) : list byte := repeat x00 (Z.to_nat n).

(** Two's-complement reinterpretation [intN(u)] of an unsigned [u]. *)
Definition to_signed (w u : Z) : Z :=
  if u <? 2 ^ (w - 1) then u else u - 2 ^ w.

(** [uintN(i)] for a signed [i]. *)
Definition to_unsigned (w i : Z) : Z := i mod 2 ^ w.

(** ** Errors and outcomes *)

Inductive error : Type :=
| ErrInvalidUnreadByte
| ErrInvalidUnreadRune
| ErrBufferFull
| ErrNegativeCount
| ErrNoProgress        (* io.ErrNoProgress *)
| ErrShortWrite        (* io.ErrShortWrite *)
| ErrUnexpectedEOF     (* io.ErrUnexpectedEOF *)
| ErrShortBuffer       (* io.ErrShortBuffer *)
| EOF                  (* io.EOF *)
| StreamErr (code : nat). (* any other error value of a wrapped stream *)

Definition error_eqb (a b : error) : bool :=
  match a, b with
  | ErrInvalidUnreadByte, ErrInvalidUnreadByte
  | ErrInvalidUnreadRune, ErrInvalidUnreadRune
  | ErrBufferFull, ErrBufferFull
  | ErrNegativeCount, ErrNegativeCount
  | ErrNoProgress, ErrNoProgress
  | ErrShortWrite, ErrShortWrite
  | ErrUnexpectedEOF, ErrUnexpectedEOF
  | ErrShortBuffer, ErrShortBuffer
  | EOF, EOF => true
  | StreamErr x, StreamErr y => Nat.eqb x y
  | _, _ => false
  end.

(** [err == nil] *)
Definition is_nil (e : option error) : bool :=
  match e with None => true | Some _ => false end.

Inductive panic : Type :=
| PanicFullBuffer      (* "bufio: tried to fill full buffer" *)
| PanicNegativeRead    (* errNegativeRead *)
| PanicBounds.         (* index or slice bounds out of range, makeslice *)

Inductive outcome (A : Type) : Type :=
| Ret (a : A)
| Panics (p : panic)
| OutOfFuel.
Arguments Ret {A} a.
Arguments Panics {A} p.
Arguments OutOfFuel {A}.

Definition bind {A B : Type} (c : outcome A) (k : A -> outcome B) : outcome B :=
  match c with
  | Ret a => k a
  | Panics p => Panics p
  | OutOfFuel => OutOfFuel
  end.

Notation "x <- c ;; k" := (bind c (fun x => k))
  (at level 61, c at next level, right associativity).
Notation "' p <- c ;; k" := (bind c (fun x => let 'p := x in k))
  (at level 61, p pattern, c at next level, right associativity).

(** A bounds-checked library call: [None] is the run-time panic. *)
Definition checked {A : Type} (o : option A) : outcome A :=
  match o with Some a => Ret a | None => Panics PanicBounds end.

(** ** encoding/binary and math, as the codec file calls them *)

Module binary.

Definition LittleEndian_Uint16 (b : list byte) : option Z :=
  if (length b <? 2)%nat then None
  else Some (Z.lor (at_ b 0) (shl 16 (at_ b 1) 8)).

Definition LittleEndian_PutUint16 (b : list byte) (v : Z) : option (list byte) :=
  if (length b <? 2)%nat then None
  else Some (upd (upd b 0 (to_byte v)) 1 (to_byte (Z.shiftr v 8))).

Definition LittleEndian_Uint32 (b : list byte) : option Z :=
  if (length b <? 4)%nat then None
  else Some (Z.lor (Z.lor (Z.lor (at_ b 0) (shl 32 (at_ b 1) 8))
                          (shl 32 (at_ b 2) 16)) (shl 32 (at_ b 3) 24)).

Definition LittleEndian_PutUint32 (b : list byte) (v : Z) : option (list byte) :=
  if (length b <? 4)%nat then None
  else Some (upd (upd (upd (upd b 0 (to_byte v)) 1 (to_byte (Z.shiftr v 8)))
                      2 (to_byte (Z.shiftr v 16))) 3 (to_byte (Z.shiftr v 24))).

Definition LittleEndian_Uint64 (b : list byte) : option Z :=
  if (length b <? 8)%nat then None
  else Some (Z.lor (Z.lor (Z.lor (Z.lor (Z.lor (Z.lor (Z.lor
         (at_ b 0) (shl 64 (at_ b 1) 8)) (shl 64 (at_ b 2) 16))
         (shl 64 (at_ b 3) 24)) (shl 64 (at_ b 4) 32)) (shl 64 (at_ b 5) 40))
         (shl 64 (at_ b 6) 48)) (shl 64 (at_ b 7) 56)).

Definition LittleEndian_PutUint64 (b : list byte) (v : Z) : option (list byte) :=
  if (length b <? 8)%nat then None
  else Some (upd (upd (upd (upd (upd (upd (upd (upd b
         0 (to_byte v)) 1 (to_byte (Z.shiftr v 8))) 2 (to_byte (Z.shiftr v 16)))
         3 (to_byte (Z.shiftr v 24))) 4 (to_byte (Z.shiftr v 32)))
         5 (to_byte (Z.shiftr v 40))) 6 (to_byte (Z.shiftr v 48)))
         7 (to_byte (Z.shiftr v 56))).

Definition BigEndian_Uint16 (b : list byte) : option Z :=
  if (length b <? 2)%nat then None
  else Some (Z.lor (at_ b 1) (shl 16 (at_ b 0) 8)).

Definition BigEndian_PutUint16 (b : list byte) (v : Z) : option (list byte) :=
  if (length b <? 2)%nat then None
  else Some (upd (upd b 0 (to_byte (Z.shiftr v 8))) 1 (to_byte v)).

Definition BigEndian_Uint32 (b : list byte) : option Z :=
  if (length b <? 4)%nat then None
  else Some (Z.lor (Z.lor (Z.lor (at_ b 3) (shl 32 (at_ b 2) 8))
                          (shl 32 (at_ b 1) 16)) (shl 32 (at_ b 0) 24)).

Definition BigEndian_PutUint32 (b : list byte) (v : Z) : option (list byte) :=
  if (length b <? 4)%nat then None
  else Some (upd (upd (upd (upd b 0 (to_byte (Z.shiftr v 24)))
                      1 (to_byte (Z.shiftr v 16))) 2 (to_byte (Z.shiftr v 8)))
                 3 (to_byte v)).

Definition BigEndian_Uint64 (b : list byte) : option Z :=
  if (length b <? 8)%nat then None
  else Some (Z.lor (Z.lor (Z.lor (Z.lor (Z.lor (Z.lor (Z.lor
         (at_ b 7) (shl 64 (at_ b 6) 8)) (shl 64 (at_ b 5) 16))
         (shl 64 (at_ b 4) 24)) (shl 64 (at_ b 3) 32)) (shl 64 (at_ b 2) 40))
         (shl 64 (at_ b 1) 48)) (shl 64 (at_ b 0) 56)).

Definition BigEndian_PutUint64 (b : list byte) (v : Z) : option (list byte) :=
  if (length b <? 8)%nat then None
  else Some (upd (upd (upd (upd (upd (upd (upd (upd b
         0 (to_byte (Z.shiftr v 56))) 1 (to_byte (Z.shiftr v 48)))
         2 (to_byte (Z.shiftr v 40))) 3 (to_byte (Z.shiftr v 32)))
         4 (to_byte (Z.shiftr v 24))) 5 (to_byte (Z.shiftr v 16)))
         6 (to_byte (Z.shiftr v 8))) 7 (to_byte v)).

End binary.

(** A float is its IEEE-754 bit pattern: binary32 in [0, 2^32), binary64
    in [0, 2^64). *)
Inductive float32 : Type := F32 (bits : Z).
Inductive float64 : Type := F64 (bits : Z).

Definition Float32bits (f : float32) : Z := let 'F32 u := f in u.
Definition Float32frombits (u : Z) : float32 := F32 u.
Definition Float64bits (f : float64) : Z := let 'F64 u := f in u.
Definition Float64frombits (u : Z) : float64 := F64 u.

Definition float32_wf (f : float32) : Prop := 0 <= Float32bits f < 2 ^ 32.
Definition float64_wf (f : float64) : Prop := 0 <= Float64bits f < 2 ^ 64.

(** Distinguished bit patterns. *)
Definition f32_pos_inf : float32 := F32 0x7F800000.
Definition f32_neg_inf : float32 := F32 0xFF800000.
Definition f32_quiet_nan : float32 := F32 0x7FC00000.
Definition f32_signalling_nan : float32 := F32 0x7FA00001.
Definition f64_pos_inf : float64 := F64 0x7FF0000000000000.
Definition f64_neg_inf : float64 := F64 0xFFF0000000000000.
Definition f64_quiet_nan : float64 := F64 0x7FF8000000000000.
Definition f64_signalling_nan : float64 := F64 0x7FF4000000000001.

(** ** The codec *)

Definition GetUint16LE (b : list byte) : option Z := binary.LittleEndian_Uint16 b.
Definition PutUint16LE (b : list byte) (v : Z) : option (list byte) :=
  binary.LittleEndian_PutUint16 b v.
Definition GetUint16BE (b : list byte) : option Z := binary.BigEndian_Uint16 b.
Definition PutUint16BE (b : list byte) (v : Z) : option (list byte) :=
  binary.BigEndian_PutUint16 b v.
Definition GetUint32LE (b : list byte) : option Z := binary.LittleEndian_Uint32 b.
Definition PutUint32LE (b : list byte) (v : Z) : option (list byte) :=
  binary.LittleEndian_PutUint32 b v.
Definition GetUint32BE (b : list byte) : option Z := binary.BigEndian_Uint32 b.
Definition PutUint32BE (b : list byte) (v : Z) : option (list byte) :=
  binary.BigEndian_PutUint32 b v.
Definition GetUint64LE (b : list byte) : option Z := binary.LittleEndian_Uint64 b.
Definition PutUint64LE (b : list byte) (v : Z) : option (list byte) :=
  binary.LittleEndian_PutUint64 b v.
Definition GetUint64BE (b : list byte) : option Z := binary.BigEndian_Uint64 b.
Definition PutUint64BE (b : list byte) (v : Z) : option (list byte) :=
  binary.BigEndian_PutUint64 b v.

Definition GetFloat32BE (b : list byte) : option float32 :=
  option_map Float32frombits (GetUint32BE b).
Definition PutFloat32BE (b : list byte) (v : float32) : option (list byte) :=
  PutUint32BE b (Float32bits v).
Definition GetFloat32LE (b : list byte) : option float32 :=
  option_map Float32frombits (GetUint32LE b).
Definition PutFloat32LE (b : list byte) (v : float32) : option (list byte) :=
  PutUint32LE b (Float32bits v).
Definition GetFloat64BE (b : list byte) : option float64 :=
  option_map Float64frombits (GetUint64BE b).
Definition PutFloat64BE (b : list byte) (v : float64) : option (list byte) :=
  PutUint64BE b (Float64bits v).
Definition GetFloat64LE (b : list byte) : option float64 :=
  option_map Float64frombits (GetUint64LE b).
Definition PutFloat64LE (b : list byte) (v : float64) : option (list byte) :=
  PutUint64LE b (Float64bits v).

(** ** The wrapped streams

    An [io.Reader] is a state machine: from its private state and the length
    of the destination it is handed, one call to [Read] produces a reply and
    a new state.  A reply carries the bytes the stream delivered (their
    number is the count [n] it reports) and its error; a stream that breaks
    the contract by reporting a negative count replies [NegReply].  Every
    stream object also keeps the log of the calls made to it, most recent
    first, which is how "the stream was (not) invoked" is observed.

    A reply says nothing of the destination past the count: [io.Reader]
    lets a stream use all of [p] as scratch space, and what it leaves there
    is not tracked.  Where the code hands a caller's slice to the stream
    ([Read] with an empty buffer and a large destination), no property
    below speaks of the bytes past the count. *)

Inductive read_reply : Type :=
| Reply (d : list byte) (e : option error)
| NegReply (k : positive) (e : option error).

(** What a logged call delivered, and whether it kept to the contract of
    [io.Reader] ([0 <= n <= len(p)]). *)
Definition delivered (c : Z * read_reply) : list byte :=
  match snd c with
  | Reply d _ => d
  | NegReply _ _ => []
  end.

Definition reply_fits (c : Z * read_reply) : bool :=
  match snd c with
  | Reply d _ => len d <=? fst c
  | NegReply _ _ => false
  end.

(** An [io.Writer]: one call to [Write] with the bytes [p] reports a count
    and an error. *)
Inductive write_reply : Type :=
| WReply (n : Z) (e : option error).

(** [io.ReadFull]'s conversion of its loop result. *)
Definition full_read_error (n min : Z) (e : option error) : option error :=
  if min <=? n then None
  else if (0 <? n) && (match e with Some EOF => true | _ => false end)
       then Some ErrUnexpectedEOF
       else e.

(** ** Buffered input *)

Module Reader.
Section WithStream.

Context {S : Type}.
(** [rd.Read(p)], as a function of the stream's state and [len(p)]. *)
Variable rd_Read : S -> Z -> read_reply * S.

(** The stream object: its state and the log of the calls made to it, each
    with the length asked for and the reply, most recent first. *)
Record stream : Type := { st : S; calls : list (Z * read_reply) }.

Definition stream_Read (s : stream) (k : Z) : read_reply * stream :=
  let (rep, st') := rd_Read (st s) k in
  (rep, {| st := st'; calls := (k, rep) :: calls s |}).

(** The stream after [k] more reads of [req] bytes each of which delivers
    nothing and reports no error; [None] if one of them does otherwise. *)
Fixpoint idle_reads (k : nat) (s : stream) (req : Z) : option stream :=
  match k with
  | O => Some s
  | Datatypes.S k' =>
      match stream_Read s req with
      | (Reply [] None, s') => idle_reads k' s' req
      | _ => None
      end
  end.

Record t : Type := {
  buf : list byte;
  rd : stream;      (* reader provided by the client *)
  r : Z;            (* buf read position *)
  w : Z;            (* buf write position *)
  err : option error
}.

Definition with_buf (b : t) (x : list byte) : t :=
  {| buf := x; rd := rd b; r := r b; w := w b; err := err b |}.
Definition with_rd (b : t) (x : stream) : t :=
  {| buf := buf b; rd := x; r := r b; w := w b; err := err b |}.
Definition with_r (b : t) (x : Z) : t :=
  {| buf := buf b; rd := rd b; r := x; w := w b; err := err b |}.
Definition with_w (b : t) (x : Z) : t :=
  {| buf := buf b; rd := rd b; r := r b; w := x; err := err b |}.
Definition with_err (b : t) (x : option error) : t :=
  {| buf := buf b; rd := rd b; r := r b; w := w b; err := x |}.

Definition defaultBufSize : Z := 4096.
Definition minReadBufferSize : Z := 16.
Definition maxConsecutiveEmptyReads : nat := 100.

Definition reset (buf0 : list byte) (s : stream) : t :=
  {| buf := buf0; rd := s; r := 0; w := 0; err := None |}.

(** [NewReaderSize] for a stream that is not itself a [*Reader]. *)
Definition NewReaderSize (s : stream) (size : Z) : t :=
  let size := if size <? minReadBufferSize then minReadBufferSize else size in
  reset (make size) s.

Definition NewReader (s : stream) : t := NewReaderSize s defaultBufSize.

Definition Reset (b : t) (s : stream) : t := reset (buf b) s.

Definition ResetBuffer (b : t) (s : stream) (buf0 : list byte) : t := reset buf0 s.

Definition Buffered (b : t) : Z := w b - r b.

(** A stream that, asked for at least one byte, always delivers a byte or
    reports an error (and never a negative count). *)
Definition makes_progress : Prop :=
  forall (x : S) (k : Z), 0 < k ->
    match fst (rd_Read x k) with
    | Reply d e => d <> [] \/ e <> None
    | NegReply _ _ => False
    end.

(** The first three lines of [fill]: slide existing data to the beginning. *)
Definition slide (b : t) : t :=
  if 0 <? r b then
    {| buf := copy_into (buf b) 0 (slice (buf b) (r b) (w b));
       rd := rd b; r := 0; w := w b - r b; err := err b |}
  else b.

(** The read loop of [fill]; [i] is the loop counter. *)
Fixpoint fill_loop (i : nat) (b : t) : outcome t :=
  match i with
  | O => Ret (with_err b (Some ErrNoProgress))
  | Datatypes.S i' =>
      let (rep, s') := stream_Read (rd b) (len (buf b) - w b) in
      match rep with
      | NegReply _ _ => Panics PanicNegativeRead
      | Reply d e =>
          let b1 := {| buf := copy_into (buf b) (w b) d; rd := s';
                       r := r b; w := w b + len d; err := err b |} in
          match e with
          | Some _ => Ret (with_err b1 e)
          | None => if 0 <? len d then Ret b1 else fill_loop i' b1
          end
      end
  end.

(** [fill] reads a new chunk into the buffer. *)
Definition fill (b : t) : outcome t :=
  let b0 := slide b in
  if len (buf b0) <=? w b0 then Panics PanicFullBuffer
  else fill_loop maxConsecutiveEmptyReads b0.

Definition readErr (b : t) : option error * t := (err b, with_err b None).

(** The loop of [Peek]: [for b.w-b.r < n && b.err == nil { b.fill() }]. *)
Fixpoint Peek_loop (fuel : nat) (n : Z) (b : t) : outcome t :=
  if (w b - r b <? n) && is_nil (err b) then
    match fuel with
    | O => OutOfFuel
    | Datatypes.S f => b' <- fill b ;; Peek_loop f n b'
    end
  else Ret b.

(** Every turn of the loop that does not end it adds a byte, so [n] turns
    are enough (lemma [Peek_loop_returns]). *)
Definition Peek (b : t) (n : Z) : outcome (list byte * option error * t) :=
  if n <? 0 then Ret ([], Some ErrNegativeCount, b)
  else if len (buf b) <? n then Ret ([], Some ErrBufferFull, b)
  else
    b1 <- Peek_loop (Z.to_nat n) n b ;;
    let avail := w b1 - r b1 in
    if avail <? n then
      let (e, b2) := readErr b1 in
      let e := match e with None => Some ErrBufferFull | Some _ => e end in
      Ret (slice (buf b2) (r b2) (r b2 + avail), e, b2)
    else Ret (slice (buf b1) (r b1) (r b1 + n), None, b1).

Definition Pop (b : t) (n : Z) : outcome (list byte * option error * t) :=
  '(d, e, b1) <- Peek b n ;;
  match e with
  | None => Ret (d, None, with_r b1 (r b1 + n))
  | Some _ => Ret ([], e, b1)
  end.

(** The body of the [for] loop of [Discard]. *)
Fixpoint Discard_loop (fuel : nat) (n remain : Z) (b : t)
  : outcome (Z * option error * t) :=
  match fuel with
  | O => OutOfFuel
  | Datatypes.S f =>
      b1 <- (if Buffered b =? 0 then fill b else Ret b) ;;
      let skip := Buffered b1 in
      let skip := if remain <? skip then remain else skip in
      let b2 := with_r b1 (r b1 + skip) in
      let remain := remain - skip in
      if remain =? 0 then Ret (n, None, b2)
      else if negb (is_nil (err b2)) then
        let (e, b3) := readErr b2 in Ret (n - remain, e, b3)
      else Discard_loop f n remain b2
  end.

(** Each turn that does not return skips a byte, so [n] turns are enough
    (lemma [Discard_loop_returns]). *)
Definition Discard (b : t) (n : Z) : outcome (Z * option error * t) :=
  if n <? 0 then Ret (0, Some ErrNegativeCount, b)
  else if n =? 0 then Ret (0, None, b)
  else Discard_loop (Z.to_nat n) n n b.

(** [Read(p)]: returns the new content of [p], the count and the error. *)
Definition Read (b : t) (p : list byte)
  : outcome (list byte * Z * option error * t) :=
  if len p =? 0 then
    let (e, b1) := readErr b in Ret (p, 0, e, b1)
  else
    let copy_out (b0 : t) :=
      let src := slice (buf b0) (r b0) (w b0) in
      let n := copy_count p 0 src in
      Ret (copy_into p 0 src, n, None, with_r b0 (r b0 + n)) in
    if r b =? w b then
      if negb (is_nil (err b)) then
        let (e, b1) := readErr b in Ret (p, 0, e, b1)
      else if len (buf b) <=? len p then
        let (rep, s') := stream_Read (rd b) (len p) in
        match rep with
        | NegReply _ _ => Panics PanicNegativeRead
        | Reply d e =>
            let (e', b1) := readErr (with_err (with_rd b s') e) in
            Ret (copy_into p 0 d, len d, e', b1)
        end
      else
        b0 <- fill b ;;
        if r b0 =? w b0 then
          let (e, b1) := readErr b0 in Ret (p, 0, e, b1)
        else copy_out b0
    else copy_out b.

(** [io.ReadAtLeast]'s loop [for n < min && err == nil], on the
    destination [dst]. *)
Fixpoint ReadAtLeast_loop (fuel : nat) (s : stream) (dst : list byte)
    (min n : Z) (e : option error) : outcome (list byte * Z * option error * stream) :=
  if (n <? min) && is_nil e then
    match fuel with
    | O => OutOfFuel
    | Datatypes.S f =>
        if n <? 0 then Panics PanicBounds
        else
          let (rep, s') := stream_Read s (len dst - n) in
          match rep with
          | Reply d e' => ReadAtLeast_loop f s' (copy_into dst n d) min (n + len d) e'
          | NegReply k e' => ReadAtLeast_loop f s' dst min (n - Z.pos k) e'
          end
    end
  else Ret (dst, n, e, s).

(** [io.ReadFull(rd, dst)] *)
Definition ReadFull (fuel : nat) (s : stream) (dst : list byte)
  : outcome (list byte * Z * option error * stream) :=
  '(dst', n, e, s') <- ReadAtLeast_loop fuel s dst (len dst) 0 None ;;
  Ret (dst', n, full_read_error n (len dst) e, s').

Definition ReadBytes (fuel : nat) (reader : t) (n : Z)
  : outcome (list byte * option error * t) :=
  if n <? 0 then Panics PanicBounds
  else
    '(b, _, e, s') <- ReadFull fuel (rd reader) (make n) ;;
    Ret (b, e, with_err (with_rd reader s') e).

(** A Go string is its bytes. *)
Definition ReadString (fuel : nat) (reader : t) (n : Z)
  : outcome (list byte * option error * t) :=
  '(b, e, reader') <- ReadBytes fuel reader n ;;
  match e with
  | None => Ret (b, None, reader')
  | Some _ => Ret ([], e, reader')
  end.

(** The optional [io.ByteReader] side of the wrapped stream: its
    [ReadByte], when the stream has one.  It is no call to [Read], so the
    log of [Read] calls is left as it is. *)
Variable rd_ReadByte : option (S -> byte * option error * S).

Definition ReadByte (reader : t) : outcome (byte * option error * t) :=
  match rd_ReadByte with
  | Some readByte =>
      let '(c, e, st') := readByte (st (rd reader)) in
      Ret (c, e, with_rd reader {| st := st'; calls := calls (rd reader) |})
  | None =>
      '(b, e, reader') <- Pop reader 1 ;;
      match e with
      | None => c <- checked (nth_error b 0) ;; Ret (c, None, reader')
      | Some _ => Ret (x00, e, reader')
      end
  end.

(** *** Fixed-width read helpers *)

(** [if b, err := reader.Pop(k); err == nil { return get(b), nil }
     else { return 0, err }] *)
Definition pop_decode {A : Type} (zero : A) (k : Z) (get : list byte -> option A)
    (reader : t) : outcome (A * option error * t) :=
  '(b, e, reader') <- Pop reader k ;;
  match e with
  | None => v <- checked (get b) ;; Ret (v, None, reader')
  | Some _ => Ret (zero, e, reader')
  end.

Definition ReadUint8 := pop_decode 0 1 (fun b => option_map byte_val (nth_error b 0)).
Definition ReadUint16BE := pop_decode 0 2 GetUint16BE.
Definition ReadUint16LE := pop_decode 0 2 GetUint16LE.
Definition ReadUint32BE := pop_decode 0 4 GetUint32BE.
Definition ReadUint32LE := pop_decode 0 4 GetUint32LE.
Definition ReadUint64BE := pop_decode 0 8 GetUint64BE.
Definition ReadUint64LE := pop_decode 0 8 GetUint64LE.
Definition ReadFloat32BE := pop_decode (F32 0) 4 GetFloat32BE.
Definition ReadFloat32LE := pop_decode (F32 0) 4 GetFloat32LE.
Definition ReadFloat64BE := pop_decode (F64 0) 8 GetFloat64BE.
Definition ReadFloat64LE := pop_decode (F64 0) 8 GetFloat64LE.

(** [if i, err := reader.ReadUintN(); err == nil { return intN(i), nil }
     else { return -1, err }] *)
Definition as_signed (width : Z) (read : t -> outcome (Z * option error * t))
    (reader : t) : outcome (Z * option error * t) :=
  '(i, e, reader') <- read reader ;;
  match e with
  | None => Ret (to_signed width i, None, reader')
  | Some _ => Ret (-1, e, reader')
  end.

Definition ReadInt8 := as_signed 8 ReadUint8.
Definition ReadInt16BE := as_signed 16 ReadUint16BE.
Definition ReadInt16LE := as_signed 16 ReadUint16LE.
Definition ReadInt32BE := as_signed 32 ReadUint32BE.
Definition ReadInt32LE := as_signed 32 ReadUint32LE.
Definition ReadInt64BE := as_signed 64 ReadUint64BE.
Definition ReadInt64LE := as_signed 64 ReadUint64LE.

(** The helpers by kind, each with the number of bytes it pops. *)
Definition unsigned_readers : list (Z * (t -> outcome (Z * option error * t))) :=
  [(1, ReadUint8); (2, ReadUint16BE); (2, ReadUint16LE); (4, ReadUint32BE);
   (4, ReadUint32LE); (8, ReadUint64BE); (8, ReadUint64LE)].

Definition float32_readers : list (Z * (t -> outcome (float32 * option error * t))) :=
  [(4, ReadFloat32BE); (4, ReadFloat32LE)].

Definition float64_readers : list (Z * (t -> outcome (float64 * option error * t))) :=
  [(8, ReadFloat64BE); (8, ReadFloat64LE)].

Definition signed_readers : list (Z * (t -> outcome (Z * option error * t))) :=
  [(1, ReadInt8); (2, ReadInt16BE); (2, ReadInt16LE); (4, ReadInt32BE);
   (4, ReadInt32LE); (8, ReadInt64BE); (8, ReadInt64LE)].

End WithStream.
End Reader.

(** ** Buffered output *)

Module Writer.
Section WithStream.

Context {T : Type}.
(** [wr.Write(p)], as a function of the stream's state and [p]. *)
Variable wr_Write : T -> list byte -> write_reply * T.

Record stream : Type := { st : T; calls : list (list byte) }.

Definition stream_Write (s : stream) (p : list byte) : write_reply * stream :=
  let (rep, st') := wr_Write (st s) p in
  (rep, {| st := st'; calls := p :: calls s |}).

Record t : Type := {
  err : option error;
  buf : list byte;
  n : Z;
  wr : stream
}.

(** A window [b.buf[lo:hi]] handed out by [Peek]: it aliases the buffer, so
    it is the pair of its bounds. *)
Definition window : Type := (Z * Z)%type.
Definition nil_window : window := (0, 0).
Definition view (b : t) (d : window) : list byte := slice (buf b) (fst d) (snd d).
(** Storing [bytes] through the window. *)
Definition store (b : t) (d : window) (bytes : list byte) : t :=
  {| err := err b; buf := copy_into (buf b) (fst d) bytes; n := n b; wr := wr b |}.

Definition defaultBufSize : Z := 4096.

(** [NewWriterSize] for a stream that is not itself a [*Writer]. *)
Definition NewWriterSize (s : stream) (size : Z) : t :=
  let size := if size <=? 0 then defaultBufSize else size in
  {| err := None; buf := make size; n := 0; wr := s |}.

Definition NewWriter (s : stream) : t := NewWriterSize s defaultBufSize.

Definition Reset (b : t) (s : stream) : t :=
  {| err := None; buf := buf b; n := 0; wr := s |}.

Definition ResetBuffer (b : t) (s : stream) (buf0 : list byte) : t :=
  {| err := None; buf := buf0; n := 0; wr := s |}.

Definition flush (b : t) : option error * t :=
  if negb (is_nil (err b)) then (err b, b)
  else if n b =? 0 then (None, b)
  else
    let (rep, s') := stream_Write (wr b) (slice (buf b) 0 (n b)) in
    let 'WReply k e := rep in
    let e := if (k <? n b) && is_nil e then Some ErrShortWrite else e in
    match e with
    | Some _ =>
        let buf' := if (0 <? k) && (k <? n b)
                    then copy_into (buf b) 0 (slice (buf b) k (n b))
                    else buf b in
        (e, {| err := e; buf := buf'; n := n b - k; wr := s' |})
    | None => (None, {| err := err b; buf := buf b; n := 0; wr := s' |})
    end.

Definition Flush (b : t) : option error * t := flush b.

Definition Available (b : t) : Z := len (buf b) - n b.

Definition Buffered (b : t) : Z := n b.

(** The loop of [Write]; the state is the Writer, the rest of [p] and the
    running count [nn]. *)
Fixpoint Write_loop (fuel : nat) (b : t) (p : list byte) (nn : Z)
  : outcome (t * list byte * Z) :=
  if (Available b <? len p) && is_nil (err b) then
    match fuel with
    | O => OutOfFuel
    | S f =>
        if Buffered b =? 0 then
          let (rep, s') := stream_Write (wr b) p in
          let 'WReply k e := rep in
          let b1 := {| err := e; buf := buf b; n := n b; wr := s' |} in
          if (k <? 0) || (len p <? k) then Panics PanicBounds
          else Write_loop f b1 (skipn (Z.to_nat k) p) (nn + k)
        else
          let k := copy_count (buf b) (n b) p in
          let b1 := {| err := err b; buf := copy_into (buf b) (n b) p;
                       n := n b + k; wr := wr b |} in
          let (_, b2) := flush b1 in
          Write_loop f b2 (skipn (Z.to_nat k) p) (nn + k)
    end
  else Ret (b, p, nn).

Definition Write (fuel : nat) (b : t) (p : list byte)
  : outcome (Z * option error * t) :=
  '(b1, p1, nn) <- Write_loop fuel b p 0 ;;
  match err b1 with
  | Some _ => Ret (nn, err b1, b1)
  | None =>
      let k := copy_count (buf b1) (n b1) p1 in
      Ret (nn + k, None,
           {| err := err b1; buf := copy_into (buf b1) (n b1) p1;
              n := n b1 + k; wr := wr b1 |})
  end.

(** The loop of [Peek]: [for b.Available() < n && b.err == nil { b.flush() }]. *)
Fixpoint Peek_loop (fuel : nat) (k : Z) (b : t) : outcome t :=
  if (Available b <? k) && is_nil (err b) then
    match fuel with
    | O => OutOfFuel
    | S f => Peek_loop f k (snd (flush b))
    end
  else Ret b.

(** One flush either empties the buffer or sets the error, so the loop
    makes at most one turn (lemma [WPeek_returns]). *)
Definition Peek (b : t) (k : Z) : outcome (window * option error * t) :=
  if k <? 0 then Ret (nil_window, Some ErrNegativeCount, b)
  else if len (buf b) <? k then Ret (nil_window, Some ErrBufferFull, b)
  else
    b1 <- Peek_loop 1 k b ;;
    match err b1 with
    | Some _ => Ret (nil_window, err b1, b1)
    | None =>
        Ret ((n b1, n b1 + k), None,
             {| err := err b1; buf := buf b1; n := n b1 + k; wr := wr b1 |})
    end.

Definition WriteBytes (fuel : nat) (writer : t) (b : list byte) := Write fuel writer b.

Definition WriteString (fuel : nat) (writer : t) (s : list byte) := WriteBytes fuel writer s.

(** *** Fixed-width write helpers *)

(** [if b, err := writer.Peek(k); err == nil { put(b, v); return k, nil }
     else { return -1, err }] *)
Definition peek_encode {A : Type} (k : Z) (put : list byte -> A -> option (list byte))
    (writer : t) (v : A) : outcome (Z * option error * t) :=
  '(d, e, writer') <- Peek writer k ;;
  match e with
  | None => bytes <- checked (put (view writer' d) v) ;;
            Ret (k, None, store writer' d bytes)
  | Some _ => Ret (-1, e, writer')
  end.

(** [b[0] = v] *)
Definition put8 (b : list byte) (v : Z) : option (list byte) :=
  match b with
  | [] => None
  | _ :: rest => Some (to_byte v :: rest)
  end.

Definition WriteUint8 := peek_encode 1 put8.
Definition WriteUint16BE := peek_encode 2 PutUint16BE.
Definition WriteUint16LE := peek_encode 2 PutUint16LE.
Definition WriteUint32BE := peek_encode 4 PutUint32BE.
Definition WriteUint32LE := peek_encode 4 PutUint32LE.
Definition WriteUint64BE := peek_encode 8 PutUint64BE.
Definition WriteUint64LE := peek_encode 8 PutUint64LE.
Definition WriteFloat32BE := peek_encode 4 PutFloat32BE.
Definition WriteFloat32LE := peek_encode 4 PutFloat32LE.
Definition WriteFloat64BE := peek_encode 8 PutFloat64BE.
Definition WriteFloat64LE := peek_encode 8 PutFloat64LE.

Definition WriteInt8 (writer : t) (v : Z) := WriteUint8 writer (to_unsigned 8 v).
Definition WriteInt16BE (writer : t) (v : Z) := WriteUint16BE writer (to_unsigned 16 v).
Definition WriteInt16LE (writer : t) (v : Z) := WriteUint16LE writer (to_unsigned 16 v).
Definition WriteInt32BE (writer : t) (v : Z) := WriteUint32BE writer (to_unsigned 32 v).
Definition WriteInt32LE (writer : t) (v : Z) := WriteUint32LE writer (to_unsigned 32 v).
Definition WriteInt64BE (writer : t) (v : Z) := WriteUint64BE writer (to_unsigned 64 v).
Definition WriteInt64LE (writer : t) (v : Z) := WriteUint64LE writer (to_unsigned 64 v).
Definition WriteUintBE (writer : t) (v : Z) := WriteUint64BE writer (to_unsigned 64 v).
Definition WriteUintLE (writer : t) (v : Z) := WriteUint64LE writer (to_unsigned 64 v).

(** The helpers by the type of their argument, each with the number of
    bytes it reserves. *)
Definition integer_writers : list (Z * (t -> Z -> outcome (Z * option error * t))) :=
  [(1, WriteUint8); (2, WriteUint16BE); (2, WriteUint16LE); (4, WriteUint32BE);
   (4, WriteUint32LE); (8, WriteUint64BE); (8, WriteUint64LE);
   (1, WriteInt8); (2, WriteInt16BE); (2, WriteInt16LE); (4, WriteInt32BE);
   (4, WriteInt32LE); (8, WriteInt64BE); (8, WriteInt64LE);
   (8, WriteUintBE); (8, WriteUintLE)].

Definition float32_writers
  : list (Z * (t -> float32 -> outcome (Z * option error * t))) :=
  [(4, WriteFloat32BE); (4, WriteFloat32LE)].

Definition float64_writers
  : list (Z * (t -> float64 -> outcome (Z * option error * t))) :=
  [(8, WriteFloat64BE); (8, WriteFloat64LE)].

(** *** Sequences of calls on one Writer *)

Inductive call : Type :=
| CallWrite (fuel : nat) (p : list byte)
| CallFlush
| CallPeek (k : Z).

(** What a call hands back, reduced to its error, and the Writer after it. *)
Definition run_call (b : t) (c : call) : outcome (option error * t) :=
  match c with
  | CallWrite fuel p => '(_, e, b') <- Write fuel b p ;; Ret (e, b')
  | CallFlush => Ret (Flush b)
  | CallPeek k => '(_, e, b') <- Peek b k ;; Ret (e, b')
  end.

(** The errors of a sequence of calls, in order, and the final Writer. *)
Fixpoint run_calls (b : t) (cs : list call) : outcome (list (option error) * t) :=
  match cs with
  | [] => Ret ([], b)
  | c :: cs' =>
      '(e, b1) <- run_call b c ;;
      '(es, b2) <- run_calls b1 cs' ;;
      Ret (e :: es, b2)
  end.

(** A call whose argument passes [Peek]'s own guard. *)
Definition call_in_range (b : t) (c : call) : bool :=
  match c with
  | CallPeek k => (0 <=? k) && (k <=? len (buf b))
  | _ => true
  end.

End WithStream.
End Writer.

(** ** Round trips through the codec *)

(** [get(b)] after [put(b, v)] on the same window; [None] when either call
    panics. *)
Definition decode_after_encode {V A : Type}
    (put : list byte -> V -> option (list byte)) (get : list byte -> option A)
    (b : list byte) (v : V) : option A :=
  match put b v with
  | Some b' => get b'
  | None => None
  end.

(** ** The codec as a table *)

(** The values of an unsigned and of a signed type of width [w]. *)
Definition is_uint (w v : Z) : Prop := 0 <= v < 2 ^ w.
Definition is_int (w v : Z) : Prop := - 2 ^ (w - 1) <= v < 2 ^ (w - 1).

(** The unsigned codec functions: width in bits, width in bytes, decoder
    and encoder. *)
Definition uint_codecs
  : list (Z * nat * (list byte -> option Z) * (list byte -> Z -> option (list byte))) :=
  [(16, 2%nat, GetUint16LE, PutUint16LE); (16, 2%nat, GetUint16BE, PutUint16BE);
   (32, 4%nat, GetUint32LE, PutUint32LE); (32, 4%nat, GetUint32BE, PutUint32BE);
   (64, 8%nat, GetUint64LE, PutUint64LE); (64, 8%nat, GetUint64BE, PutUint64BE)].

(** ** Views and invariants *)

(** The invariant of the Reader's cursors: [0 <= r <= w <= len(buf)]. *)
Definition reader_wf {S : Type} (b : @Reader.t S) : Prop :=
  0 <= Reader.r b <= Reader.w b /\ Reader.w b <= len (Reader.buf b).

(** The bytes buffered and not yet read: [b.buf[b.r:b.w]]. *)
Definition unread {S : Type} (b : @Reader.t S) : list byte :=
  slice (Reader.buf b) (Reader.r b) (Reader.w b).

(** A readable stream that keeps to the contract of [io.Reader]: it never
    reports more bytes than it was asked for, nor a negative count. *)
Definition reads_fit {S : Type} (rd_Read : S -> Z -> read_reply * S) : Prop :=
  forall (x : S) (k : Z), 0 <= k -> reply_fits (k, fst (rd_Read x k)) = true.

(** A read operation [read] that needs [k] bytes hands errors over once on
    the Reader [b]: whenever it returns an error the stored error is [nil]
    afterwards, and when no error is stored and fewer than [k] bytes are
    buffered it calls the wrapped stream. *)
Definition reports_once {S V : Type} (k : Z)
    (read : @Reader.t S -> outcome (V * option error * @Reader.t S))
    (b : @Reader.t S) : Prop :=
  (k <= len (Reader.buf b) ->
   forall v e b', read b = Ret (v, Some e, b') -> Reader.err b' = None) /\
  (Reader.err b = None -> Reader.Buffered b < k <= len (Reader.buf b) ->
   forall v e b', read b = Ret (v, e, b') ->
     (length (Reader.calls (Reader.rd b)) < length (Reader.calls (Reader.rd b')))%nat).

(** The calls of a full read of [total] bytes, oldest first, [got] bytes
    being there already: each call is made while bytes are missing, asks for
    exactly the bytes still missing, and every call but the last delivered
    without error. *)
Fixpoint asks_for_rest (total got : Z) (log : list (Z * read_reply)) : Prop :=
  match log with
  | [] => True
  | c :: rest =>
      fst c = total - got /\ got < total /\
      (rest <> [] -> exists d, snd c = Reply d None) /\
      asks_for_rest total (got + len (delivered c)) rest
  end.

(** The invariant of the Writer's count: [0 <= n <= len(buf)]. *)
Definition writer_wf {T : Type} (b : @Writer.t T) : Prop :=
  0 <= Writer.n b <= len (Writer.buf b).

(** The bytes written to the Writer and not yet flushed: [b.buf[0:b.n]]. *)
Definition pending {T : Type} (b : @Writer.t T) : list byte :=
  slice (Writer.buf b) 0 (Writer.n b).

(** All the bytes the stream has been handed, in order. *)
Definition handed {T : Type} (s : @Writer.stream T) : list byte :=
  concat (rev (Writer.calls s)).

(** A writable stream that keeps to the contract of [io.Writer]: the count
    it reports lies between zero and the number of bytes it was handed. *)
Definition writes_fit {T : Type} (wr_Write : T -> list byte -> write_reply * T) : Prop :=
  forall (x : T) (p : list byte),
    match fst (wr_Write x p) with WReply k _ => 0 <= k <= len p end.

(** A writable stream that always takes everything and reports no error. *)
Definition accepts_all {T : Type} (wr_Write : T -> list byte -> write_reply * T) : Prop :=
  forall (x : T) (p : list byte), fst (wr_Write x p) = WReply (len p) None.

(** ** A write helper and the read helper that undoes it

    [write] and [read] are a pair for values satisfying [ok], [k] bytes
    wide: on a Writer without error that has [k] bytes free, [write w v]
    succeeds without calling the stream and appends [k] bytes to the pending
    bytes; and on any well-formed Reader whose next [k] unread bytes are
    those bytes, [read] returns [v] with no error and advances the cursor
    by [k]. *)
Definition reads_back {S T V : Type} (k : Z) (ok : V -> Prop)
    (write : @Writer.t T -> V -> outcome (Z * option error * @Writer.t T))
    (read : @Reader.t S -> outcome (V * option error * @Reader.t S)) : Prop :=
  forall (w : @Writer.t T) (v : V),
    ok v -> Writer.err w = None ->
    0 <= Writer.n w -> Writer.n w + k <= len (Writer.buf w) ->
    exists w' enc,
      write w v = Ret (k, None, w') /\
      Writer.wr w' = Writer.wr w /\ Writer.n w' = Writer.n w + k /\
      len enc = k /\ pending w' = pending w ++ enc /\
      forall b : @Reader.t S,
        reader_wf b -> k <= Reader.Buffered b ->
        firstn (Z.to_nat k) (unread b) = enc ->
        read b = Ret (v, None, Reader.with_r b (Reader.r b + k)).

(** ** Failure of a helper built on a primitive

    The helper [helper] answers [sentinel] together with the error of its
    primitive [prim] whenever the primitive fails, leaving the state the
    primitive left, and it reports an error in no other case. *)
Definition fails_with {St V W : Type} (sentinel : V)
    (prim : St -> outcome (W * option error * St))
    (helper : St -> outcome (V * option error * St)) : Prop :=
  forall (b b' : St) (e : error),
    (forall d, prim b = Ret (d, Some e, b') -> helper b = Ret (sentinel, Some e, b')) /\
    (forall v, helper b = Ret (v, Some e, b') ->
       v = sentinel /\ exists d, prim b = Ret (d, Some e, b')).

(** ** Concrete streams *)

(** A scripted readable stream: it plays its replies in order and reports
    end of stream once they are used up. *)
Definition script_Read (s : list read_reply) (k : Z) : read_reply * list read_reply :=
  match s with
  | [] => (Reply [] (Some EOF), [])
  | x :: s' => (x, s')
  end.

(** A readable stream over a fixed byte sequence that hands out at most
    [chunk] bytes per call, never more than asked for, and end of stream
    when nothing is left. *)
Definition bytes_Read (chunk : nat) (s : list byte) (k : Z) : read_reply * list byte :=
  match s with
  | [] => (Reply [] (Some EOF), [])
  | _ => let m := Nat.min chunk (Z.to_nat k) in (Reply (firstn m s) None, skipn m s)
  end.

(** A scripted writable stream: it plays its replies in order, then accepts
    everything. *)
Definition script_Write (s : list write_reply) (p : list byte)
  : write_reply * list write_reply :=
  match s with
  | [] => (WReply (len p) None, [])
  | x :: s' => (x, s')
  end.

(** A collecting sink that takes at most [limit] bytes per call and reports
    no error of its own. *)
Definition sink_Write (limit : nat) (s : list byte) (p : list byte)
  : write_reply * list byte :=
  let m := Nat.min limit (length p) in
  (WReply (Z.of_nat m) None, s ++ firstn m p).

(** ** Concrete Readers and Writers *)

(** A 16-byte Reader over a scripted stream, and one over a byte source
    that hands out [chunk] bytes per call. *)
Definition scripted_reader (s : list read_reply) : @Reader.t (list read_reply) :=
  Reader.NewReaderSize {| Reader.st := s; Reader.calls := [] |} 16.

Definition chunked_reader (s : list byte) : @Reader.t (list byte) :=
  Reader.NewReaderSize {| Reader.st := s; Reader.calls := [] |} 16.

Definition bytes_1_to_6 : list byte := [x01; x02; x03; x04; x05; x06].

(** A stream that answers zero bytes and no error a hundred times. *)
Definition stalled_reader : @Reader.t (list read_reply) :=
  scripted_reader (repeat (Reply [] None) 100).

(** A stream that answers an empty read and then one byte. *)
Definition slow_reader : @Reader.t (list read_reply) :=
  scripted_reader [Reply [] None; Reply [x2a] None].

(** A stream that is at its end from the start. *)
Definition ended_reader : @Reader.t (list read_reply) := scripted_reader [].

(** A stream whose first answer is zero bytes and no error. *)
Definition idle_once_reader : @Reader.t (list read_reply) :=
  scripted_reader [Reply [] None].

(** A stream that reports its end once and then delivers three bytes. *)
Definition revived_reader : @Reader.t (list read_reply) :=
  scripted_reader [Reply [] (Some EOF); Reply [x01; x02; x03] None].

(** A stream that delivers three bytes and then is at its end. *)
Definition three_byte_reader : @Reader.t (list read_reply) :=
  scripted_reader [Reply [x01; x02; x03] None].

(** The Reader left by [Peek(3)] on the six-byte source read three bytes
    at a time. *)
Definition peeked_reader : @Reader.t (list byte) :=
  match Reader.Peek (bytes_Read 3) (chunked_reader bytes_1_to_6) 3 with
  | Ret (_, _, b) => b
  | _ => chunked_reader bytes_1_to_6
  end.

(** The Reader left by [Peek(3)] on the six-byte source read one byte at a
    time. *)
Definition trickled_reader : @Reader.t (list byte) :=
  match Reader.Peek (bytes_Read 1) (chunked_reader bytes_1_to_6) 3 with
  | Ret (_, _, b) => b
  | _ => chunked_reader bytes_1_to_6
  end.

(** The Reader left by [Peek(3)] on the three-byte stream. *)
Definition drained_reader : @Reader.t (list read_reply) :=
  match Reader.Peek script_Read three_byte_reader 3 with
  | Ret (_, _, b) => b
  | _ => three_byte_reader
  end.

(** The Reader left by [Peek(2)] on the stream that is at its end. *)
Definition reported_reader : @Reader.t (list read_reply) :=
  match Reader.Peek script_Read ended_reader 2 with
  | Ret (_, _, b) => b
  | _ => ended_reader
  end.

(** A stream that delivers three bytes together with an error of its own,
    and reports its end on the next call. *)
Definition erring_reader : @Reader.t (list read_reply) :=
  scripted_reader [Reply [x01; x02; x03] (Some (StreamErr 7)); Reply [] (Some EOF)].

(** A Reader with the big-endian encoding of the 16-bit value [-2] as its
    next unread bytes: the Reader left by [Peek(2)] on a source holding it. *)
Definition encoded_reader : @Reader.t (list byte) :=
  match Reader.Peek (bytes_Read 3) (chunked_reader [xff; xfe; x03]) 2 with
  | Ret (_, _, b) => b
  | _ => chunked_reader [xff; xfe; x03]
  end.

(** A 4-byte Writer whose stream accepts one byte of the first write it is
    handed, reporting no error, with two bytes already pending. *)
Definition pending_writer : @Writer.t (list write_reply) :=
  {| Writer.err := None; Writer.buf := [x0a; x0b; x00; x00]; Writer.n := 2;
     Writer.wr := {| Writer.st := [WReply 1 None]; Writer.calls := [] |} |}.

(** The same Writer after the [Flush] that fails. *)
Definition failed_writer : @Writer.t (list write_reply) :=
  snd (Writer.Flush script_Write pending_writer).

(** A collecting sink that takes everything it is handed. *)
Definition collect_Write (s : list byte) (p : list byte) : write_reply * list byte :=
  (WReply (len p) None, s ++ p).

(** A fresh 4-byte Writer over a byte sink, and one with two bytes pending. *)
Definition sink_writer : @Writer.t (list byte) :=
  Writer.NewWriterSize {| Writer.st := []; Writer.calls := [] |} 4.

Definition loaded_writer : @Writer.t (list byte) :=
  {| Writer.err := None; Writer.buf := [x0a; x0b; x00; x00]; Writer.n := 2;
     Writer.wr := {| Writer.st := []; Writer.calls := [] |} |}.

Definition bytes_c_to_10 : list byte := [x0c; x0d; x0e; x0f; x10].

(* ===================================================================== *)
(** * Part II: properties *)
(* ===================================================================== *)

(** ** Bytes and bit fields *)

Lemma byte_val_range (b : byte) : 0 <= byte_val b < 256.
Proof.
  unfold byte_val. pose proof (Byte.to_N_bounded b) as H. lia.
Qed.

Lemma byte_val_to_byte (v : Z) : byte_val (to_byte v) = v mod 256.
Proof.
  unfold byte_val, to_byte.
  assert (Hr : 0 <= v mod 256 < 256) by (apply Z.mod_pos_bound; lia).
  destruct (Byte.of_N (Z.to_N (v mod 256))) as [b|] eqn:E.
  - apply Byte.to_of_N in E. rewrite E. lia.
  - apply Byte.of_N_None_iff in E. lia.
Qed.

Lemma testbit_shl (w x k i : Z) :
  0 <= i -> 0 <= k -> 0 <= w ->
  Z.testbit (shl w x k) i = (i <? w) && (k <=? i) && Z.testbit x (i - k).
Proof.
  intros Hi Hk Hw. unfold shl. rewrite Z.testbit_mod_pow2 by lia.
  destruct (Z.ltb_spec i w); cbn [andb]; [|reflexivity].
  destruct (Z.leb_spec k i); cbn [andb].
  - now rewrite Z.shiftl_spec by lia.
  - now rewrite Z.shiftl_spec_low by lia.
Qed.

Lemma testbit_low8 (x i : Z) :
  0 <= i -> Z.testbit (x mod 256) i = (i <? 8) && Z.testbit x i.
Proof. intros Hi. change 256 with (2 ^ 8). apply Z.testbit_mod_pow2. lia. Qed.

Lemma testbit_above (w v i : Z) :
  0 <= w -> 0 <= v < 2 ^ w -> w <= i -> Z.testbit v i = false.
Proof.
  intros Hw Hv Hi. rewrite <- (Z.mod_small v (2 ^ w)) by lia.
  rewrite Z.testbit_mod_pow2 by lia.
  destruct (Z.ltb_spec i w); [lia | reflexivity].
Qed.

Ltac decide_cmp :=
  match goal with
  | |- context [?a <? ?b] =>
      first [ replace (a <? b) with true by (symmetry; apply Z.ltb_lt; lia)
            | replace (a <? b) with false by (symmetry; apply Z.ltb_ge; lia) ]
  | |- context [?a <=? ?b] =>
      first [ replace (a <=? b) with true by (symmetry; apply Z.leb_le; lia)
            | replace (a <=? b) with false by (symmetry; apply Z.leb_gt; lia) ]
  end.

(** Bit [i] of a word reassembled from its bytes, [i] lying in a known
    byte. *)
Ltac chunk_bits v i :=
  repeat rewrite Z.lor_spec;
  repeat (rewrite testbit_shl by lia);
  repeat decide_cmp; cbn [andb orb];
  repeat (rewrite testbit_low8 by lia);
  repeat (rewrite Z.shiftr_spec by lia);
  repeat decide_cmp; cbn [andb orb];
  repeat match goal with
         | |- context [Z.testbit v ?e] => progress replace e with i by lia
         end;
  rewrite ?orb_false_r; try reflexivity.

Ltac bytes_of_word w v Hv :=
  apply Z.bits_inj';
  let i := fresh "i" in
  let Hi := fresh "Hi" in
  let Hc := fresh "Hc" in
  intros i Hi;
  assert (i < 8 \/ 8 <= i < 16 \/ 16 <= i < 24 \/ 24 <= i < 32 \/ 32 <= i < 40
          \/ 40 <= i < 48 \/ 48 <= i < 56 \/ 56 <= i < 64 \/ 64 <= i) as Hc by lia;
  repeat (destruct Hc as [Hc | Hc]);
  chunk_bits v i;
  symmetry; apply (testbit_above w); lia.

Lemma word16_of_bytes (v : Z) :
  0 <= v < 2 ^ 16 ->
  Z.lor (v mod 256) (shl 16 (Z.shiftr v 8 mod 256) 8) = v.
Proof. intros Hv. bytes_of_word 16 v Hv. Qed.

Lemma word32_of_bytes (v : Z) :
  0 <= v < 2 ^ 32 ->
  Z.lor (Z.lor (Z.lor (v mod 256) (shl 32 (Z.shiftr v 8 mod 256) 8))
               (shl 32 (Z.shiftr v 16 mod 256) 16))
        (shl 32 (Z.shiftr v 24 mod 256) 24) = v.
Proof. intros Hv. bytes_of_word 32 v Hv. Qed.

Lemma word64_of_bytes (v : Z) :
  0 <= v < 2 ^ 64 ->
  Z.lor (Z.lor (Z.lor (Z.lor (Z.lor (Z.lor (Z.lor
    (v mod 256) (shl 64 (Z.shiftr v 8 mod 256) 8))
    (shl 64 (Z.shiftr v 16 mod 256) 16)) (shl 64 (Z.shiftr v 24 mod 256) 24))
    (shl 64 (Z.shiftr v 32 mod 256) 32)) (shl 64 (Z.shiftr v 40 mod 256) 40))
    (shl 64 (Z.shiftr v 48 mod 256) 48)) (shl 64 (Z.shiftr v 56 mod 256) 56) = v.
Proof. intros Hv. bytes_of_word 64 v Hv. Qed.

Ltac run_codec :=
  cbv [decode_after_encode
       GetUint16LE PutUint16LE GetUint16BE PutUint16BE
       GetUint32LE PutUint32LE GetUint32BE PutUint32BE
       GetUint64LE PutUint64LE GetUint64BE PutUint64BE
       GetFloat32LE PutFloat32LE GetFloat32BE PutFloat32BE
       GetFloat64LE PutFloat64LE GetFloat64BE PutFloat64BE
       binary.LittleEndian_Uint16 binary.LittleEndian_PutUint16
       binary.BigEndian_Uint16 binary.BigEndian_PutUint16
       binary.LittleEndian_Uint32 binary.LittleEndian_PutUint32
       binary.BigEndian_Uint32 binary.BigEndian_PutUint32
       binary.LittleEndian_Uint64 binary.LittleEndian_PutUint64
       binary.BigEndian_Uint64 binary.BigEndian_PutUint64];
  cbn [length Nat.ltb Nat.leb upd option_map];
  unfold at_; cbn [nth option_map];
  rewrite ?byte_val_to_byte.

Lemma round_trip_16 (b : list byte) (v : Z) :
  (2 <= length b)%nat -> 0 <= v < 2 ^ 16 ->
  decode_after_encode PutUint16LE GetUint16LE b v = Some v /\
  decode_after_encode PutUint16BE GetUint16BE b v = Some v.
Proof.
  intros Hb Hv.
  destruct b as [|b0 [|b1 b]]; cbn [length] in Hb; try lia.
  split; run_codec; f_equal; apply word16_of_bytes; exact Hv.
Qed.

Lemma round_trip_32 (b : list byte) (v : Z) :
  (4 <= length b)%nat -> 0 <= v < 2 ^ 32 ->
  decode_after_encode PutUint32LE GetUint32LE b v = Some v /\
  decode_after_encode PutUint32BE GetUint32BE b v = Some v.
Proof.
  intros Hb Hv.
  destruct b as [|b0 [|b1 [|b2 [|b3 b]]]]; cbn [length] in Hb; try lia.
  split; run_codec; f_equal; apply word32_of_bytes; exact Hv.
Qed.

Lemma round_trip_64 (b : list byte) (v : Z) :
  (8 <= length b)%nat -> 0 <= v < 2 ^ 64 ->
  decode_after_encode PutUint64LE GetUint64LE b v = Some v /\
  decode_after_encode PutUint64BE GetUint64BE b v = Some v.
Proof.
  intros Hb Hv.
  destruct b as [|b0 [|b1 [|b2 [|b3 [|b4 [|b5 [|b6 [|b7 b]]]]]]]];
    cbn [length] in Hb; try lia.
  split; run_codec; f_equal; apply word64_of_bytes; exact Hv.
Qed.

(** C4. For every width (16, 32, 64) and byte order (LE, BE), decoding the
    window that was just encoded gives the value back, for every value of
    that width, [0] and the maximum included; the float variants give back
    the very bit pattern that was encoded, whatever it denotes (finite,
    infinite or NaN). *)
Theorem codec_round_trip
    (b2 b4 b8 : list byte) (v16 v32 v64 : Z) (x32 : float32) (x64 : float64) :
  (2 <= length b2)%nat -> (4 <= length b4)%nat -> (8 <= length b8)%nat ->
  0 <= v16 < 2 ^ 16 -> 0 <= v32 < 2 ^ 32 -> 0 <= v64 < 2 ^ 64 ->
  float32_wf x32 -> float64_wf x64 ->
  decode_after_encode PutUint16LE GetUint16LE b2 v16 = Some v16 /\
  decode_after_encode PutUint16BE GetUint16BE b2 v16 = Some v16 /\
  decode_after_encode PutUint32LE GetUint32LE b4 v32 = Some v32 /\
  decode_after_encode PutUint32BE GetUint32BE b4 v32 = Some v32 /\
  decode_after_encode PutUint64LE GetUint64LE b8 v64 = Some v64 /\
  decode_after_encode PutUint64BE GetUint64BE b8 v64 = Some v64 /\
  decode_after_encode PutFloat32LE GetFloat32LE b4 x32 = Some x32 /\
  decode_after_encode PutFloat32BE GetFloat32BE b4 x32 = Some x32 /\
  decode_after_encode PutFloat64LE GetFloat64LE b8 x64 = Some x64 /\
  decode_after_encode PutFloat64BE GetFloat64BE b8 x64 = Some x64.
Proof.
  intros H2 H4 H8 Hv16 Hv32 Hv64 Hx32 Hx64.
  destruct (round_trip_16 b2 v16 H2 Hv16) as [L16 B16].
  destruct (round_trip_32 b4 v32 H4 Hv32) as [L32 B32].
  destruct (round_trip_64 b8 v64 H8 Hv64) as [L64 B64].
  destruct x32 as [u32], x64 as [u64].
  unfold float32_wf, float64_wf in Hx32, Hx64. cbn [Float32bits Float64bits] in Hx32, Hx64.
  destruct (round_trip_32 b4 u32 H4 Hx32) as [FL32 FB32].
  destruct (round_trip_64 b8 u64 H8 Hx64) as [FL64 FB64].
  repeat split; try assumption.
  - unfold decode_after_encode, PutFloat32LE, GetFloat32LE in *. cbn [Float32bits].
    destruct (PutUint32LE b4 u32); [|discriminate]. now rewrite FL32.
  - unfold decode_after_encode, PutFloat32BE, GetFloat32BE in *. cbn [Float32bits].
    destruct (PutUint32BE b4 u32); [|discriminate]. now rewrite FB32.
  - unfold decode_after_encode, PutFloat64LE, GetFloat64LE in *. cbn [Float64bits].
    destruct (PutUint64LE b8 u64); [|discriminate]. now rewrite FL64.
  - unfold decode_after_encode, PutFloat64BE, GetFloat64BE in *. cbn [Float64bits].
    destruct (PutUint64BE b8 u64); [|discriminate]. now rewrite FB64.
Qed.

(** The boundary values: zero, the maxima, both infinities and two NaNs. *)
Lemma codec_round_trip_witness :
  (decode_after_encode PutUint16LE GetUint16LE (make 2) 0 = Some 0 /\
   decode_after_encode PutUint64BE GetUint64BE (make 8) 0 = Some 0 /\
   decode_after_encode PutFloat32BE GetFloat32BE (make 4) f32_pos_inf = Some f32_pos_inf /\
   decode_after_encode PutFloat64LE GetFloat64LE (make 8) f64_pos_inf = Some f64_pos_inf) /\
  (decode_after_encode PutUint16BE GetUint16BE (make 2) 0xFFFF = Some 0xFFFF /\
   decode_after_encode PutUint32LE GetUint32LE (make 4) 0xFFFFFFFF = Some 0xFFFFFFFF /\
   decode_after_encode PutUint64LE GetUint64LE (make 8) 0xFFFFFFFFFFFFFFFF
     = Some 0xFFFFFFFFFFFFFFFF /\
   decode_after_encode PutFloat32LE GetFloat32LE (make 4) f32_neg_inf = Some f32_neg_inf /\
   decode_after_encode PutFloat64BE GetFloat64BE (make 8) f64_neg_inf = Some f64_neg_inf) /\
  (decode_after_encode PutFloat32LE GetFloat32LE (make 4) f32_quiet_nan = Some f32_quiet_nan /\
   decode_after_encode PutFloat64BE GetFloat64BE (make 8) f64_signalling_nan
     = Some f64_signalling_nan).
Proof.
  assert (W2 : (2 <= length (make 2))%nat) by (vm_compute; lia).
  assert (W4 : (4 <= length (make 4))%nat) by (vm_compute; lia).
  assert (W8 : (8 <= length (make 8))%nat) by (vm_compute; lia).
  split; [|split].
  - pose proof (codec_round_trip (make 2) (make 4) (make 8) 0 0 0 f32_pos_inf f64_pos_inf
                  W2 W4 W8) as H.
    unfold float32_wf, float64_wf in H; cbn [Float32bits Float64bits f32_pos_inf f64_pos_inf] in H.
    assert (H' := H ltac:(lia) ltac:(lia) ltac:(lia) ltac:(lia) ltac:(lia)).
    intuition.
  - pose proof (codec_round_trip (make 2) (make 4) (make 8) 0xFFFF 0xFFFFFFFF
                  0xFFFFFFFFFFFFFFFF f32_neg_inf f64_neg_inf W2 W4 W8) as H.
    unfold float32_wf, float64_wf in H; cbn [Float32bits Float64bits f32_neg_inf f64_neg_inf] in H.
    assert (H' := H ltac:(lia) ltac:(lia) ltac:(lia) ltac:(lia) ltac:(lia)).
    intuition.
  - pose proof (codec_round_trip (make 2) (make 4) (make 8) 0 0 0 f32_quiet_nan
                  f64_signalling_nan W2 W4 W8) as H.
    unfold float32_wf, float64_wf in H;
      cbn [Float32bits Float64bits f32_quiet_nan f64_signalling_nan] in H.
    assert (H' := H ltac:(lia) ltac:(lia) ltac:(lia) ltac:(lia) ltac:(lia)).
    intuition.
Defined.

(** ** Slices *)

Arguments slice : simpl never.
Arguments copy_into : simpl never.
Arguments copy_count : simpl never.
Arguments make : simpl never.
Arguments len : simpl never.

Lemma len_nonneg {A : Type} (l : list A) : 0 <= len l.
Proof. unfold len. lia. Qed.

Lemma len_copy_into (dst : list byte) (off : Z) (src : list byte) :
  len (copy_into dst off src) = len dst.
Proof.
  unfold len, copy_into. f_equal.
  rewrite !length_app, !length_firstn, length_skipn. lia.
Qed.

Lemma copy_into_nil (dst : list byte) (off : Z) : copy_into dst off [] = dst.
Proof.
  unfold copy_into. cbn [length Nat.min firstn app].
  rewrite Nat.add_0_r. apply firstn_skipn.
Qed.

Lemma len_slice (b : list byte) (lo hi : Z) :
  0 <= lo <= hi -> hi <= len b -> len (slice b lo hi) = hi - lo.
Proof.
  unfold len, slice. intros H1 H2.
  rewrite length_firstn, length_skipn. lia.
Qed.

Lemma len_make (n : Z) : 0 <= n -> len (make n) = n.
Proof. intros H. unfold len, make. rewrite repeat_length. lia. Qed.

(** ** The Reader *)

Section ReaderFacts.

Context {S : Type}.
Variable rd_Read : S -> Z -> read_reply * S.

Abbreviation reader := (@Reader.t S).
Abbreviation stream_Read := (Reader.stream_Read rd_Read).
Abbreviation fill := (Reader.fill rd_Read).
Abbreviation fill_loop := (Reader.fill_loop rd_Read).
Abbreviation Peek := (Reader.Peek rd_Read).
Abbreviation Peek_loop := (Reader.Peek_loop rd_Read).
Abbreviation Pop := (Reader.Pop rd_Read).
Abbreviation Discard := (Reader.Discard rd_Read).
Abbreviation Discard_loop := (Reader.Discard_loop rd_Read).
Abbreviation Read := (Reader.Read rd_Read).
Abbreviation ReadFull := (Reader.ReadFull rd_Read).
Abbreviation ReadAtLeast_loop := (Reader.ReadAtLeast_loop rd_Read).
Abbreviation ReadBytes := (Reader.ReadBytes rd_Read).
Abbreviation ReadString := (Reader.ReadString rd_Read).
Abbreviation buf := Reader.buf.
Abbreviation rd := Reader.rd.
Abbreviation err := Reader.err.
Abbreviation calls := Reader.calls.
Abbreviation Buffered := Reader.Buffered.

(** The number of calls the wrapped stream has received. *)
Abbreviation ncalls b := (length (calls (rd b))).

Lemma stream_Read_calls (s s' : Reader.stream) (k : Z) (rep : read_reply) :
  stream_Read s k = (rep, s') -> calls s' = (k, rep) :: calls s.
Proof.
  unfold Reader.stream_Read. destruct (rd_Read (Reader.st s) k) as [rep0 st'].
  intros H. inversion H. reflexivity.
Qed.

Lemma slide_Buffered (b : reader) : Buffered (Reader.slide b) = Buffered b.
Proof.
  unfold Reader.slide, Buffered. destruct (0 <? Reader.r b); cbn; lia.
Qed.

Lemma slide_frame (b : reader) :
  rd (Reader.slide b) = rd b /\ err (Reader.slide b) = err b /\
  len (buf (Reader.slide b)) = len (buf b).
Proof.
  unfold Reader.slide.
  destruct (0 <? Reader.r b); cbn; repeat split; auto using len_copy_into.
Qed.

Lemma slide_r (b : reader) : 0 <= Reader.r b -> Reader.r (Reader.slide b) = 0.
Proof.
  unfold Reader.slide. destruct (Z.ltb_spec 0 (Reader.r b)); cbn; lia.
Qed.

(** What one run of the read loop of [fill] does to the Reader. *)
Lemma fill_loop_spec (i : nat) (b b' : reader) :
  fill_loop i b = Ret b' ->
  Reader.r b' = Reader.r b /\ len (buf b') = len (buf b) /\
  Reader.w b <= Reader.w b' /\
  (err b' = None -> Reader.w b < Reader.w b') /\
  (ncalls b <= ncalls b' <= ncalls b + i)%nat /\
  (i <> O -> ncalls b < ncalls b')%nat.
Proof.
  revert b. induction i as [|i IH]; intros b H; cbn [Reader.fill_loop] in H.
  - inversion H; subst; cbn. repeat split; try lia; try discriminate.
  - destruct (stream_Read (rd b) (len (buf b) - Reader.w b)) as [rep s'] eqn:E.
    apply stream_Read_calls in E.
    destruct rep as [d e|k e]; [|discriminate].
    pose proof (len_nonneg d) as Hd.
    destruct e as [e|].
    + inversion H; subst; cbn. rewrite E, len_copy_into. cbn [length].
      repeat split; try lia; try discriminate.
    + destruct (Z.ltb_spec 0 (len d)).
      * inversion H; subst; cbn. rewrite E, len_copy_into. cbn [length].
        repeat split; try lia.
      * apply IH in H. cbn in H. rewrite E, len_copy_into in H. cbn [length] in H.
        destruct H as (H1 & H2 & H3 & H4 & H5 & H6).
        repeat split; try lia. intros He. specialize (H4 He). lia.
Qed.

(** [fill] either adds at least one byte or leaves an error behind, and it
    calls the stream at least once and at most a hundred times. *)
Lemma fill_spec (b b' : reader) :
  fill b = Ret b' ->
  len (buf b') = len (buf b) /\
  Buffered b <= Buffered b' /\
  (err b' = None -> Buffered b < Buffered b') /\
  (ncalls b < ncalls b' <= ncalls b + 100)%nat /\
  (0 <= Reader.r b -> Reader.r b' = 0).
Proof.
  unfold Reader.fill. intros H.
  destruct (len (buf (Reader.slide b)) <=? Reader.w (Reader.slide b)); [discriminate|].
  apply fill_loop_spec in H. destruct H as (H1 & H2 & H3 & H4 & H5 & H6).
  pose proof (slide_Buffered b) as HB. destruct (slide_frame b) as (F1 & F2 & F3).
  unfold Buffered in *. rewrite F1 in *.
  unfold Reader.maxConsecutiveEmptyReads in *.
  assert (H7 : (ncalls b < ncalls b')%nat) by (apply H6; discriminate).
  split; [lia|]. split; [lia|].
  split; [intros He; specialize (H4 He); lia|].
  split; [lia|].
  intros Hr. rewrite H1. now apply slide_r.
Qed.

(** [fill] always comes back: its loop is bounded by its counter. *)
Lemma fill_loop_terminates (i : nat) (b : reader) : fill_loop i b <> OutOfFuel.
Proof.
  revert b. induction i as [|i IH]; intros b; cbn [Reader.fill_loop]; [discriminate|].
  destruct (stream_Read (rd b) (len (buf b) - Reader.w b)) as [[d e|k e] s'];
    [|discriminate].
  destruct e; [discriminate|]. destruct (0 <? len d); [discriminate|]. apply IH.
Qed.

Lemma fill_terminates (b : reader) : fill b <> OutOfFuel.
Proof.
  unfold Reader.fill.
  destruct (len (buf (Reader.slide b)) <=? Reader.w (Reader.slide b)); [discriminate|].
  apply fill_loop_terminates.
Qed.

Lemma Peek_loop_eq (fuel : nat) (n : Z) (b : reader) :
  Peek_loop fuel n b =
  if (Reader.w b - Reader.r b <? n) && is_nil (err b) then
    match fuel with
    | O => OutOfFuel
    | Datatypes.S f => b' <- fill b ;; Peek_loop f n b'
    end
  else Ret b.
Proof. destruct fuel; reflexivity. Qed.

(** The loop of [Peek] is left with enough bytes or with an error; it is
    not entered at all when that already holds, and otherwise it calls the
    stream. *)
Lemma Peek_loop_spec (fuel : nat) (n : Z) (b b1 : reader) :
  Peek_loop fuel n b = Ret b1 ->
  (n <= Buffered b1 \/ err b1 <> None) /\
  len (buf b1) = len (buf b) /\
  (ncalls b <= ncalls b1)%nat /\
  (Buffered b < n -> err b = None -> (ncalls b < ncalls b1)%nat) /\
  (n <= Buffered b \/ err b <> None -> b1 = b).
Proof.
  revert b. induction fuel as [|f IH]; intros b H; rewrite Peek_loop_eq in H;
    unfold Buffered in *.
  - destruct (Z.ltb_spec (Reader.w b - Reader.r b) n) as [Hlt|Hge]; cbn [andb] in H.
    + destruct (err b) eqn:Ee; cbn [is_nil] in H; [|discriminate].
      inversion H; subst. rewrite Ee.
      repeat split; auto; try lia; try discriminate. right; discriminate.
    + inversion H; subst. repeat split; auto; try lia.
  - destruct (Z.ltb_spec (Reader.w b - Reader.r b) n) as [Hlt|Hge]; cbn [andb] in H.
    + destruct (err b) eqn:Ee; cbn [is_nil] in H.
      * inversion H; subst. rewrite Ee.
        repeat split; auto; try lia; try discriminate. right; discriminate.
      * destruct (fill b) as [b'| |] eqn:Ef; cbn [bind] in H; try discriminate.
        apply fill_spec in Ef. destruct Ef as (F1 & F2 & F3 & F4 & F5).
        apply IH in H. destruct H as (H1 & H2 & H3 & H4 & H5).
        repeat split; auto; try lia.
        intros [Hn|Hn]; [unfold Buffered in *; lia | congruence].
    + inversion H; subst. repeat split; auto; try lia.
Qed.

(** The fuel [Peek] hands to its loop is never used up: the loop returns or
    panics inside [fill]. *)
Lemma Peek_loop_returns (fuel : nat) (n : Z) (b : reader) :
  n - Buffered b <= Z.of_nat fuel -> Peek_loop fuel n b <> OutOfFuel.
Proof.
  revert b. induction fuel as [|f IH]; intros b Hf; rewrite Peek_loop_eq;
    unfold Buffered in *.
  - destruct (Z.ltb_spec (Reader.w b - Reader.r b) n); cbn [andb]; [lia | discriminate].
  - destruct (Z.ltb_spec (Reader.w b - Reader.r b) n); cbn [andb]; [|discriminate].
    destruct (err b) eqn:Ee; cbn [is_nil]; [discriminate|].
    pose proof (fill_terminates b) as Hft.
    destruct (fill b) as [b'| |] eqn:Ef; cbn [bind]; try discriminate; try assumption.
    apply fill_spec in Ef. destruct Ef as (F1 & F2 & F3 & F4 & F5).
    destruct (err b') eqn:Ee'.
    + rewrite Peek_loop_eq, Ee'. cbn [is_nil]. rewrite andb_false_r. discriminate.
    + apply IH. specialize (F3 eq_refl). unfold Buffered in *. lia.
Qed.

Lemma Peek_returns (b : reader) (n : Z) :
  0 <= Buffered b -> Peek b n <> OutOfFuel.
Proof.
  intros Hb. unfold Reader.Peek.
  destruct (n <? 0); [discriminate|].
  destruct (len (buf b) <? n); [discriminate|].
  pose proof (Peek_loop_returns (Z.to_nat n) n b) as H.
  destruct (Peek_loop (Z.to_nat n) n b) as [b1| |]; cbn [bind].
  - destruct (Reader.w b1 - Reader.r b1 <? n); cbn; discriminate.
  - discriminate.
  - exfalso. apply H; [lia | reflexivity].
Qed.

(** A [Peek] that is already satisfied by the buffer. *)
Lemma Peek_buffered (b : reader) (n : Z) :
  0 <= n <= Buffered b -> n <= len (buf b) ->
  Peek b n = Ret (slice (buf b) (Reader.r b) (Reader.r b + n), None, b).
Proof.
  intros Hn Hcap. unfold Reader.Peek, Buffered in *.
  destruct (Z.ltb_spec n 0); [lia|].
  destruct (Z.ltb_spec (len (buf b)) n); [lia|].
  rewrite Peek_loop_eq.
  destruct (Z.ltb_spec (Reader.w b - Reader.r b) n); [lia|]. cbn [andb bind].
  destruct (Z.ltb_spec (Reader.w b - Reader.r b) n); [lia|]. reflexivity.
Qed.

(** A successful [Peek] leaves at least [n] bytes buffered and returns the
    first [n] of them. *)
Lemma Peek_success (b b1 : reader) (n : Z) (d : list byte) :
  Peek b n = Ret (d, None, b1) ->
  0 <= n <= Buffered b1 /\ n <= len (buf b1) /\
  d = slice (buf b1) (Reader.r b1) (Reader.r b1 + n).
Proof.
  unfold Reader.Peek. intros H.
  destruct (Z.ltb_spec n 0); [discriminate|].
  destruct (Z.ltb_spec (len (buf b)) n); [discriminate|].
  destruct (Peek_loop (Z.to_nat n) n b) as [b0| |] eqn:El; cbn [bind] in H; try discriminate.
  apply Peek_loop_spec in El. destruct El as (_ & L2 & _).
  destruct (Z.ltb_spec (Reader.w b0 - Reader.r b0) n).
  - cbn in H. destruct (err b0); discriminate.
  - inversion H; subst. unfold Buffered. repeat split; try lia.
Qed.

(** C8. [Pop(n)] is [Peek(n)] followed, on success only, by moving the read
    cursor forward by [n]: whatever [Peek(n)] returns, [Pop(n)] on the same
    Reader returns the same bytes and error, with the cursor advanced by
    exactly [n] when there is no error and left alone otherwise.  And once
    [Peek(n)] has succeeded, an immediately following [Pop(n)] returns the
    identical bytes, makes no call to the stream, and changes nothing but the
    cursor, which it advances by exactly [n]. *)
Theorem Pop_is_Peek_then_advance
    (b b1 : reader) (n : Z) (d : list byte) (e : option error) :
  Peek b n = Ret (d, e, b1) ->
  Pop b n = Ret (match e with None => d | Some _ => [] end, e,
                 match e with None => Reader.with_r b1 (Reader.r b1 + n) | Some _ => b1 end) /\
  (e = None ->
   0 <= n <= len (buf b1) /\
   Peek b1 n = Ret (d, None, b1) /\
   Pop b1 n = Ret (d, None, Reader.with_r b1 (Reader.r b1 + n)) /\
   Reader.r (Reader.with_r b1 (Reader.r b1 + n)) = Reader.r b1 + n).
Proof.
  intros H. split.
  - unfold Reader.Pop. rewrite H. cbn [bind]. destruct e; reflexivity.
  - intros ->. destruct (Peek_success _ _ _ _ H) as (Hn & Hcap & Hd).
    assert (Hp : Peek b1 n = Ret (d, None, b1)).
    { rewrite Hd. apply Peek_buffered; lia. }
    split; [lia|]. split; [exact Hp|]. split; [|reflexivity].
    unfold Reader.Pop. rewrite Hp. reflexivity.
Qed.

Lemma idle_reads_eq (k : nat) (s : Reader.stream) (req : Z) :
  Reader.idle_reads rd_Read (Datatypes.S k) s req =
  match stream_Read s req with
  | (Reply [] None, s') => Reader.idle_reads rd_Read k s' req
  | _ => None
  end.
Proof. reflexivity. Qed.

(** [k] idle reads are [k] turns of the loop of [fill] that change nothing
    but the stream. *)
Lemma fill_loop_idle (k : nat) : forall (i : nat) (b : reader) (s1 : Reader.stream),
  Reader.idle_reads rd_Read k (rd b) (len (buf b) - Reader.w b) = Some s1 ->
  (k <= i)%nat ->
  fill_loop i b = fill_loop (i - k) (Reader.with_rd b s1) /\
  length (calls s1) = (ncalls b + k)%nat.
Proof.
  induction k as [|k IH]; intros i b s1 Hidle Hk.
  - cbn in Hidle. inversion Hidle; subst. rewrite Nat.sub_0_r, Nat.add_0_r.
    destruct b; split; reflexivity.
  - destruct i as [|i]; [lia|].
    rewrite idle_reads_eq in Hidle. cbn [Reader.fill_loop Nat.sub].
    destruct (stream_Read (rd b) (len (buf b) - Reader.w b)) as [rep s'] eqn:E.
    pose proof (stream_Read_calls _ _ _ _ E) as Hc.
    destruct rep as [[|x d] [e|]|]; try discriminate.
    change (0 <? len (@nil byte)) with false. cbn iota.
    rewrite copy_into_nil. change (len (@nil byte)) with 0. rewrite Z.add_0_r.
    specialize (IH i (Reader.with_rd b s') s1 Hidle ltac:(lia)).
    destruct IH as [IH1 IH2]. cbn in IH2. rewrite Hc in IH2. cbn [length] in IH2.
    split; [exact IH1 | lia].
Qed.

(** C6. A stream that answers zero bytes and no error a hundred times in a
    row makes [fill] stop with [ErrNoProgress] after exactly those hundred
    calls; a reply that carries bytes or an error, coming after fewer than a
    hundred empty ones, ends [fill] at once with that reply stored.  For any
    stream whatever, [fill] comes back after at most a hundred calls.  The
    three parts stand each on its own conditions. *)
Theorem fill_gives_up_after_100_empty_reads :
  (forall (b : reader) (s100 : Reader.stream),
     let b0 := Reader.slide b in
     Reader.w b0 < len (buf b0) ->
     Reader.idle_reads rd_Read 100 (rd b0) (len (buf b0) - Reader.w b0) = Some s100 ->
     fill b = Ret (Reader.with_err (Reader.with_rd b0 s100) (Some ErrNoProgress)) /\
     length (calls s100) = (ncalls b + 100)%nat) /\
  (forall (c : reader) (k : nat) (s1 s2 : Reader.stream) (d : list byte)
          (e : option error),
     let c0 := Reader.slide c in
     Reader.w c0 < len (buf c0) ->
     (k < 100)%nat ->
     Reader.idle_reads rd_Read k (rd c0) (len (buf c0) - Reader.w c0) = Some s1 ->
     stream_Read s1 (len (buf c0) - Reader.w c0) = (Reply d e, s2) ->
     d <> [] \/ e <> None ->
     fill c = Ret {| Reader.buf := copy_into (buf c0) (Reader.w c0) d;
                     Reader.rd := s2;
                     Reader.r := Reader.r c0;
                     Reader.w := Reader.w c0 + len d;
                     Reader.err := match e with Some _ => e | None => err c0 end |} /\
     length (calls s2) = (ncalls c + k + 1)%nat) /\
  (forall x : reader,
     fill x <> OutOfFuel /\
     forall x', fill x = Ret x' -> (ncalls x < ncalls x' <= ncalls x + 100)%nat).
Proof.
  split; [|split].
  - intros b s100 b0 Hb Hidle.
    unfold Reader.fill. fold b0.
    destruct (Z.leb_spec (len (buf b0)) (Reader.w b0)); [lia|].
    destruct (fill_loop_idle 100 100 b0 s100 Hidle ltac:(lia)) as [E1 E2].
    unfold Reader.maxConsecutiveEmptyReads. rewrite E1.
    destruct (slide_frame b) as (F1 & _). fold b0 in F1. rewrite F1 in E2.
    split; [reflexivity | exact E2].
  - intros c k s1 s2 d e c0 Hc Hk Hidle' Hread Hprog.
    unfold Reader.fill. fold c0.
    destruct (Z.leb_spec (len (buf c0)) (Reader.w c0)); [lia|].
    destruct (fill_loop_idle k 100 c0 s1 Hidle' ltac:(lia)) as [E1 E2].
    unfold Reader.maxConsecutiveEmptyReads. rewrite E1.
    destruct (slide_frame c) as (F1 & _). fold c0 in F1. rewrite F1 in E2.
    destruct (100 - k)%nat as [|j] eqn:Ej; [lia|].
    cbn [Reader.fill_loop Reader.with_rd Reader.rd Reader.buf Reader.w Reader.r Reader.err].
    rewrite Hread.
    apply stream_Read_calls in Hread.
    split.
    + destruct e as [e|]; [reflexivity|].
      destruct d as [|x d]; [destruct Hprog; congruence|].
      assert (Hl : 0 < len (x :: d)) by (unfold len; cbn [length]; lia).
      destruct (Z.ltb_spec 0 (len (x :: d))); [reflexivity | lia].
    + rewrite Hread. cbn [length]. lia.
  - intros x. split; [apply fill_terminates|].
    intros x' Hx. apply fill_spec in Hx. tauto.
Qed.

(** *** Errors are handed over once *)

Lemma Peek_error_cleared (b b' : reader) (n : Z) (d : list byte) (e : error) :
  0 <= n <= len (buf b) -> Peek b n = Ret (d, Some e, b') -> err b' = None.
Proof.
  intros Hn H. unfold Reader.Peek in H.
  destruct (Z.ltb_spec n 0); [lia|].
  destruct (Z.ltb_spec (len (buf b)) n); [lia|].
  destruct (Peek_loop (Z.to_nat n) n b) as [b1| |]; cbn [bind] in H; try discriminate.
  destruct (Reader.w b1 - Reader.r b1 <? n); [|discriminate].
  cbn in H. inversion H; subst. reflexivity.
Qed.

Lemma Peek_calls_stream (b b' : reader) (n : Z) (d : list byte) (e : option error) :
  err b = None -> 0 <= n -> Buffered b < n <= len (buf b) ->
  Peek b n = Ret (d, e, b') -> (ncalls b < ncalls b')%nat.
Proof.
  intros He Hn0 Hn H. unfold Reader.Peek in H.
  destruct (Z.ltb_spec n 0); [lia|].
  destruct (Z.ltb_spec (len (buf b)) n); [lia|].
  destruct (Peek_loop (Z.to_nat n) n b) as [b1| |] eqn:El; cbn [bind] in H; try discriminate.
  apply Peek_loop_spec in El. destruct El as (_ & _ & _ & L4 & _).
  assert (Hc : (ncalls b < ncalls b1)%nat) by (apply L4; [lia | exact He]).
  destruct (Reader.w b1 - Reader.r b1 <? n); cbn in H; inversion H; subst; exact Hc.
Qed.

Lemma Pop_inv (b b' : reader) (n : Z) (d : list byte) (e : option error) :
  Pop b n = Ret (d, e, b') ->
  exists d0 b1, Peek b n = Ret (d0, e, b1) /\ rd b' = rd b1 /\ err b' = err b1.
Proof.
  unfold Reader.Pop. intros H.
  destruct (Peek b n) as [[[d0 e0] b1]| |]; cbn [bind] in H; try discriminate.
  exists d0, b1. destruct e0; inversion H; subst; auto.
Qed.

Lemma Discard_loop_spec (fuel : nat) :
  forall (n remain : Z) (b b' : reader) (k : Z) (e : option error),
  Discard_loop fuel n remain b = Ret (k, e, b') ->
  (e <> None -> err b' = None) /\
  (ncalls b <= ncalls b')%nat /\
  (err b = None -> 0 <= Buffered b < remain -> (ncalls b < ncalls b')%nat).
Proof.
  induction fuel as [|f IH]; intros n remain b b' k e H; [discriminate|].
  cbn [Reader.Discard_loop] in H.
  destruct (Z.eqb_spec (Buffered b) 0) as [Hz|Hnz].
  - destruct (fill b) as [b1| |] eqn:Ef; cbn [bind] in H; try discriminate.
    apply fill_spec in Ef. destruct Ef as (_ & _ & _ & F4 & _).
    set (skip := if remain <? Buffered b1 then remain else Buffered b1) in H.
    destruct (remain - skip =? 0).
    + inversion H; subst. cbn. repeat split; try lia. congruence.
    + destruct (err b1) eqn:Ee; cbn in H; rewrite Ee in H; cbn in H.
      * inversion H; subst. cbn. repeat split; try lia.
      * apply IH in H. cbn in H. destruct H as (H1 & H2 & _).
        repeat split; try assumption; lia.
  - cbn [bind] in H.
    set (skip := if remain <? Buffered b then remain else Buffered b) in H.
    destruct (Z.eqb_spec (remain - skip) 0) as [Hr|Hr].
    + inversion H; subst. cbn. repeat split; try lia; try congruence.
      intros _ Hb. exfalso. subst skip.
      destruct (Z.ltb_spec remain (Buffered b)); lia.
    + destruct (err b) eqn:Ee; cbn in H; rewrite Ee in H; cbn in H.
      * inversion H; subst. cbn. repeat split; try lia. discriminate.
      * apply IH in H. cbn in H. destruct H as (H1 & H2 & H3).
        repeat split; try assumption.
        intros _ Hb. apply H3; [exact Ee|].
        subst skip. unfold Buffered in *. cbn.
        destruct (Z.ltb_spec remain (Reader.w b - Reader.r b)); lia.
Qed.

Lemma Read_error_cleared (b b' : reader) (p p' : list byte) (k : Z) (e : error) :
  Read b p = Ret (p', k, Some e, b') -> err b' = None.
Proof.
  unfold Reader.Read. intros H.
  destruct (len p =? 0); [cbn in H; inversion H; reflexivity|].
  destruct (Reader.r b =? Reader.w b); [|discriminate].
  destruct (err b) eqn:Ee; cbn [is_nil negb] in H.
  { cbn in H. inversion H; reflexivity. }
  destruct (len (buf b) <=? len p).
  - destruct (stream_Read (rd b) (len p)) as [[dd ee|jj ee] s']; [|discriminate].
    cbn in H. inversion H; reflexivity.
  - destruct (fill b) as [b0| |]; cbn [bind] in H; try discriminate.
    destruct (Reader.r b0 =? Reader.w b0); [|discriminate].
    cbn in H. inversion H; reflexivity.
Qed.

Lemma Read_calls_stream (b b' : reader) (p p' : list byte) (k : Z) (e : option error) :
  err b = None -> 0 < len p -> Reader.r b = Reader.w b ->
  Read b p = Ret (p', k, e, b') -> (ncalls b < ncalls b')%nat.
Proof.
  unfold Reader.Read. intros He Hp Hr H.
  destruct (Z.eqb_spec (len p) 0); [lia|].
  destruct (Z.eqb_spec (Reader.r b) (Reader.w b)); [|lia].
  rewrite He in H. cbn [is_nil negb] in H.
  destruct (len (buf b) <=? len p).
  - destruct (stream_Read (rd b) (len p)) as [[dd ee|jj ee] s'] eqn:E; [|discriminate].
    apply stream_Read_calls in E. cbn in H. inversion H; subst. cbn.
    rewrite E. cbn [length]. lia.
  - destruct (fill b) as [b0| |] eqn:Ef; cbn [bind] in H; try discriminate.
    apply fill_spec in Ef. destruct Ef as (_ & _ & _ & F4 & _).
    destruct (Reader.r b0 =? Reader.w b0); cbn in H; inversion H; subst; cbn; lia.
Qed.

Lemma Discard_inv (b b' : reader) (n k : Z) (e : option error) :
  0 < n -> Discard b n = Ret (k, e, b') ->
  Discard_loop (Z.to_nat n) n n b = Ret (k, e, b').
Proof.
  unfold Reader.Discard. intros Hn H.
  destruct (Z.ltb_spec n 0); [lia|]. destruct (Z.eqb_spec n 0); [lia|]. exact H.
Qed.

(** The fuel [Discard] hands to its loop is never used up. *)
Lemma Discard_loop_returns (fuel : nat) :
  forall (n remain : Z) (b : reader),
  0 <= Buffered b -> 0 < remain <= Z.of_nat fuel ->
  Discard_loop fuel n remain b <> OutOfFuel.
Proof.
  induction fuel as [|f IH]; intros n remain b Hb Hr; [lia|].
  cbn [Reader.Discard_loop].
  assert (Hstep : forall b1 : reader,
    0 <= Buffered b1 -> (Buffered b1 = 0 -> err b1 <> None) ->
    (let skip := Buffered b1 in
     let skip := if remain <? skip then remain else skip in
     let b2 := Reader.with_r b1 (Reader.r b1 + skip) in
     let remain := remain - skip in
     if remain =? 0 then Ret (n, None, b2)
     else if negb (is_nil (err b2)) then
       let (e, b3) := Reader.readErr b2 in Ret (n - remain, e, b3)
     else Discard_loop f n remain b2) <> OutOfFuel).
  { intros b1 Hb1 Hz. cbv zeta.
    set (skip := if remain <? Buffered b1 then remain else Buffered b1).
    destruct (Z.eqb_spec (remain - skip) 0); [discriminate|].
    cbn [Reader.with_r Reader.err].
    destruct (err b1) eqn:Ee; cbn [is_nil negb]; [cbn; discriminate|].
    assert (Hpos : 0 < Buffered b1).
    { destruct (Z.eq_dec (Buffered b1) 0) as [Hz0|Hz0]; [|lia].
      exfalso. apply (Hz Hz0). reflexivity. }
    apply IH; subst skip; unfold Buffered in *; cbn [Reader.with_r Reader.r Reader.w];
      destruct (Z.ltb_spec remain (Reader.w b1 - Reader.r b1)); lia. }
  destruct (Z.eqb_spec (Buffered b) 0) as [Hz|Hnz].
  - pose proof (fill_terminates b) as Hft.
    destruct (fill b) as [b1| |] eqn:Ef; cbn [bind]; try discriminate;
      [|exfalso; apply Hft; reflexivity].
    apply fill_spec in Ef. destruct Ef as (_ & F2 & F3 & _ & _).
    apply Hstep; [lia|]. intros Hz1 Hn. specialize (F3 Hn). lia.
  - cbn [bind]. apply Hstep; [exact Hb | intros; contradiction].
Qed.

Lemma Discard_returns (b : reader) (n : Z) :
  0 <= Buffered b -> Discard b n <> OutOfFuel.
Proof.
  intros Hb. unfold Reader.Discard.
  destruct (Z.ltb_spec n 0); [discriminate|].
  destruct (Z.eqb_spec n 0); [discriminate|].
  apply Discard_loop_returns; [exact Hb | lia].
Qed.

(** [Pop] hands errors over once, and so does whatever is built on an
    operation that does. *)
Lemma Pop_reports_once (b : reader) (k : Z) :
  0 <= k -> reports_once k (fun x => Pop x k) b.
Proof.
  intros Hk. split.
  - intros Hcap d e b' H. apply Pop_inv in H. destruct H as (d0 & b1 & H & _ & He).
    rewrite He. eapply Peek_error_cleared; [|exact H]. lia.
  - intros He Hn d e b' H. apply Pop_inv in H. destruct H as (d0 & b1 & H & Hr & _).
    rewrite Hr. eapply Peek_calls_stream; eauto.
Qed.

Lemma reports_once_via {V W : Type} (k : Z)
    (prim : reader -> outcome (W * option error * reader))
    (read : reader -> outcome (V * option error * reader)) (b : reader) :
  (forall v e b', read b = Ret (v, e, b') -> exists d, prim b = Ret (d, e, b')) ->
  reports_once k prim b -> reports_once k read b.
Proof.
  intros Hinv [H1 H2]. split.
  - intros Hcap v e b' H. destruct (Hinv _ _ _ H) as [d Hd]. exact (H1 Hcap _ _ _ Hd).
  - intros He Hn v e b' H. destruct (Hinv _ _ _ H) as [d Hd]. exact (H2 He Hn _ _ _ Hd).
Qed.

Lemma pop_decode_reports_once {A : Type} (zero : A) (k : Z)
    (get : list byte -> option A) (b : reader) :
  0 <= k -> reports_once k (Reader.pop_decode rd_Read zero k get) b.
Proof.
  intros Hk. apply (reports_once_via k (fun x => Pop x k)); [|now apply Pop_reports_once].
  intros v e b' H. unfold Reader.pop_decode in H.
  destruct (Pop b k) as [[[d e1] b1]| |]; cbn [bind] in H; try discriminate.
  destruct e1 as [e1|].
  - inversion H; subst. eauto.
  - destruct (get d); cbn in H; [|discriminate]. inversion H; subst. eauto.
Qed.

Lemma as_signed_reports_once (width k : Z)
    (read : reader -> outcome (Z * option error * reader)) (b : reader) :
  reports_once k read b -> reports_once k (@Reader.as_signed S width read) b.
Proof.
  apply reports_once_via. intros v e b' H. unfold Reader.as_signed in H.
  destruct (read b) as [[[i e1] b1]| |]; cbn [bind] in H; try discriminate.
  destruct e1; inversion H; subst; eauto.
Qed.


(** *** [Read] and empty results *)

Lemma len_slice_pos (l : list byte) (lo hi : Z) :
  0 <= lo < hi -> lo < len l -> 0 < len (slice l lo hi).
Proof.
  unfold len, slice. intros H1 H2.
  rewrite length_firstn, length_skipn. lia.
Qed.

(** C3, as the code has it.  With a destination of non-zero length,
    [Read] returns a positive count or an error in every case but one: the
    buffer is empty, no error is pending, the destination is at least as
    large as the buffer, and the single direct read of the stream itself
    answers zero bytes and no error; that answer is passed on unchanged. *)
Theorem Read_zero_count_only_from_stream
    (b b' : reader) (p p' : list byte) (k : Z) (e : option error) :
  0 < len p ->
  0 <= Reader.r b <= Reader.w b -> Reader.w b <= len (buf b) ->
  len p < len (buf b) \/ Reader.r b <> Reader.w b \/ err b <> None \/
    fst (stream_Read (rd b) (len p)) <> Reply [] None ->
  Read b p = Ret (p', k, e, b') ->
  0 < k \/ e <> None.
Proof.
  intros Hp Hrw Hcap Hside H. unfold Reader.Read in H.
  destruct (Z.eqb_spec (len p) 0); [lia|].
  assert (Hcopy : forall b0 : reader,
    0 <= Reader.r b0 < Reader.w b0 -> Reader.r b0 < len (buf b0) ->
    0 < copy_count p 0 (slice (buf b0) (Reader.r b0) (Reader.w b0))).
  { intros b0 H1 H2. unfold copy_count.
    pose proof (len_slice_pos (buf b0) _ _ H1 H2). lia. }
  destruct (Z.eqb_spec (Reader.r b) (Reader.w b)) as [Hrw'|Hrw'].
  - destruct (err b) eqn:Ee; cbn [is_nil negb] in H.
    { cbn in H. inversion H; subst. right. congruence. }
    destruct (Z.leb_spec (len (buf b)) (len p)) as [Hbig|Hsmall].
    + destruct (stream_Read (rd b) (len p)) as [[dd ee|jj ee] s'] eqn:E; [|discriminate].
      cbn in H. inversion H; subst.
      destruct Hside as [Hs|[Hs|[Hs|Hs]]]; try lia; try congruence.
      cbn [fst] in Hs. destruct dd as [|x dd].
      * right. intros ->. apply Hs. reflexivity.
      * left. unfold len. cbn [length]. lia.
    + destruct (fill b) as [b0| |] eqn:Ef; cbn [bind] in H; try discriminate.
      apply fill_spec in Ef. destruct Ef as (F1 & F2 & F3 & _ & F5).
      specialize (F5 ltac:(lia)). unfold Buffered in *.
      destruct (Z.eqb_spec (Reader.r b0) (Reader.w b0)) as [Hz|Hz].
      * cbn in H. inversion H; subst. right. intros Hn. specialize (F3 Hn). lia.
      * inversion H; subst. left. apply Hcopy; lia.
  - inversion H; subst. left. apply Hcopy; lia.
Qed.

(** *** Buffered operations on a Reader that holds an error *)

Lemma Peek_with_error (b : reader) (e0 : error) (k : Z) :
  err b = Some e0 -> 0 <= k <= len (buf b) -> Buffered b < k ->
  Peek b k = Ret (slice (buf b) (Reader.r b) (Reader.r b + Buffered b), Some e0,
                  Reader.with_err b None).
Proof.
  intros He Hk Hb. unfold Reader.Peek, Buffered in *.
  destruct (Z.ltb_spec k 0); [lia|].
  destruct (Z.ltb_spec (len (buf b)) k); [lia|].
  rewrite Peek_loop_eq, He. cbn [is_nil]. rewrite andb_false_r. cbn [bind].
  destruct (Z.ltb_spec (Reader.w b - Reader.r b) k); [|lia].
  unfold Reader.readErr. rewrite He. reflexivity.
Qed.

Lemma Pop_with_error (b : reader) (e0 : error) (k : Z) :
  err b = Some e0 -> 0 <= k <= len (buf b) -> Buffered b < k ->
  Pop b k = Ret ([], Some e0, Reader.with_err b None).
Proof.
  intros He Hk Hb. unfold Reader.Pop.
  rewrite (Peek_with_error b e0 k He Hk Hb). reflexivity.
Qed.

Lemma Read_with_error (b : reader) (e0 : error) (p : list byte) :
  err b = Some e0 -> len p = 0 \/ Reader.r b = Reader.w b ->
  Read b p = Ret (p, 0, Some e0, Reader.with_err b None).
Proof.
  intros He Hp. unfold Reader.Read, Reader.readErr. rewrite He. cbn [is_nil negb].
  destruct (Z.eqb_spec (len p) 0); [reflexivity|].
  destruct (Z.eqb_spec (Reader.r b) (Reader.w b)); [reflexivity|].
  destruct Hp; contradiction.
Qed.

Lemma Discard_with_error (b : reader) (e0 : error) (k : Z) :
  err b = Some e0 -> 0 < Buffered b < k ->
  Discard b k = Ret (Buffered b, Some e0,
                     Reader.with_err (Reader.with_r b (Reader.r b + Buffered b)) None).
Proof.
  intros He Hk. unfold Reader.Discard.
  destruct (Z.ltb_spec k 0); [lia|]. destruct (Z.eqb_spec k 0); [lia|].
  destruct (Z.to_nat k) as [|f] eqn:Ek; [lia|].
  cbn [Reader.Discard_loop].
  destruct (Z.eqb_spec (Buffered b) 0); [lia|]. cbn [bind].
  destruct (Z.ltb_spec k (Buffered b)); [lia|].
  destruct (Z.eqb_spec (k - Buffered b) 0); [lia|].
  cbn [Reader.with_r Reader.err]. rewrite He. cbn [is_nil negb].
  unfold Reader.readErr. cbn [Reader.err Reader.with_r]. rewrite He.
  repeat f_equal. lia.
Qed.

(** *** The full read of [ReadBytes] *)

Lemma ReadAtLeast_loop_eq (fuel : nat) (s : Reader.stream) (dst : list byte)
    (min n : Z) (e : option error) :
  ReadAtLeast_loop fuel s dst min n e =
  if (n <? min) && is_nil e then
    match fuel with
    | O => OutOfFuel
    | Datatypes.S f =>
        if n <? 0 then Panics PanicBounds
        else
          let (rep, s') := stream_Read s (len dst - n) in
          match rep with
          | Reply d e' => ReadAtLeast_loop f s' (copy_into dst n d) min (n + len d) e'
          | NegReply k e' => ReadAtLeast_loop f s' dst min (n - Z.pos k) e'
          end
    end
  else Ret (dst, n, e, s).
Proof. destruct fuel; reflexivity. Qed.

Lemma firstn_copy_into (dst d : list byte) (n : Z) :
  0 <= n -> n + len d <= len dst ->
  firstn (Z.to_nat (n + len d)) (copy_into dst n d) = firstn (Z.to_nat n) dst ++ d.
Proof.
  unfold len, copy_into. intros Hn Hfit.
  replace (Nat.min (length d) (length dst - Z.to_nat n)) with (length d) by lia.
  rewrite firstn_all. rewrite app_assoc.
  replace (Z.to_nat (n + Z.of_nat (length d)))
    with (length (firstn (Z.to_nat n) dst ++ d) + 0)%nat
    by (rewrite length_app, length_firstn; lia).
  rewrite firstn_app_2. cbn [firstn]. apply app_nil_r.
Qed.

(** The bytes the stream delivered over a stretch of its log, oldest
    first. *)
Abbreviation delivered_by new := (concat (map delivered (rev new))).

Lemma ReadAtLeast_loop_spec (fuel : nat) :
  forall (s s' : Reader.stream) (dst dst' : list byte) (min n n' : Z)
         (e e' : option error),
  ReadAtLeast_loop fuel s dst min n e = Ret (dst', n', e', s') ->
  len dst' = len dst /\
  (min <= n' \/ e' <> None) /\
  exists new,
    calls s' = new ++ calls s /\
    (n < min -> e = None -> new <> []) /\
    (forallb reply_fits new = true -> 0 <= n <= len dst ->
       n' = n + len (delivered_by new) /\ n' <= len dst /\
       firstn (Z.to_nat n') dst' = firstn (Z.to_nat n) dst ++ delivered_by new).
Proof.
  induction fuel as [|f IH]; intros s s' dst dst' min n n' e e' H;
    rewrite ReadAtLeast_loop_eq in H.
  - destruct (Z.ltb_spec n min); destruct e; cbn [is_nil andb] in H; try discriminate;
      inversion H; subst; (split; [reflexivity|]);
      (split; [first [left; lia | right; discriminate]|]);
      exists []; cbn; (split; [reflexivity|]);
      (split; [first [lia | discriminate]|]); intros _ Hn; rewrite app_nil_r;
      change (len (@nil byte)) with 0; repeat split; lia.
  - destruct ((n <? min) && is_nil e) eqn:Hcond.
    + apply andb_true_iff in Hcond. destruct Hcond as [Hlt He].
      apply Z.ltb_lt in Hlt. destruct e; [discriminate|].
      destruct (Z.ltb_spec n 0); [discriminate|].
      destruct (stream_Read s (len dst - n)) as [rep s1] eqn:E.
      apply stream_Read_calls in E.
      destruct rep as [d e1|k e1]; apply IH in H;
        destruct H as (L & X & new & C & _ & F); rewrite E in C.
      * rewrite len_copy_into in L. split; [exact L|]. split; [exact X|].
        exists (new ++ [(len dst - n, Reply d e1)]).
        split; [now rewrite <- app_assoc|].
        split; [intros _ _; destruct new; discriminate|].
        intros Hfit Hn. rewrite forallb_app in Hfit.
        apply andb_true_iff in Hfit. destruct Hfit as [Hfit1 Hfit2].
        cbn in Hfit2. rewrite andb_true_r in Hfit2. apply Z.leb_le in Hfit2.
        pose proof (len_nonneg d) as Hd.
        rewrite len_copy_into in F.
        destruct (F Hfit1 ltac:(lia)) as (F1 & F2 & F3).
        rewrite rev_app_distr. cbn [rev app map concat delivered snd].
        assert (Hlen : len (d ++ delivered_by new) = len d + len (delivered_by new)).
        { unfold len. rewrite length_app. lia. }
        rewrite Hlen. split; [lia|]. split; [lia|].
        rewrite F3, firstn_copy_into by lia. now rewrite <- app_assoc.
      * split; [exact L|]. split; [exact X|].
        exists (new ++ [(len dst - n, NegReply k e1)]).
        split; [now rewrite <- app_assoc|].
        split; [intros _ _; destruct new; discriminate|].
        intros Hfit. rewrite forallb_app in Hfit.
        apply andb_true_iff in Hfit. destruct Hfit as [_ Hfit2]. discriminate.
    + inversion H; subst. split; [reflexivity|].
      split.
      { apply andb_false_iff in Hcond. destruct Hcond as [Hc|Hc].
        - left. apply Z.ltb_ge in Hc. lia.
        - right. destruct e'; [discriminate | discriminate]. }
      exists []. cbn. split; [reflexivity|].
      split.
      { intros Hlt He. subst. apply Z.ltb_lt in Hlt. rewrite Hlt in Hcond. discriminate. }
      intros _ Hn. rewrite app_nil_r. change (len (@nil byte)) with 0.
      repeat split; lia.
Qed.

Lemma ReadAtLeast_loop_returns (fuel : nat) :
  forall (s : Reader.stream) (dst : list byte) (min n : Z) (e : option error),
  Reader.makes_progress rd_Read ->
  0 <= n -> min <= len dst -> min - n <= Z.of_nat fuel ->
  exists res, ReadAtLeast_loop fuel s dst min n e = Ret res.
Proof.
  induction fuel as [|f IH]; intros s dst min n e Hprog Hn Hmin Hfuel;
    rewrite ReadAtLeast_loop_eq.
  - destruct (Z.ltb_spec n min); [lia|]. cbn [andb]. eauto.
  - destruct (Z.ltb_spec n min); cbn [andb]; [|eauto].
    destruct e; cbn [is_nil]; [eauto|].
    destruct (Z.ltb_spec n 0); [lia|].
    unfold Reader.stream_Read.
    specialize (Hprog (Reader.st s) (len dst - n) ltac:(lia)) as Hp.
    destruct (rd_Read (Reader.st s) (len dst - n)) as [rep st'].
    cbn [fst] in Hp. destruct rep as [d e1|k e1]; [|contradiction].
    pose proof (len_nonneg d) as Hd.
    destruct e1 as [e1|].
    + rewrite ReadAtLeast_loop_eq. cbn [is_nil]. rewrite andb_false_r. eauto.
    + destruct Hp as [Hp|Hp]; [|congruence].
      assert (0 < len d) by (destruct d; [congruence | unfold len; cbn [length]; lia]).
      apply IH; try assumption; try lia. rewrite len_copy_into. exact Hmin.
Qed.

Lemma ReadBytes_inv (fuel : nat) (b b1 : reader) (n : Z) (d : list byte)
    (e : option error) :
  ReadBytes fuel b n = Ret (d, e, b1) ->
  0 <= n /\
  exists n' e' s',
    ReadAtLeast_loop fuel (rd b) (make n) (len (make n)) 0 None = Ret (d, n', e', s') /\
    e = full_read_error n' (len (make n)) e' /\
    b1 = Reader.with_err (Reader.with_rd b s') e.
Proof.
  unfold Reader.ReadBytes, Reader.ReadFull. intros H.
  destruct (Z.ltb_spec n 0); [discriminate|]. split; [assumption|].
  destruct (ReadAtLeast_loop fuel (rd b) (make n) (len (make n)) 0 None)
    as [[[[d0 n0] e0] s0]| |]; cbn [bind] in H; try discriminate.
  inversion H; subst. exists n0, e0, s0. repeat split; reflexivity.
Qed.

(** [ReadBytes] looks at nothing of the Reader but its stream. *)
Lemma ReadBytes_frame (fuel : nat) (b c : reader) (n : Z) :
  rd c = rd b ->
  ReadBytes fuel c n =
  '(d, e, b1) <- ReadBytes fuel b n ;;
  Ret (d, e, Reader.with_err (Reader.with_rd c (rd b1)) e).
Proof.
  intros Hrd. unfold Reader.ReadBytes, Reader.ReadFull. rewrite Hrd.
  destruct (n <? 0); [reflexivity|].
  destruct (ReadAtLeast_loop fuel (rd b) (make n) (len (make n)) 0 None)
    as [[[[d0 n0] e0] s0]| |]; reflexivity.
Qed.

Lemma full_read_error_nil (n' m : Z) (e' : option error) :
  full_read_error n' m e' = None -> m <= n' \/ e' = None.
Proof.
  unfold full_read_error. destruct (Z.leb_spec m n'); [auto|].
  destruct ((0 <? n') && match e' with Some EOF => true | _ => false end);
    [discriminate | auto].
Qed.

(** The calls of the full-read loop: none once an error is there, and
    otherwise each for the bytes still missing. *)
Lemma ReadAtLeast_loop_log (fuel : nat) :
  forall (s s' : Reader.stream) (dst dst' : list byte) (n n' : Z)
         (e e' : option error),
  ReadAtLeast_loop fuel s dst (len dst) n e = Ret (dst', n', e', s') ->
  exists new,
    calls s' = new ++ calls s /\
    (e <> None -> new = []) /\
    (forallb reply_fits new = true -> asks_for_rest (len dst) n (rev new)).
Proof.
  induction fuel as [|f IH]; intros s s' dst dst' n n' e e' H;
    rewrite ReadAtLeast_loop_eq in H.
  - destruct ((n <? len dst) && is_nil e); [discriminate|].
    inversion H; subst. exists []. cbn. repeat split; auto.
  - destruct ((n <? len dst) && is_nil e) eqn:Hcond.
    + apply andb_true_iff in Hcond. destruct Hcond as [Hlt He].
      apply Z.ltb_lt in Hlt. destruct e; [discriminate|].
      destruct (Z.ltb_spec n 0); [discriminate|].
      destruct (stream_Read s (len dst - n)) as [rep s1] eqn:E.
      apply stream_Read_calls in E.
      destruct rep as [d e1|k e1].
      * rewrite <- (len_copy_into dst n d) in H. apply IH in H.
        destruct H as (new & C & Hnil & Hlog). rewrite E in C.
        rewrite len_copy_into in Hlog.
        exists (new ++ [(len dst - n, Reply d e1)]).
        split; [now rewrite <- app_assoc|].
        split; [intros Habs; exfalso; apply Habs; reflexivity|].
        intros Hfit. rewrite forallb_app in Hfit.
        apply andb_true_iff in Hfit. destruct Hfit as [Hfit1 _].
        rewrite rev_app_distr. cbn [rev app asks_for_rest fst snd delivered].
        split; [reflexivity|]. split; [exact Hlt|]. split; [|exact (Hlog Hfit1)].
        intros Hne. destruct e1 as [e1|]; [|eauto].
        exfalso. apply Hne. rewrite Hnil by discriminate. reflexivity.
      * apply IH in H. destruct H as (new & C & _ & _). rewrite E in C.
        exists (new ++ [(len dst - n, NegReply k e1)]).
        split; [now rewrite <- app_assoc|].
        split; [intros Habs; exfalso; apply Habs; reflexivity|].
        intros Hfit. rewrite forallb_app in Hfit.
        apply andb_true_iff in Hfit. destruct Hfit as [_ Hfit2]. discriminate.
    + inversion H; subst. exists []. cbn. repeat split; auto.
Qed.


(** C10, as the code has it.  [ReadBytes] always overwrites the stored
    error with the result of its full read, so a successful [ReadBytes]
    clears an error that was pending.  After a failed [ReadBytes] the next
    buffered operation that cannot be served from the buffer alone hands
    that same error over, without calling the stream, and clears it: a
    [Peek] or [Pop] of more than is buffered, a [Read] on an empty buffer or
    into an empty destination, and a [Discard] of more than a non-empty
    buffer holds. *)
Theorem ReadBytes_overwrites_stored_error
    (fuel : nat) (b b1 : reader) (n : Z) (d : list byte) (e : option error) :
  ReadBytes fuel b n = Ret (d, e, b1) ->
  err b1 = e /\
  (forall e0, e = Some e0 ->
     (forall k, 0 <= k <= len (buf b1) -> Buffered b1 < k ->
        Peek b1 k = Ret (slice (buf b1) (Reader.r b1) (Reader.r b1 + Buffered b1),
                         Some e0, Reader.with_err b1 None) /\
        Pop b1 k = Ret ([], Some e0, Reader.with_err b1 None)) /\
     (forall p, len p = 0 \/ Reader.r b1 = Reader.w b1 ->
        Read b1 p = Ret (p, 0, Some e0, Reader.with_err b1 None)) /\
     (forall k, 0 < Buffered b1 < k ->
        Discard b1 k =
        Ret (Buffered b1, Some e0,
             Reader.with_err (Reader.with_r b1 (Reader.r b1 + Buffered b1)) None))).
Proof.
  intros H. apply ReadBytes_inv in H. destruct H as (_ & n' & e' & s' & _ & _ & Hb1).
  assert (He : err b1 = e) by (subst b1; reflexivity).
  split; [exact He|].
  intros e0 He0. rewrite He0 in He.
  split; [|split].
  - intros k Hk Hb. split; [apply Peek_with_error | apply Pop_with_error]; assumption.
  - intros p Hp. apply Read_with_error; assumption.
  - intros k Hk. apply Discard_with_error; assumption.
Qed.

End ReaderFacts.

(** ** The Writer *)

Lemma slice_copy_into_front (dst src : list byte) :
  len src <= len dst -> slice (copy_into dst 0 src) 0 (len src) = src.
Proof.
  unfold len, slice, copy_into. intros H.
  change (Z.to_nat 0) with O. cbn [firstn skipn app].
  rewrite Z.sub_0_r, Nat2Z.id, Nat.sub_0_r, Nat.add_0_l.
  replace (Nat.min (length src) (length dst)) with (length src) by lia.
  rewrite firstn_all.
  replace (length src) with (length src + 0)%nat at 1 by lia.
  rewrite firstn_app_2. cbn [firstn]. apply app_nil_r.
Qed.

Lemma slice_empty (b : list byte) (lo : Z) : slice b lo lo = [].
Proof. unfold slice. rewrite Z.sub_diag. reflexivity. Qed.

Section WriterFacts.

Context {T : Type}.
Variable wr_Write : T -> list byte -> write_reply * T.

Abbreviation writer := (@Writer.t T).
Abbreviation stream_Write := (Writer.stream_Write wr_Write).
Abbreviation flush := (Writer.flush wr_Write).
Abbreviation Flush := (Writer.Flush wr_Write).
Abbreviation Write := (Writer.Write wr_Write).
Abbreviation Write_loop := (Writer.Write_loop wr_Write).
Abbreviation WPeek := (Writer.Peek wr_Write).
Abbreviation WPeek_loop := (Writer.Peek_loop wr_Write).
Abbreviation run_call := (Writer.run_call wr_Write).
Abbreviation run_calls := (Writer.run_calls wr_Write).

Lemma flush_failed (b : writer) (e : error) :
  Writer.err b = Some e -> flush b = (Some e, b).
Proof. intros He. unfold Writer.flush. rewrite He. reflexivity. Qed.

Lemma Write_loop_eq (fuel : nat) (b : writer) (p : list byte) (nn : Z) :
  Write_loop fuel b p nn =
  if (Writer.Available b <? len p) && is_nil (Writer.err b) then
    match fuel with
    | O => OutOfFuel
    | Datatypes.S f =>
        if Writer.Buffered b =? 0 then
          let (rep, s') := stream_Write (Writer.wr b) p in
          let 'WReply k e := rep in
          let b1 := {| Writer.err := e; Writer.buf := Writer.buf b;
                       Writer.n := Writer.n b; Writer.wr := s' |} in
          if (k <? 0) || (len p <? k) then Panics PanicBounds
          else Write_loop f b1 (skipn (Z.to_nat k) p) (nn + k)
        else
          let k := copy_count (Writer.buf b) (Writer.n b) p in
          let b1 := {| Writer.err := Writer.err b;
                       Writer.buf := copy_into (Writer.buf b) (Writer.n b) p;
                       Writer.n := Writer.n b + k; Writer.wr := Writer.wr b |} in
          let (_, b2) := flush b1 in
          Write_loop f b2 (skipn (Z.to_nat k) p) (nn + k)
    end
  else Ret (b, p, nn).
Proof. destruct fuel; reflexivity. Qed.

Lemma Write_failed (fuel : nat) (b : writer) (e : error) (p : list byte) :
  Writer.err b = Some e -> Write fuel b p = Ret (0, Some e, b).
Proof.
  intros He. unfold Writer.Write. rewrite Write_loop_eq, He.
  cbn [is_nil]. rewrite andb_false_r. cbn [bind]. rewrite He. reflexivity.
Qed.

Lemma WPeek_loop_eq (fuel : nat) (k : Z) (b : writer) :
  WPeek_loop fuel k b =
  if (Writer.Available b <? k) && is_nil (Writer.err b) then
    match fuel with
    | O => OutOfFuel
    | Datatypes.S f => WPeek_loop f k (snd (flush b))
    end
  else Ret b.
Proof. destruct fuel; reflexivity. Qed.

Lemma WPeek_failed (b : writer) (e : error) (k : Z) :
  Writer.err b = Some e -> 0 <= k <= len (Writer.buf b) ->
  WPeek b k = Ret (Writer.nil_window, Some e, b).
Proof.
  intros He Hk. unfold Writer.Peek.
  destruct (Z.ltb_spec k 0); [lia|].
  destruct (Z.ltb_spec (len (Writer.buf b)) k); [lia|].
  rewrite WPeek_loop_eq, He. cbn [is_nil]. rewrite andb_false_r. cbn [bind].
  rewrite He. reflexivity.
Qed.

Lemma WPeek_guard (b : writer) (k : Z) :
  (k < 0 -> WPeek b k = Ret (Writer.nil_window, Some ErrNegativeCount, b)) /\
  (len (Writer.buf b) < k -> WPeek b k = Ret (Writer.nil_window, Some ErrBufferFull, b)).
Proof.
  unfold Writer.Peek. pose proof (len_nonneg (Writer.buf b)). split; intros Hk.
  - destruct (Z.ltb_spec k 0); [reflexivity | lia].
  - destruct (Z.ltb_spec k 0); [lia|].
    destruct (Z.ltb_spec (len (Writer.buf b)) k); [reflexivity | lia].
Qed.

(** One flush is all the loop of [Peek] ever needs. *)
Lemma WPeek_returns (b : writer) (k : Z) : WPeek b k <> OutOfFuel.
Proof.
  unfold Writer.Peek.
  destruct (Z.ltb_spec k 0); [discriminate|].
  destruct (Z.ltb_spec (len (Writer.buf b)) k); [discriminate|].
  assert (Hl : exists b1, WPeek_loop 1 k b = Ret b1).
  { rewrite WPeek_loop_eq.
    destruct (Z.ltb_spec (Writer.Available b) k); cbn [andb]; [|eauto].
    destruct (Writer.err b) eqn:He; cbn [is_nil]; [eauto|].
    rewrite WPeek_loop_eq. unfold Writer.flush. rewrite He. cbn [is_nil negb].
    unfold Writer.Available in *.
    destruct (Z.eqb_spec (Writer.n b) 0); [lia|].
    destruct (stream_Write (Writer.wr b) (slice (Writer.buf b) 0 (Writer.n b)))
      as [[j e0] s'].
    destruct (if (j <? Writer.n b) && is_nil e0 then Some ErrShortWrite else e0) eqn:Ee;
      cbn [snd Writer.err Writer.buf Writer.n is_nil].
    - rewrite andb_false_r. eauto.
    - rewrite andb_true_r.
      destruct (Z.ltb_spec (len (Writer.buf b) - 0) k); [lia | eauto]. }
  destruct Hl as [b1 Hl]. rewrite Hl. cbn [bind].
  destruct (Writer.err b1); discriminate.
Qed.

(** Once the error is set, no call in range does anything but return it. *)
Lemma run_calls_failed (b : writer) (e : error) (cs : list Writer.call) :
  Writer.err b = Some e ->
  forallb (Writer.call_in_range b) cs = true ->
  run_calls b cs = Ret (map (fun _ => Some e) cs, b).
Proof.
  intros He. induction cs as [|c cs IH]; intros Hr; [reflexivity|].
  cbn [forallb] in Hr. apply andb_true_iff in Hr. destruct Hr as [Hc Hcs].
  cbn [Writer.run_calls map].
  assert (Hone : run_call b c = Ret (Some e, b)).
  { destruct c as [fuel p | | k]; cbn [Writer.run_call].
    - rewrite (Write_failed fuel b e p He). reflexivity.
    - unfold Writer.Flush. rewrite (flush_failed b e He). reflexivity.
    - cbn [Writer.call_in_range] in Hc. apply andb_true_iff in Hc.
      destruct Hc as [H1 H2]. apply Z.leb_le in H1, H2.
      rewrite (WPeek_failed b e k He) by lia. reflexivity. }
  rewrite Hone. cbn [bind]. rewrite (IH Hcs). reflexivity.
Qed.

(** C2, as the code has it.  When the stream, handed the [n] pending bytes,
    reports an error or accepts fewer than [n] of them (an error being made
    up in that case: [ErrShortWrite]), [flush] returns the error, keeps the
    bytes that were not written at the start of the buffer, and stores the
    error.  From then on every [Write], every [Flush] and every [Peek(k)]
    with [0 <= k <= capacity] returns that same error and leaves the Writer
    and the stream untouched; a [Peek] outside that range returns
    [ErrNegativeCount] or [ErrBufferFull] instead, also without touching
    anything.  [Reset] and [ResetBuffer] clear the error. *)
Theorem flush_error_is_permanent
    (b : writer) (k : Z) (e0 : option error) (s' : Writer.stream) :
  Writer.err b = None ->
  0 < Writer.n b <= len (Writer.buf b) ->
  stream_Write (Writer.wr b) (slice (Writer.buf b) 0 (Writer.n b)) = (WReply k e0, s') ->
  0 <= k <= Writer.n b ->
  e0 <> None \/ k < Writer.n b ->
  let e := match e0 with Some x => x | None => ErrShortWrite end in
  exists b1,
    flush b = (Some e, b1) /\
    Writer.err b1 = Some e /\ Writer.wr b1 = s' /\
    Writer.n b1 = Writer.n b - k /\
    len (Writer.buf b1) = len (Writer.buf b) /\
    slice (Writer.buf b1) 0 (Writer.n b1) = slice (Writer.buf b) k (Writer.n b) /\
    (forall cs, forallb (Writer.call_in_range b1) cs = true ->
       run_calls b1 cs = Ret (map (fun _ => Some e) cs, b1)) /\
    (forall j, j < 0 ->
       WPeek b1 j = Ret (Writer.nil_window, Some ErrNegativeCount, b1)) /\
    (forall j, len (Writer.buf b1) < j ->
       WPeek b1 j = Ret (Writer.nil_window, Some ErrBufferFull, b1)) /\
    (forall s, Writer.err (Writer.Reset b1 s) = None) /\
    (forall s buf0, Writer.err (Writer.ResetBuffer b1 s buf0) = None).
Proof.
  intros He Hn Hw Hk Hfail e.
  assert (Hsyn : (if (k <? Writer.n b) && is_nil e0 then Some ErrShortWrite else e0)
                 = Some e).
  { subst e. destruct e0 as [x|]; cbn [is_nil].
    - now rewrite andb_false_r.
    - destruct Hfail as [Hf|Hf]; [congruence|].
      destruct (Z.ltb_spec k (Writer.n b)); [reflexivity | lia]. }
  set (buf' := if (0 <? k) && (k <? Writer.n b)
               then copy_into (Writer.buf b) 0 (slice (Writer.buf b) k (Writer.n b))
               else Writer.buf b).
  set (b1 := {| Writer.err := Some e; Writer.buf := buf';
                Writer.n := Writer.n b - k; Writer.wr := s' |}).
  assert (Hflush : flush b = (Some e, b1)).
  { unfold Writer.flush. rewrite He. cbn [is_nil negb].
    destruct (Z.eqb_spec (Writer.n b) 0); [lia|].
    rewrite Hw, Hsyn. reflexivity. }
  assert (Hlen : len buf' = len (Writer.buf b)).
  { subst buf'. destruct ((0 <? k) && (k <? Writer.n b)); [apply len_copy_into | reflexivity]. }
  assert (Hcompact : slice buf' 0 (Writer.n b - k) = slice (Writer.buf b) k (Writer.n b)).
  { subst buf'.
    destruct (Z.ltb_spec 0 k); destruct (Z.ltb_spec k (Writer.n b)); cbn [andb].
    - assert (Hs : len (slice (Writer.buf b) k (Writer.n b)) = Writer.n b - k)
        by (apply len_slice; lia).
      rewrite <- Hs at 1. apply slice_copy_into_front. lia.
    - assert (k = Writer.n b) by lia. subst k. rewrite Z.sub_diag.
      now rewrite !slice_empty.
    - assert (k = 0) by lia. subst k. now rewrite Z.sub_0_r.
    - lia. }
  exists b1. split; [exact Hflush|].
  split; [reflexivity|]. split; [reflexivity|]. split; [reflexivity|].
  split; [exact Hlen|]. split; [exact Hcompact|].
  split; [intros cs Hcs; apply run_calls_failed; [reflexivity | exact Hcs]|].
  split; [intros j Hj; apply (proj1 (WPeek_guard b1 j) Hj)|].
  split; [intros j Hj; apply (proj2 (WPeek_guard b1 j) Hj)|].
  split; reflexivity.
Qed.

End WriterFacts.

(** ** Both directions *)

Section HelperFacts.

Context {S T : Type}.
Variable rd_Read : S -> Z -> read_reply * S.
Variable wr_Write : T -> list byte -> write_reply * T.

Lemma pop_decode_fails {A : Type} (zero : A) (k : Z) (get : list byte -> option A) :
  fails_with zero (fun b => Reader.Pop rd_Read b k) (Reader.pop_decode rd_Read zero k get).
Proof.
  intros b b' e. unfold Reader.pop_decode. split.
  - intros d H. rewrite H. reflexivity.
  - intros v H.
    destruct (Reader.Pop rd_Read b k) as [[[d e1] b1]| |]; cbn [bind] in H;
      try discriminate.
    destruct e1 as [e1|].
    + inversion H; subst. split; [reflexivity | eauto].
    + destruct (get d); cbn in H; discriminate.
Qed.

Lemma as_signed_fails (width k : Z) (read : Reader.t -> outcome (Z * option error * Reader.t)) :
  fails_with 0 (fun b => Reader.Pop rd_Read b k) read ->
  fails_with (-1) (fun b => Reader.Pop rd_Read b k) (@Reader.as_signed S width read).
Proof.
  intros Hread b b' e. destruct (Hread b b' e) as [H1 H2].
  unfold Reader.as_signed. split.
  - intros d H. rewrite (H1 d H). reflexivity.
  - intros v H.
    destruct (read b) as [[[i e1] b1]| |] eqn:Er; cbn [bind] in H; try discriminate.
    destruct e1 as [e1|]; [|discriminate].
    inversion H; subst. split; [reflexivity|]. apply (H2 i). reflexivity.
Qed.

Lemma peek_encode_fails {A : Type} (k : Z) (put : list byte -> A -> option (list byte))
    (v : A) :
  fails_with (-1) (fun w => Writer.Peek wr_Write w k)
             (fun w => Writer.peek_encode wr_Write k put w v).
Proof.
  intros b b' e. unfold Writer.peek_encode. split.
  - intros d H. rewrite H. reflexivity.
  - intros r H.
    destruct (Writer.Peek wr_Write b k) as [[[d e1] b1]| |]; cbn [bind] in H;
      try discriminate.
    destruct e1 as [e1|].
    + inversion H; subst. split; [reflexivity | eauto].
    + destruct (put (Writer.view b1 d) v); cbn in H; discriminate.
Qed.

(** C9. When the [Pop] under a fixed-width read helper fails, every unsigned
    and every float helper returns the zero value with that error and every
    signed helper returns [-1] with it; when the [Peek] under a fixed-width
    write helper fails, the helper returns [-1] with that error.  No helper
    reports an error in any other case. *)
Theorem fixed_width_failure_values :
  Forall (fun kf => fails_with 0 (fun b => Reader.Pop rd_Read b (fst kf)) (snd kf))
         (Reader.unsigned_readers rd_Read) /\
  Forall (fun kf => fails_with (F32 0) (fun b => Reader.Pop rd_Read b (fst kf)) (snd kf))
         (Reader.float32_readers rd_Read) /\
  Forall (fun kf => fails_with (F64 0) (fun b => Reader.Pop rd_Read b (fst kf)) (snd kf))
         (Reader.float64_readers rd_Read) /\
  Forall (fun kf => fails_with (-1) (fun b => Reader.Pop rd_Read b (fst kf)) (snd kf))
         (Reader.signed_readers rd_Read) /\
  Forall (fun kf => forall v,
            fails_with (-1) (fun w => Writer.Peek wr_Write w (fst kf))
                       (fun w => snd kf w v))
         (Writer.integer_writers wr_Write) /\
  Forall (fun kf => forall v,
            fails_with (-1) (fun w => Writer.Peek wr_Write w (fst kf))
                       (fun w => snd kf w v))
         (Writer.float32_writers wr_Write) /\
  Forall (fun kf => forall v,
            fails_with (-1) (fun w => Writer.Peek wr_Write w (fst kf))
                       (fun w => snd kf w v))
         (Writer.float64_writers wr_Write).
Proof.
  unfold Reader.unsigned_readers, Reader.float32_readers, Reader.float64_readers,
    Reader.signed_readers, Writer.integer_writers, Writer.float32_writers,
    Writer.float64_writers.
  split; [|split; [|split; [|split; [|split; [|split]]]]].
  - repeat (apply Forall_cons; [apply pop_decode_fails|]). apply Forall_nil.
  - repeat (apply Forall_cons; [apply pop_decode_fails|]). apply Forall_nil.
  - repeat (apply Forall_cons; [apply pop_decode_fails|]). apply Forall_nil.
  - repeat (apply Forall_cons; [apply as_signed_fails; apply pop_decode_fails|]).
    apply Forall_nil.
  - repeat (apply Forall_cons; [intros v; cbn [fst snd]; apply peek_encode_fails|]).
    repeat (apply Forall_cons;
            [intros v; cbn [fst snd];
             first [ apply (peek_encode_fails 1 Writer.put8 (to_unsigned 8 v))
                   | apply (peek_encode_fails 2 PutUint16BE (to_unsigned 16 v))
                   | apply (peek_encode_fails 2 PutUint16LE (to_unsigned 16 v))
                   | apply (peek_encode_fails 4 PutUint32BE (to_unsigned 32 v))
                   | apply (peek_encode_fails 4 PutUint32LE (to_unsigned 32 v))
                   | apply (peek_encode_fails 8 PutUint64BE (to_unsigned 64 v))
                   | apply (peek_encode_fails 8 PutUint64LE (to_unsigned 64 v)) ]|]).
    apply Forall_nil.
  - repeat (apply Forall_cons; [intros v; apply peek_encode_fails|]). apply Forall_nil.
  - repeat (apply Forall_cons; [intros v; apply peek_encode_fails|]). apply Forall_nil.
Qed.

(** C7. [Peek(n)] with a negative [n] returns [ErrNegativeCount], and
    [Peek(m)] with [m] above the capacity returns [ErrBufferFull], for the
    Reader and for the Writer alike; the Reader or Writer that comes back,
    stream and call log included, is the very one that went in. *)
Theorem Peek_rejects_bad_count
    (b : @Reader.t S) (w : @Writer.t T) (n mr mw : Z) :
  n < 0 -> len (Reader.buf b) < mr -> len (Writer.buf w) < mw ->
  Reader.Peek rd_Read b n = Ret ([], Some ErrNegativeCount, b) /\
  Reader.Peek rd_Read b mr = Ret ([], Some ErrBufferFull, b) /\
  Writer.Peek wr_Write w n = Ret (Writer.nil_window, Some ErrNegativeCount, w) /\
  Writer.Peek wr_Write w mw = Ret (Writer.nil_window, Some ErrBufferFull, w).
Proof.
  intros Hn Hr Hw.
  pose proof (len_nonneg (Reader.buf b)). pose proof (len_nonneg (Writer.buf w)).
  destruct (WPeek_guard wr_Write w n) as [G1 _].
  destruct (WPeek_guard wr_Write w mw) as [_ G2].
  repeat split; auto.
  - unfold Reader.Peek. destruct (Z.ltb_spec n 0); [reflexivity | lia].
  - unfold Reader.Peek. destruct (Z.ltb_spec mr 0); [lia|].
    destruct (Z.ltb_spec (len (Reader.buf b)) mr); [reflexivity | lia].
Qed.

End HelperFacts.

(** ** Runs on concrete streams *)

Example pending_writer_is_a_Write :
  Writer.Write script_Write 0
    (Writer.NewWriterSize {| Writer.st := [WReply 1 None]; Writer.calls := [] |} 4)
    [x0a; x0b]
  = Ret (2, None, pending_writer).
Proof. reflexivity. Qed.

(** Scenario 1 of the specification: one byte per call, [ReadUint32BE]
    returns [0x01020304] after four fills. *)
Example read_uint32_one_byte_per_call :
  exists b',
    Reader.ReadUint32BE (bytes_Read 1) (chunked_reader [x01; x02; x03; x04])
      = Ret (0x01020304, None, b') /\
    length (Reader.calls (Reader.rd b')) = 4%nat.
Proof. eexists. split; vm_compute; reflexivity. Qed.

(** Scenario 2: [WriteUint16LE(0x0102)] then [Flush] sends [02 01]. *)
Example write_uint16_little_endian :
  let w0 := Writer.NewWriterSize {| Writer.st := @nil byte; Writer.calls := [] |} 4 in
  exists w1 w2,
    Writer.WriteUint16LE (sink_Write 8) w0 0x0102 = Ret (2, None, w1) /\
    Writer.Flush (sink_Write 8) w1 = (None, w2) /\
    Writer.st (Writer.wr w2) = [x02; x01].
Proof. do 2 eexists. repeat split; vm_compute; reflexivity. Qed.

(** ** The claims on concrete streams *)

Lemma Pop_is_Peek_then_advance_witness :
  exists b1,
    Reader.Peek (bytes_Read 1) (chunked_reader bytes_1_to_6) 3
      = Ret ([x01; x02; x03], None, b1) /\
    Reader.Pop (bytes_Read 1) (chunked_reader bytes_1_to_6) 3
      = Ret ([x01; x02; x03], None, Reader.with_r b1 (Reader.r b1 + 3)) /\
    Reader.Pop (bytes_Read 1) b1 3
      = Ret ([x01; x02; x03], None, Reader.with_r b1 (Reader.r b1 + 3)) /\
    length (Reader.calls (Reader.rd b1)) = 3%nat.
Proof.
  eassert (E : Reader.Peek (bytes_Read 1) (chunked_reader bytes_1_to_6) 3
               = Ret ([x01; x02; x03], None, _)) by (vm_compute; reflexivity).
  eexists. split; [exact E|].
  destruct (Pop_is_Peek_then_advance (bytes_Read 1) _ _ _ _ _ E) as [H1 H2].
  destruct (H2 eq_refl) as (_ & _ & H3 & _).
  split; [exact H1|]. split; [exact H3|]. reflexivity.
Defined.

Lemma fill_gives_up_after_100_empty_reads_witness :
  (exists b', Reader.fill script_Read stalled_reader = Ret b' /\
              Reader.err b' = Some ErrNoProgress /\
              length (Reader.calls (Reader.rd b')) = 100%nat) /\
  (exists c', Reader.fill script_Read slow_reader = Ret c' /\
              Reader.err c' = None /\ Reader.w c' = 1 /\
              length (Reader.calls (Reader.rd c')) = 2%nat).
Proof.
  destruct (fill_gives_up_after_100_empty_reads script_Read) as (P1 & P2 & _).
  split.
  - destruct (P1 stalled_reader
                {| Reader.st := []; Reader.calls := repeat (16, Reply [] None) 100 |})
      as (H1 & H2).
    + vm_compute; reflexivity.
    + vm_compute; reflexivity.
    + eexists. split; [exact H1|]. split; [reflexivity | exact H2].
  - destruct (P2 slow_reader 1%nat
                {| Reader.st := [Reply [x2a] None]; Reader.calls := [(16, Reply [] None)] |}
                {| Reader.st := [];
                   Reader.calls := [(16, Reply [x2a] None); (16, Reply [] None)] |}
                [x2a] None)
      as (H3 & H4).
    + vm_compute; reflexivity.
    + lia.
    + vm_compute; reflexivity.
    + vm_compute; reflexivity.
    + left; discriminate.
    + eexists. split; [exact H3|]. split; [reflexivity|]. split; [reflexivity | exact H4].
Defined.

Lemma Peek_rejects_bad_count_witness :
  Reader.Peek script_Read ended_reader (-1) = Ret ([], Some ErrNegativeCount, ended_reader) /\
  Reader.Peek script_Read ended_reader 17 = Ret ([], Some ErrBufferFull, ended_reader) /\
  Writer.Peek script_Write pending_writer (-1)
    = Ret (Writer.nil_window, Some ErrNegativeCount, pending_writer) /\
  Writer.Peek script_Write pending_writer 5
    = Ret (Writer.nil_window, Some ErrBufferFull, pending_writer).
Proof.
  apply (Peek_rejects_bad_count script_Read script_Write ended_reader pending_writer
           (-1) 17 5).
  - lia.
  - vm_compute; reflexivity.
  - vm_compute; reflexivity.
Defined.

(** The byte source makes progress when its chunks are not empty. *)
Lemma bytes_Read_progress (chunk : nat) :
  (0 < chunk)%nat -> Reader.makes_progress (bytes_Read chunk).
Proof.
  intros Hc s k Hk. unfold bytes_Read. destruct s as [|c s].
  - right. discriminate.
  - cbn [fst]. left.
    destruct (Nat.min chunk (Z.to_nat k)) as [|m] eqn:Em; [lia | discriminate].
Qed.


Lemma fixed_width_failure_values_witness :
  (exists b', Reader.ReadUint16BE script_Read ended_reader = Ret (0, Some EOF, b')) /\
  (exists b', Reader.ReadFloat64LE script_Read ended_reader = Ret (F64 0, Some EOF, b')) /\
  (exists b', Reader.ReadInt16BE script_Read ended_reader = Ret (-1, Some EOF, b')) /\
  Writer.WriteUint16BE script_Write failed_writer 0x0102
    = Ret (-1, Some ErrShortWrite, failed_writer) /\
  Writer.WriteInt64LE script_Write failed_writer (-2)
    = Ret (-1, Some ErrBufferFull, failed_writer).
Proof.
  destruct (@fixed_width_failure_values _ _ script_Read script_Write)
    as (U & _ & F & I & W & _).
  eassert (P2 : Reader.Pop script_Read ended_reader 2 = Ret ([], Some EOF, _))
    by (vm_compute; reflexivity).
  eassert (P8 : Reader.Pop script_Read ended_reader 8 = Ret ([], Some EOF, _))
    by (vm_compute; reflexivity).
  assert (K2 : Writer.Peek script_Write failed_writer 2
               = Ret (Writer.nil_window, Some ErrShortWrite, failed_writer))
    by (vm_compute; reflexivity).
  assert (K8 : Writer.Peek script_Write failed_writer 8
               = Ret (Writer.nil_window, Some ErrBufferFull, failed_writer))
    by (vm_compute; reflexivity).
  rewrite Forall_forall in U, F, I, W.
  split; [|split; [|split; [|split]]].
  - eexists.
    apply (proj1 (U (2, Reader.ReadUint16BE script_Read)
                    ltac:(cbn; tauto) _ _ _) _ P2).
  - eexists.
    apply (proj1 (F (8, Reader.ReadFloat64LE script_Read)
                    ltac:(cbn; tauto) _ _ _) _ P8).
  - eexists.
    apply (proj1 (I (2, Reader.ReadInt16BE script_Read)
                    ltac:(cbn; tauto) _ _ _) _ P2).
  - apply (proj1 (W (2, Writer.WriteUint16BE script_Write)
                    ltac:(cbn; tauto) 0x0102 _ _ _) _ K2).
  - apply (proj1 (W (8, Writer.WriteInt64LE script_Write)
                    ltac:(cbn; tauto) (-2) _ _ _) _ K8).
Defined.



(** A stored error can also reach no caller at all: [Pop(3)] is served by a
    reply that carries three bytes together with an error, which stays
    stored; the [Discard] that follows finds the buffer empty and refills
    without looking at it, and the stream's next error takes its place. *)
Example stored_error_replaced_unreported :
  exists b1 b2,
    Reader.Pop script_Read erring_reader 3 = Ret ([x01; x02; x03], None, b1) /\
    Reader.err b1 = Some (StreamErr 7) /\
    Reader.Discard script_Read b1 1 = Ret (0, Some EOF, b2) /\
    Reader.err b2 = None.
Proof. do 2 eexists. repeat split; vm_compute; reflexivity. Qed.

(** C3 as stated fails: with an empty buffer and a destination as large as
    the buffer, [Read] passes on the zero bytes and [nil] error of the
    stream's single read. *)
Lemma Read_zero_bytes_nil_error :
  exists p' b',
    0 < len (make 16) /\
    Reader.Read script_Read idle_once_reader (make 16) = Ret (p', 0, None, b').
Proof. do 2 eexists. split; vm_compute; reflexivity. Qed.

Lemma Read_zero_count_only_from_stream_witness :
  exists p' b',
    Reader.Read (bytes_Read 1) (chunked_reader bytes_1_to_6) (make 4) = Ret (p', 1, None, b') /\
    (0 < 1 \/ @None error <> None).
Proof.
  eassert (E : Reader.Read (bytes_Read 1) (chunked_reader bytes_1_to_6) (make 4)
               = Ret (_, 1, None, _)) by (vm_compute; reflexivity).
  do 2 eexists. split; [exact E|].
  apply (fun h1 h2 h3 h4 =>
           Read_zero_count_only_from_stream (bytes_Read 1)
             (chunked_reader bytes_1_to_6) _ (make 4) _ _ _ h1 h2 h3 h4 E).
  - vm_compute; reflexivity.
  - vm_compute; split; discriminate.
  - vm_compute; discriminate.
  - left; vm_compute; reflexivity.
Defined.

(** C2 as stated fails: on the Writer whose flush has failed, a [Peek] with
    a count out of range returns [ErrNegativeCount] or [ErrBufferFull], not
    the stored error. *)
Lemma failed_writer_Peek_returns_other_error :
  Writer.Flush script_Write pending_writer = (Some ErrShortWrite, failed_writer) /\
  Writer.err failed_writer = Some ErrShortWrite /\
  Writer.Peek script_Write failed_writer (-1)
    = Ret (Writer.nil_window, Some ErrNegativeCount, failed_writer) /\
  Writer.Peek script_Write failed_writer 5
    = Ret (Writer.nil_window, Some ErrBufferFull, failed_writer) /\
  ErrNegativeCount <> ErrShortWrite /\ ErrBufferFull <> ErrShortWrite.
Proof. repeat split; try discriminate; vm_compute; reflexivity. Qed.

Lemma flush_error_is_permanent_witness :
  Writer.flush script_Write pending_writer = (Some ErrShortWrite, failed_writer) /\
  Writer.n failed_writer = 1 /\
  slice (Writer.buf failed_writer) 0 1 = [x0b] /\
  Writer.run_calls script_Write failed_writer
    [Writer.CallFlush; Writer.CallWrite 3 [x0c; x0d; x0e; x0f; x10]; Writer.CallPeek 2]
  = Ret ([Some ErrShortWrite; Some ErrShortWrite; Some ErrShortWrite], failed_writer) /\
  length (Writer.calls (Writer.wr failed_writer)) = 1%nat.
Proof.
  destruct (flush_error_is_permanent script_Write pending_writer 1 None
              {| Writer.st := []; Writer.calls := [[x0a; x0b]] |})
    as (b1 & Hf & He & Hw & Hn & Hl & Hc & Hp & _).
  - reflexivity.
  - vm_compute; split; [reflexivity | discriminate].
  - vm_compute; reflexivity.
  - vm_compute; split; discriminate.
  - right; vm_compute; reflexivity.
  - assert (Hb : b1 = failed_writer).
    { unfold failed_writer, Writer.Flush. rewrite Hf. reflexivity. }
    subst b1. split; [exact Hf|]. split; [vm_compute; reflexivity|].
    split; [vm_compute; reflexivity|].
    split; [apply Hp; vm_compute; reflexivity|].
    rewrite Hw. reflexivity.
Defined.

(** C10 as stated fails: after a failed [ReadBytes], a [Discard] on an empty
    buffer first calls the stream and, the stream delivering, returns no
    error at all, the error staying stored; and a [Peek] that the buffer
    can serve returns its bytes and no error. *)
Lemma failed_ReadBytes_error_not_reported_next :
  (exists d b1 b2,
     Reader.ReadBytes script_Read 1 revived_reader 1 = Ret (d, Some EOF, b1) /\
     Reader.Discard script_Read b1 2 = Ret (2, None, b2) /\
     length (Reader.calls (Reader.rd b2)) = Datatypes.S (length (Reader.calls (Reader.rd b1))) /\
     Reader.err b2 = Some EOF) /\
  (exists d b1,
     Reader.ReadBytes script_Read 1 drained_reader 1 = Ret (d, Some EOF, b1) /\
     Reader.Peek script_Read b1 3 = Ret ([x01; x02; x03], None, b1)).
Proof.
  split.
  - do 3 eexists. repeat split; vm_compute; reflexivity.
  - do 2 eexists. repeat split; vm_compute; reflexivity.
Qed.

Lemma ReadBytes_overwrites_stored_error_witness :
  exists d b1,
    Reader.ReadBytes script_Read 1 drained_reader 1 = Ret (d, Some EOF, b1) /\
    Reader.err b1 = Some EOF /\
    Reader.Peek script_Read b1 5
      = Ret ([x01; x02; x03], Some EOF, Reader.with_err b1 None) /\
    Reader.Discard script_Read b1 5
      = Ret (3, Some EOF, Reader.with_err (Reader.with_r b1 3) None).
Proof.
  eassert (E : Reader.ReadBytes script_Read 1 drained_reader 1 = Ret (_, Some EOF, _))
    by (vm_compute; reflexivity).
  do 2 eexists. split; [exact E|].
  destruct (ReadBytes_overwrites_stored_error script_Read _ _ _ _ _ _ E) as (He & H).
  destruct (H EOF eq_refl) as (Hp & _ & Hd).
  split; [exact He|]. split.
  - exact (proj1 (Hp 5 ltac:(vm_compute; split; discriminate)
                       ltac:(vm_compute; reflexivity))).
  - exact (Hd 5 ltac:(vm_compute; split; reflexivity)).
Defined.

(* ===================================================================== *)
(** * Part III: further properties of the code *)
(* ===================================================================== *)

(** ** More on slices *)

Lemma slice_as_skipn_firstn (b : list byte) (lo hi : Z) :
  0 <= lo <= hi -> slice b lo hi = skipn (Z.to_nat lo) (firstn (Z.to_nat hi) b).
Proof.
  intros H. unfold slice. rewrite skipn_firstn_comm. f_equal. lia.
Qed.

Lemma slice_copy_into_append (b d : list byte) (lo hi : Z) :
  0 <= lo <= hi -> hi + len d <= len b ->
  slice (copy_into b hi d) lo (hi + len d) = slice b lo hi ++ d.
Proof.
  intros Hlo Hfit. pose proof (len_nonneg d) as Hd.
  rewrite (slice_as_skipn_firstn b lo hi) by lia.
  rewrite slice_as_skipn_firstn by lia.
  rewrite firstn_copy_into by lia.
  rewrite skipn_app.
  replace (Z.to_nat lo - length (firstn (Z.to_nat hi) b))%nat with O.
  - reflexivity.
  - rewrite length_firstn. unfold len in *. lia.
Qed.

Lemma slice_slice_front (b : list byte) (lo mid hi : Z) :
  0 <= lo <= mid -> mid <= hi ->
  slice b lo mid = firstn (Z.to_nat (mid - lo)) (slice b lo hi).
Proof.
  intros H1 H2. unfold slice. rewrite firstn_firstn. f_equal. lia.
Qed.

Lemma slice_slice_back (b : list byte) (lo mid hi : Z) :
  0 <= lo <= mid -> mid <= hi ->
  slice b mid hi = skipn (Z.to_nat (mid - lo)) (slice b lo hi).
Proof.
  intros H1 H2. unfold slice.
  rewrite skipn_firstn_comm, skipn_skipn. f_equal; [lia|]. f_equal. lia.
Qed.

Lemma len_app (l1 l2 : list byte) : len (l1 ++ l2) = len l1 + len l2.
Proof. unfold len. rewrite length_app. lia. Qed.

Lemma len_firstn_le (l : list byte) (k : Z) :
  0 <= k <= len l -> len (firstn (Z.to_nat k) l) = k.
Proof. unfold len. intros H. rewrite length_firstn. lia. Qed.

(** ** The Reader hands on the bytes of its stream, in order *)

Section ReaderData.

Context {S : Type}.
Variable rd_Read : S -> Z -> read_reply * S.
Hypothesis rd_fits : reads_fit rd_Read.

Abbreviation delivered_in new := (concat (map delivered (rev new))).

Lemma delivered_in_app (new2 new1 : list (Z * read_reply)) :
  delivered_in (new2 ++ new1) = delivered_in new1 ++ delivered_in new2.
Proof. now rewrite rev_app_distr, map_app, concat_app. Qed.

Lemma stream_Read_fits (s s' : Reader.stream) (k : Z) (rep : read_reply) :
  0 <= k -> Reader.stream_Read rd_Read s k = (rep, s') ->
  exists d e, rep = Reply d e /\ len d <= k /\ Reader.calls s' = (k, rep) :: Reader.calls s.
Proof.
  intros Hk H. pose proof (stream_Read_calls rd_Read _ _ _ _ H) as Hc.
  unfold Reader.stream_Read in H. specialize (rd_fits (Reader.st s) k Hk).
  destruct (rd_Read (Reader.st s) k) as [rep0 st']. inversion H; subst.
  cbn in rd_fits. destruct rep as [d e|j e]; [|discriminate].
  exists d, e. apply Z.leb_le in rd_fits. auto.
Qed.

Lemma fill_loop_data (i : nat) : forall b : @Reader.t S,
  reader_wf b ->
  exists b' new,
    Reader.fill_loop rd_Read i b = Ret b' /\
    reader_wf b' /\ Reader.r b' = Reader.r b /\
    len (Reader.buf b') = len (Reader.buf b) /\
    Reader.calls (Reader.rd b') = new ++ Reader.calls (Reader.rd b) /\
    unread b' = unread b ++ delivered_in new.
Proof.
  induction i as [|i IH]; intros b Hwf; cbn [Reader.fill_loop].
  - exists (Reader.with_err b (Some ErrNoProgress)), [].
    cbn. rewrite app_nil_r. repeat split; try reflexivity; apply Hwf.
  - destruct Hwf as (Hr & Hw).
    destruct (Reader.stream_Read rd_Read (Reader.rd b) (len (Reader.buf b) - Reader.w b))
      as [rep s'] eqn:E.
    assert (Hk : 0 <= len (Reader.buf b) - Reader.w b) by lia.
    destruct (stream_Read_fits _ _ _ _ Hk E) as (d & e & -> & Hd & Hc).
    pose proof (len_nonneg d) as Hd0.
    set (b1 := {| Reader.buf := copy_into (Reader.buf b) (Reader.w b) d;
                  Reader.rd := s'; Reader.r := Reader.r b;
                  Reader.w := Reader.w b + len d; Reader.err := Reader.err b |}).
    assert (Hwf1 : reader_wf b1).
    { unfold reader_wf. cbn. rewrite len_copy_into. lia. }
    assert (Hun : unread b1 = unread b ++ d).
    { unfold unread. cbn. apply slice_copy_into_append; lia. }
    assert (Hdel : delivered_in [(len (Reader.buf b) - Reader.w b, Reply d e)] = d).
    { cbn. apply app_nil_r. }
    assert (Hdone : forall e0, exists b' new,
      Ret (Reader.with_err b1 e0) = Ret b' /\
      reader_wf b' /\ Reader.r b' = Reader.r b /\
      len (Reader.buf b') = len (Reader.buf b) /\
      Reader.calls (Reader.rd b') = new ++ Reader.calls (Reader.rd b) /\
      unread b' = unread b ++ delivered_in new).
    { intros e0. exists (Reader.with_err b1 e0), [(len (Reader.buf b) - Reader.w b, Reply d e)].
      rewrite Hdel. split; [reflexivity|]. split; [exact Hwf1|].
      split; [reflexivity|]. split; [cbn; apply len_copy_into|].
      split; [cbn; exact Hc | exact Hun]. }
    destruct e as [e|].
    + apply Hdone.
    + destruct (Z.ltb_spec 0 (len d)).
      * destruct (Hdone (Reader.err b1)) as (b' & new & Hb' & Hrest).
        exists b', new. split; [|exact Hrest].
        rewrite <- Hb'. destruct b1; reflexivity.
      * destruct (IH b1 Hwf1) as (b' & new & Hf & Hwf' & Hr' & Hl' & Hc' & Hu').
        exists b', (new ++ [(len (Reader.buf b) - Reader.w b, Reply d None)]).
        split; [exact Hf|]. split; [exact Hwf'|]. split; [exact Hr'|].
        split; [rewrite Hl'; cbn; apply len_copy_into|].
        split; [rewrite Hc'; cbn; rewrite Hc, <- app_assoc; reflexivity|].
        rewrite Hu', Hun, delivered_in_app, Hdel. now rewrite app_assoc.
Qed.

Lemma slide_data (b : @Reader.t S) :
  reader_wf b ->
  reader_wf (Reader.slide b) /\ unread (Reader.slide b) = unread b.
Proof.
  intros (Hr & Hw). unfold Reader.slide.
  destruct (Z.ltb_spec 0 (Reader.r b)); [|split; [split; assumption | reflexivity]].
  assert (Hs : len (slice (Reader.buf b) (Reader.r b) (Reader.w b))
               = Reader.w b - Reader.r b) by (apply len_slice; lia).
  split.
  - unfold reader_wf. cbn. rewrite len_copy_into. lia.
  - unfold unread. cbn. rewrite <- Hs at 1. apply slice_copy_into_front. lia.
Qed.

Lemma fill_data (b : @Reader.t S) :
  reader_wf b ->
  (Reader.Buffered b < len (Reader.buf b) ->
   exists b' new,
     Reader.fill rd_Read b = Ret b' /\
     reader_wf b' /\ Reader.r b' = 0 /\
     len (Reader.buf b') = len (Reader.buf b) /\
     Reader.calls (Reader.rd b') = new ++ Reader.calls (Reader.rd b) /\
     unread b' = unread b ++ delivered_in new) /\
  (Reader.Buffered b = len (Reader.buf b) ->
   Reader.fill rd_Read b = Panics PanicFullBuffer).
Proof.
  intros Hwf. destruct (slide_data b Hwf) as (Hwfs & Hus).
  pose proof (slide_Buffered b) as HB. destruct (slide_frame b) as (F1 & F2 & F3).
  pose proof (slide_r b ltac:(apply Hwf)) as Hr0.
  unfold Reader.fill, Reader.Buffered in *. split; intros Hfull.
  - destruct (Z.leb_spec (len (Reader.buf (Reader.slide b))) (Reader.w (Reader.slide b)));
      [lia|].
    destruct (fill_loop_data Reader.maxConsecutiveEmptyReads (Reader.slide b) Hwfs)
      as (b' & new & Hf & Hwf' & Hr' & Hl' & Hc' & Hu').
    exists b', new. split; [exact Hf|]. split; [exact Hwf'|].
    split; [lia|]. split; [lia|]. split; [now rewrite Hc', F1|].
    now rewrite Hu', Hus.
  - destruct (Z.leb_spec (len (Reader.buf (Reader.slide b))) (Reader.w (Reader.slide b)));
      [reflexivity | lia].
Qed.

(** X1. Against a stream that keeps to the [io.Reader] contract, [fill] on
    a Reader whose buffer is not full of unread bytes returns (no panic),
    keeps the cursor invariant and the capacity, and leaves as unread bytes
    exactly the old unread bytes followed by what the stream delivered
    during the call; on a buffer full of unread bytes it panics. *)
Theorem fill_appends_delivered_bytes (b : @Reader.t S) :
  reader_wf b ->
  (Reader.Buffered b < len (Reader.buf b) ->
   exists b' new,
     Reader.fill rd_Read b = Ret b' /\
     reader_wf b' /\ Reader.r b' = 0 /\
     len (Reader.buf b') = len (Reader.buf b) /\
     Reader.calls (Reader.rd b') = new ++ Reader.calls (Reader.rd b) /\
     unread b' = unread b ++ delivered_in new) /\
  (Reader.Buffered b = len (Reader.buf b) ->
   Reader.fill rd_Read b = Panics PanicFullBuffer).
Proof. exact (fill_data b). Qed.

Lemma Peek_loop_data (fuel : nat) : forall (n : Z) (b : @Reader.t S),
  reader_wf b -> n <= len (Reader.buf b) ->
  n - Reader.Buffered b <= Z.of_nat fuel ->
  exists b' new,
    Reader.Peek_loop rd_Read fuel n b = Ret b' /\
    reader_wf b' /\ len (Reader.buf b') = len (Reader.buf b) /\
    (n <= Reader.Buffered b' \/ Reader.err b' <> None) /\
    Reader.calls (Reader.rd b') = new ++ Reader.calls (Reader.rd b) /\
    unread b' = unread b ++ delivered_in new.
Proof.
  induction fuel as [|f IH]; intros n b Hwf Hn Hfuel; rewrite Peek_loop_eq.
  - destruct (Z.ltb_spec (Reader.w b - Reader.r b) n) as [Hlt|Hge];
      [unfold Reader.Buffered in *; lia|].
    cbn [andb]. exists b, []. cbn. rewrite app_nil_r.
    repeat split; try apply Hwf. left. unfold Reader.Buffered. lia.
  - assert (Hstop : n <= Reader.Buffered b \/ Reader.err b <> None ->
      exists b' new,
        Ret b = Ret b' /\
        reader_wf b' /\ len (Reader.buf b') = len (Reader.buf b) /\
        (n <= Reader.Buffered b' \/ Reader.err b' <> None) /\
        Reader.calls (Reader.rd b') = new ++ Reader.calls (Reader.rd b) /\
        unread b' = unread b ++ delivered_in new).
    { intros Hs. exists b, []. cbn. rewrite app_nil_r. repeat split; try apply Hwf.
      exact Hs. }
    destruct (Z.ltb_spec (Reader.w b - Reader.r b) n) as [Hlt|Hge]; cbn [andb];
      [|apply Hstop; left; unfold Reader.Buffered; lia].
    destruct (Reader.err b) eqn:Ee; cbn [is_nil];
      [apply Hstop; right; discriminate|].
    destruct (proj1 (fill_data b Hwf) ltac:(unfold Reader.Buffered; lia))
      as (b1 & new1 & Hf & Hwf1 & Hr1 & Hl1 & Hc1 & Hu1).
    rewrite Hf. cbn [bind].
    pose proof (fill_spec rd_Read b b1 Hf) as (_ & F2 & F3 & _).
    destruct (Reader.err b1) eqn:Ee1.
    + rewrite Peek_loop_eq, Ee1. cbn [is_nil]. rewrite andb_false_r.
      exists b1, new1. repeat split; try apply Hwf1; try assumption.
      right. rewrite Ee1. discriminate.
    + specialize (F3 eq_refl).
      destruct (IH n b1 Hwf1 ltac:(lia) ltac:(lia))
        as (b' & new & Hp & Hwf' & Hl' & Hx' & Hc' & Hu').
      exists b', (new ++ new1). split; [exact Hp|]. split; [exact Hwf'|].
      split; [lia|]. split; [exact Hx'|].
      split; [rewrite Hc', Hc1; now rewrite app_assoc|].
      rewrite Hu', Hu1, delivered_in_app. now rewrite app_assoc.
Qed.

Lemma unread_front (b : @Reader.t S) (n : Z) :
  reader_wf b -> 0 <= n <= Reader.Buffered b ->
  slice (Reader.buf b) (Reader.r b) (Reader.r b + n) = firstn (Z.to_nat n) (unread b).
Proof.
  intros (Hr & Hw) Hn. unfold unread, Reader.Buffered in *.
  rewrite (slice_slice_front _ (Reader.r b) (Reader.r b + n) (Reader.w b)) by lia.
  f_equal. lia.
Qed.

Lemma unread_back (b : @Reader.t S) (n : Z) :
  reader_wf b -> 0 <= n <= Reader.Buffered b ->
  unread (Reader.with_r b (Reader.r b + n)) = skipn (Z.to_nat n) (unread b).
Proof.
  intros (Hr & Hw) Hn. unfold unread, Reader.Buffered in *. cbn.
  rewrite (slice_slice_back _ (Reader.r b) (Reader.r b + n) (Reader.w b)) by lia.
  f_equal. lia.
Qed.

Lemma len_unread (b : @Reader.t S) : reader_wf b -> len (unread b) = Reader.Buffered b.
Proof. intros (Hr & Hw). unfold unread, Reader.Buffered. apply len_slice; lia. Qed.

Lemma Peek_data (b : @Reader.t S) (n : Z) :
  reader_wf b -> 0 <= n <= len (Reader.buf b) ->
  exists d e b' new,
    Reader.Peek rd_Read b n = Ret (d, e, b') /\
    reader_wf b' /\ len (Reader.buf b') = len (Reader.buf b) /\
    Reader.calls (Reader.rd b') = new ++ Reader.calls (Reader.rd b) /\
    unread b' = unread b ++ delivered_in new /\
    d = firstn (Z.to_nat n) (unread b') /\
    (e = None <-> n <= Reader.Buffered b').
Proof.
  intros Hwf Hn. unfold Reader.Peek.
  destruct (Z.ltb_spec n 0); [lia|].
  destruct (Z.ltb_spec (len (Reader.buf b)) n); [lia|].
  destruct (Peek_loop_data (Z.to_nat n) n b Hwf ltac:(lia))
    as (b1 & new & Hp & Hwf1 & Hl1 & Hx1 & Hc1 & Hu1).
  { destruct Hwf as (Hr & Hw). unfold Reader.Buffered. lia. }
  rewrite Hp. cbn [bind]. pose proof (len_unread b1 Hwf1) as Hlen.
  unfold Reader.Buffered in *.
  destruct (Z.ltb_spec (Reader.w b1 - Reader.r b1) n) as [Hlt|Hge].
  - destruct Hx1 as [Hx1|Hx1]; [lia|].
    destruct (Reader.err b1) as [e1|] eqn:Ee1; [|congruence].
    unfold Reader.readErr. rewrite Ee1.
    exists (slice (Reader.buf b1) (Reader.r b1) (Reader.r b1 + (Reader.w b1 - Reader.r b1))),
      (Some e1), (Reader.with_err b1 None), new.
    split; [reflexivity|]. split; [exact Hwf1|]. split; [exact Hl1|].
    split; [exact Hc1|]. split; [exact Hu1|].
    split.
    + change (unread (Reader.with_err b1 None)) with (unread b1).
      rewrite firstn_all2 by (unfold len in Hlen; lia).
      unfold unread. f_equal. lia.
    + cbn. split; [discriminate | lia].
  - exists (slice (Reader.buf b1) (Reader.r b1) (Reader.r b1 + n)), None, b1, new.
    split; [reflexivity|]. split; [exact Hwf1|]. split; [exact Hl1|].
    split; [exact Hc1|]. split; [exact Hu1|].
    split; [apply unread_front; [exact Hwf1 | unfold Reader.Buffered; lia]|].
    split; [lia | reflexivity].
Qed.

(** X2. Against a stream that keeps to the contract, [Peek(n)] with
    [0 <= n <= capacity] on a well-formed Reader always returns; the Reader
    stays well-formed with the same capacity; its unread bytes are the old
    unread bytes followed by what the stream delivered during the call; the
    window returned is the first [n] of them (all of them when fewer are
    there); and the error is [nil] exactly when [n] bytes are there. *)
Theorem Peek_returns_next_bytes (b : @Reader.t S) (n : Z) :
  reader_wf b -> 0 <= n <= len (Reader.buf b) ->
  exists d e b' new,
    Reader.Peek rd_Read b n = Ret (d, e, b') /\
    reader_wf b' /\ len (Reader.buf b') = len (Reader.buf b) /\
    Reader.calls (Reader.rd b') = new ++ Reader.calls (Reader.rd b) /\
    unread b' = unread b ++ delivered_in new /\
    d = firstn (Z.to_nat n) (unread b') /\
    (e = None <-> n <= Reader.Buffered b').
Proof. exact (Peek_data b n). Qed.

(** X3. Under the same conditions [Pop(n)] always returns.  On success it
    returns exactly [n] bytes, and those bytes followed by what is left
    unread are the old unread bytes followed by what the stream delivered:
    nothing is lost, repeated or reordered.  On failure it returns no bytes
    and consumes none. *)
Theorem Pop_consumes_next_bytes (b : @Reader.t S) (n : Z) :
  reader_wf b -> 0 <= n <= len (Reader.buf b) ->
  exists d e b' new,
    Reader.Pop rd_Read b n = Ret (d, e, b') /\
    reader_wf b' /\ len (Reader.buf b') = len (Reader.buf b) /\
    Reader.calls (Reader.rd b') = new ++ Reader.calls (Reader.rd b) /\
    (e = None -> len d = n /\ d ++ unread b' = unread b ++ delivered_in new) /\
    (e <> None -> d = [] /\ unread b' = unread b ++ delivered_in new).
Proof.
  intros Hwf Hn.
  destruct (Peek_data b n Hwf Hn) as (d & e & b1 & new & Hp & Hwf1 & Hl1 & Hc1 & Hu1 & Hd & He).
  unfold Reader.Pop. rewrite Hp. cbn [bind].
  pose proof (len_unread b1 Hwf1) as Hlen.
  destruct e as [e|].
  - exists [], (Some e), b1, new.
    split; [reflexivity|]. split; [exact Hwf1|]. split; [exact Hl1|].
    split; [exact Hc1|]. split; [intros; discriminate|].
    intros _. split; [reflexivity | exact Hu1].
  - assert (Hnb : n <= Reader.Buffered b1) by (apply He; reflexivity).
    exists d, None, (Reader.with_r b1 (Reader.r b1 + n)), new.
    split; [reflexivity|].
    split. { destruct Hwf1 as (Hr & Hw). unfold reader_wf, Reader.Buffered in *. cbn. lia. }
    split; [exact Hl1|]. split; [exact Hc1|].
    split; [|intros Hc; congruence].
    intros _. split.
    + rewrite Hd. apply len_firstn_le. lia.
    + rewrite unread_back by (try assumption; lia).
      rewrite Hd, firstn_skipn. exact Hu1.
Qed.

Lemma skipn_add_app (l d : list byte) (i j : nat) :
  (i <= length l)%nat -> skipn (i + j) (l ++ d) = skipn j (skipn i l ++ d).
Proof.
  intros Hi. rewrite Nat.add_comm, <- skipn_skipn. f_equal.
  rewrite skipn_app. replace (i - length l)%nat with O by lia. reflexivity.
Qed.

Lemma Discard_loop_data (fuel : nat) : forall (n remain : Z) (b : @Reader.t S),
  reader_wf b -> 0 < len (Reader.buf b) ->
  0 < remain <= n -> remain <= Z.of_nat fuel ->
  exists k e b' new,
    Reader.Discard_loop rd_Read fuel n remain b = Ret (k, e, b') /\
    reader_wf b' /\ len (Reader.buf b') = len (Reader.buf b) /\
    n - remain <= k <= n /\ (e = None <-> k = n) /\
    Reader.calls (Reader.rd b') = new ++ Reader.calls (Reader.rd b) /\
    unread b' = skipn (Z.to_nat (k - (n - remain))) (unread b ++ delivered_in new).
Proof.
  induction fuel as [|f IH]; intros n remain b Hwf Hcap Hrem Hfuel; [lia|].
  cbn [Reader.Discard_loop].
  (* the Reader after the optional fill *)
  assert (Hfill : exists b1 new1,
    (if Reader.Buffered b =? 0 then Reader.fill rd_Read b else Ret b) = Ret b1 /\
    reader_wf b1 /\ len (Reader.buf b1) = len (Reader.buf b) /\
    Reader.calls (Reader.rd b1) = new1 ++ Reader.calls (Reader.rd b) /\
    unread b1 = unread b ++ delivered_in new1 /\
    (Reader.Buffered b1 = 0 -> Reader.err b1 <> None)).
  { destruct (Z.eqb_spec (Reader.Buffered b) 0) as [Hz|Hnz].
    - destruct (proj1 (fill_data b Hwf) ltac:(lia))
        as (b1 & new1 & Hf & Hwf1 & _ & Hl1 & Hc1 & Hu1).
      pose proof (fill_spec rd_Read b b1 Hf) as (_ & _ & F3 & _).
      exists b1, new1. repeat split; try apply Hwf1; try assumption.
      intros Hz1 Hn. specialize (F3 Hn). lia.
    - exists b, []. cbn. rewrite app_nil_r. repeat split; try apply Hwf.
      intros; contradiction. }
  destruct Hfill as (b1 & new1 & Hf & Hwf1 & Hl1 & Hc1 & Hu1 & Hz1).
  rewrite Hf. cbn [bind].
  pose proof (len_unread b1 Hwf1) as Hlen1.
  assert (Hb1 : 0 <= Reader.Buffered b1)
    by (destruct Hwf1 as (Hr & Hw); unfold Reader.Buffered; lia).
  set (skip := if remain <? Reader.Buffered b1 then remain else Reader.Buffered b1).
  assert (Hskip : 0 <= skip <= remain /\ skip <= Reader.Buffered b1 /\
                  (skip = remain \/ skip = Reader.Buffered b1)).
  { subst skip. destruct (Z.ltb_spec remain (Reader.Buffered b1)); lia. }
  set (b2 := Reader.with_r b1 (Reader.r b1 + skip)).
  assert (Hwf2 : reader_wf b2).
  { destruct Hwf1 as (Hr & Hw). unfold reader_wf, Reader.Buffered in *. cbn. lia. }
  assert (Hu2 : unread b2 = skipn (Z.to_nat skip) (unread b ++ delivered_in new1)).
  { unfold b2. rewrite unread_back by (try assumption; lia). now rewrite Hu1. }
  destruct (Z.eqb_spec (remain - skip) 0) as [Hdone|Hmore].
  - exists n, None, b2, new1.
    split; [reflexivity|]. split; [exact Hwf2|]. split; [exact Hl1|].
    split; [lia|]. split; [tauto|]. split; [exact Hc1|].
    rewrite Hu2. f_equal. lia.
  - change (Reader.err b2) with (Reader.err b1).
    destruct (Reader.err b1) as [e1|] eqn:Ee1; cbn [is_nil negb].
    + unfold Reader.readErr. change (Reader.err b2) with (Reader.err b1). rewrite Ee1.
      exists (n - (remain - skip)), (Some e1), (Reader.with_err b2 None), new1.
      split; [reflexivity|]. split; [exact Hwf2|]. split; [exact Hl1|].
      split; [lia|]. split; [split; [discriminate | lia]|]. split; [exact Hc1|].
      change (unread (Reader.with_err b2 None)) with (unread b2).
      rewrite Hu2. f_equal. lia.
    + assert (Hpos : 0 < skip).
      { destruct (Z.eq_dec (Reader.Buffered b1) 0) as [Hz|Hz].
        - exfalso. apply (Hz1 Hz). reflexivity.
        - lia. }
      destruct (IH n (remain - skip) b2 Hwf2 ltac:(cbn; lia) ltac:(lia) ltac:(lia))
        as (k & e & b' & new & Hd & Hwf' & Hl' & Hk & He & Hc' & Hu').
      exists k, e, b', (new ++ new1).
      split; [exact Hd|]. split; [exact Hwf'|].
      split; [rewrite Hl'; exact Hl1|]. split; [lia|]. split; [exact He|].
      split; [rewrite Hc'; cbn; rewrite Hc1; now rewrite app_assoc|].
      rewrite Hu', Hu2, delivered_in_app, app_assoc.
      replace (Z.to_nat (k - (n - remain)))
        with (Z.to_nat skip + Z.to_nat (k - (n - (remain - skip))))%nat by lia.
      symmetry. apply skipn_add_app.
      rewrite <- Hu1. unfold len in Hlen1. lia.
Qed.

(** X4. Against a stream that keeps to the contract, [Discard(n)] with
    [n >= 0] on a well-formed Reader of non-zero capacity always returns;
    the count [k] it returns lies in [0, n], and the error is [nil] exactly
    when [k = n]; what is left unread is the old unread bytes followed by
    what the stream delivered, less the first [k] bytes. *)
Theorem Discard_skips_next_bytes (b : @Reader.t S) (n : Z) :
  reader_wf b -> 0 < len (Reader.buf b) -> 0 <= n ->
  exists k e b' new,
    Reader.Discard rd_Read b n = Ret (k, e, b') /\
    reader_wf b' /\ len (Reader.buf b') = len (Reader.buf b) /\
    0 <= k <= n /\ (e = None <-> k = n) /\
    Reader.calls (Reader.rd b') = new ++ Reader.calls (Reader.rd b) /\
    unread b' = skipn (Z.to_nat k) (unread b ++ delivered_in new).
Proof.
  intros Hwf Hcap Hn. unfold Reader.Discard.
  destruct (Z.ltb_spec n 0); [lia|].
  destruct (Z.eqb_spec n 0) as [->|Hn0].
  - exists 0, None, b, []. cbn. rewrite app_nil_r.
    repeat split; try apply Hwf; lia.
  - destruct (Discard_loop_data (Z.to_nat n) n n b Hwf Hcap ltac:(lia) ltac:(lia))
      as (k & e & b' & new & Hd & Hwf' & Hl' & Hk & He & Hc' & Hu').
    exists k, e, b', new. split; [exact Hd|]. split; [exact Hwf'|].
    split; [exact Hl'|]. split; [lia|]. split; [exact He|]. split; [exact Hc'|].
    rewrite Hu'. f_equal. lia.
Qed.

(** X5. [Discard(n)] with [0 <= n <= Buffered()] succeeds without reading
    from the stream: it returns [n] and [nil] and only moves the read
    cursor forward by [n].  No assumption on the stream is needed. *)
Theorem Discard_within_buffer (b : @Reader.t S) (n : Z) :
  0 <= n <= Reader.Buffered b ->
  Reader.Discard rd_Read b n
    = Ret (n, None, if n =? 0 then b else Reader.with_r b (Reader.r b + n)).
Proof.
  intros Hn. unfold Reader.Discard.
  destruct (Z.ltb_spec n 0); [lia|].
  destruct (Z.eqb_spec n 0); [subst; reflexivity|].
  destruct (Z.to_nat n) as [|f] eqn:Ef; [lia|].
  cbn [Reader.Discard_loop].
  destruct (Z.eqb_spec (Reader.Buffered b) 0); [lia|]. cbn [bind].
  destruct (Z.ltb_spec n (Reader.Buffered b)).
  - rewrite Z.sub_diag. reflexivity.
  - assert (Reader.Buffered b = n) as -> by lia. rewrite Z.sub_diag. reflexivity.
Qed.

Lemma copy_front (p src : list byte) :
  let k := Z.to_nat (copy_count p 0 src) in
  0 <= copy_count p 0 src <= len p /\
  copy_count p 0 src <= len src /\
  len (copy_into p 0 src) = len p /\
  firstn k (copy_into p 0 src) = firstn k src /\
  skipn k (copy_into p 0 src) = skipn k p.
Proof.
  cbv zeta. unfold copy_count. pose proof (len_nonneg p). pose proof (len_nonneg src).
  split; [lia|]. split; [lia|]. split; [apply len_copy_into|].
  unfold copy_into, len in *. change (Z.to_nat 0) with O.
  cbn [firstn app Nat.add]. rewrite Nat.sub_0_r, Z.sub_0_r.
  replace (Z.to_nat (Z.min (Z.of_nat (length src)) (Z.of_nat (length p))))
    with (Nat.min (length src) (length p)) by lia.
  set (k := Nat.min (length src) (length p)).
  assert (Hk : length (firstn k src) = k) by (rewrite length_firstn; lia).
  split.
  - rewrite firstn_app, Hk, Nat.sub_diag. cbn [firstn].
    rewrite app_nil_r. apply firstn_all2. lia.
  - rewrite skipn_app, Hk, Nat.sub_diag. cbn [skipn].
    rewrite skipn_all2 by lia. reflexivity.
Qed.

Lemma Read_copy_out (b : @Reader.t S) (p : list byte) :
  reader_wf b ->
  let src := slice (Reader.buf b) (Reader.r b) (Reader.w b) in
  let k := copy_count p 0 src in
  let b' := Reader.with_r b (Reader.r b + k) in
  reader_wf b' /\ 0 <= k <= len p /\ k <= Reader.Buffered b /\
  len (copy_into p 0 src) = len p /\
  firstn (Z.to_nat k) (copy_into p 0 src) ++ unread b' = unread b /\
  skipn (Z.to_nat k) (copy_into p 0 src) = skipn (Z.to_nat k) p.
Proof.
  intros Hwf. cbv zeta. fold (unread b).
  destruct (copy_front p (unread b)) as (K1 & K2 & K3 & K4 & K5).
  pose proof (len_unread b Hwf) as Hlen. rewrite Hlen in K2.
  split.
  { destruct Hwf as (Hr & Hw). unfold reader_wf, Reader.Buffered in *. cbn. lia. }
  split; [exact K1|]. split; [exact K2|]. split; [exact K3|].
  split; [|exact K5].
  rewrite K4, unread_back by (try assumption; lia). apply firstn_skipn.
Qed.

Lemma Read_data (b : @Reader.t S) (p : list byte) :
  reader_wf b ->
  exists p' k e b' new,
    Reader.Read rd_Read b p = Ret (p', k, e, b') /\
    reader_wf b' /\ len (Reader.buf b') = len (Reader.buf b) /\
    0 <= k <= len p /\ len p' = len p /\
    Reader.calls (Reader.rd b') = new ++ Reader.calls (Reader.rd b) /\
    firstn (Z.to_nat k) p' ++ unread b' = unread b ++ delivered_in new /\
    skipn (Z.to_nat k) p' = skipn (Z.to_nat k) p /\
    (length new <= 100)%nat.
Proof.
  intros Hwf. pose proof (len_nonneg p) as Hp0. unfold Reader.Read.
  assert (Hsame : forall e0 : option error, exists p' k e b' new,
    Ret (p, 0, e0, Reader.with_err b None) = Ret (p', k, e, b') /\
    reader_wf b' /\ len (Reader.buf b') = len (Reader.buf b) /\
    0 <= k <= len p /\ len p' = len p /\
    Reader.calls (Reader.rd b') = new ++ Reader.calls (Reader.rd b) /\
    firstn (Z.to_nat k) p' ++ unread b' = unread b ++ delivered_in new /\
    skipn (Z.to_nat k) p' = skipn (Z.to_nat k) p /\
    (length new <= 100)%nat).
  { intros e0. exists p, 0, e0, (Reader.with_err b None), [].
    cbn. rewrite app_nil_r. repeat split; try apply Hwf; try lia. }
  destruct (Z.eqb_spec (len p) 0); [apply Hsame|].
  destruct (Z.eqb_spec (Reader.r b) (Reader.w b)) as [Hempty|Hdata].
  - destruct (Reader.err b) eqn:Ee; cbn [is_nil negb]; [apply Hsame|].
    assert (Hun : unread b = []) by (unfold unread; rewrite Hempty; apply slice_empty).
    destruct (Z.leb_spec (len (Reader.buf b)) (len p)) as [Hbig|Hsmall].
    + destruct (Reader.stream_Read rd_Read (Reader.rd b) (len p)) as [rep s'] eqn:E.
      destruct (stream_Read_fits _ _ _ _ Hp0 E) as (d & e & -> & Hd & Hc).
      pose proof (len_nonneg d) as Hd0.
      exists (copy_into p 0 d), (len d), e,
        (Reader.with_err (Reader.with_err (Reader.with_rd b s') e) None),
        [(len p, Reply d e)].
      split; [reflexivity|]. split; [exact Hwf|]. split; [reflexivity|].
      split; [lia|]. split; [apply len_copy_into|]. split; [exact Hc|].
      destruct (copy_front p d) as (_ & _ & _ & K4 & K5).
      assert (Hk : copy_count p 0 d = len d) by (unfold copy_count; lia).
      rewrite Hk in K4, K5.
      split; [|split; [exact K5 | cbn; lia]].
      change (unread (Reader.with_err (Reader.with_err (Reader.with_rd b s') e) None))
        with (unread b).
      rewrite Hun, K4, firstn_all2 by (unfold len; lia). cbn. reflexivity.
    + destruct (proj1 (fill_data b Hwf))
        as (b0 & new & Hf & Hwf0 & Hr0 & Hl0 & Hc0 & Hu0).
      { destruct Hwf as (Hr & Hw). unfold Reader.Buffered. lia. }
      rewrite Hf. cbn [bind].
      pose proof (fill_spec rd_Read b b0 Hf) as (_ & _ & _ & F4 & _).
      assert (Hnew : (length new <= 100)%nat).
      { rewrite Hc0, length_app in F4. lia. }
      destruct (Z.eqb_spec (Reader.r b0) (Reader.w b0)) as [He0|Hd0].
      * exists p, 0, (Reader.err b0), (Reader.with_err b0 None), new.
        split; [reflexivity|]. split; [exact Hwf0|]. split; [exact Hl0|].
        split; [lia|]. split; [reflexivity|]. split; [exact Hc0|].
        split; [exact Hu0|]. split; [reflexivity | exact Hnew].
      * destruct (Read_copy_out b0 p Hwf0) as (C1 & C2 & C3 & C4 & C5 & C6).
        eexists _, _, _, _, new. split; [reflexivity|].
        split; [exact C1|]. split; [exact Hl0|]. split; [exact C2|].
        split; [exact C4|]. split; [exact Hc0|].
        split; [rewrite C5; exact Hu0|]. split; [exact C6 | exact Hnew].
  - destruct (Read_copy_out b p Hwf) as (C1 & C2 & C3 & C4 & C5 & C6).
    eexists _, _, _, _, []. split; [reflexivity|].
    split; [exact C1|]. split; [reflexivity|]. split; [exact C2|].
    split; [exact C4|]. split; [reflexivity|].
    split; [cbn; rewrite app_nil_r; exact C5|]. split; [exact C6 | cbn; lia].
Qed.

(** X6. Against a stream that keeps to the contract, [Read(p)] on a
    well-formed Reader always returns, with a count [k] in [0, len(p)]; the
    first [k] bytes of [p] followed by what is left unread are the old
    unread bytes followed by what the stream delivered during the call, and
    the stream is called at most a hundred times.  Whenever [p] is not
    handed to the stream itself (the destination is smaller than the buffer,
    or bytes are buffered, or an error is stored), the bytes of [p] past [k]
    are untouched. *)
Theorem Read_hands_on_next_bytes (b : @Reader.t S) (p : list byte) :
  reader_wf b ->
  exists p' k e b' new,
    Reader.Read rd_Read b p = Ret (p', k, e, b') /\
    reader_wf b' /\ len (Reader.buf b') = len (Reader.buf b) /\
    0 <= k <= len p /\ len p' = len p /\
    Reader.calls (Reader.rd b') = new ++ Reader.calls (Reader.rd b) /\
    firstn (Z.to_nat k) p' ++ unread b' = unread b ++ delivered_in new /\
    (len p < len (Reader.buf b) \/ Reader.r b <> Reader.w b \/ Reader.err b <> None ->
     skipn (Z.to_nat k) p' = skipn (Z.to_nat k) p) /\
    (length new <= 100)%nat.
Proof.
  intros Hwf.
  destruct (Read_data b p Hwf) as (p' & k & e & b' & new & H1 & H2 & H3 & H4 & H5 & H6 & H7 & H8 & H9).
  exists p', k, e, b', new.
  repeat (split; [assumption|]). split; [intros _; exact H8 | exact H9].
Qed.

(** X7. [Read(p)] on a Reader that holds unread bytes never calls the
    stream: it copies [min(len(p), Buffered())] bytes from the front of the
    unread bytes, advances the cursor by that count and returns a [nil]
    error, whatever error is pending. *)
Theorem Read_serves_from_buffer (b : @Reader.t S) (p : list byte) :
  reader_wf b -> 0 < len p -> 0 < Reader.Buffered b ->
  let k := Z.min (len p) (Reader.Buffered b) in
  exists p',
    Reader.Read rd_Read b p = Ret (p', k, None, Reader.with_r b (Reader.r b + k)) /\
    firstn (Z.to_nat k) p' = firstn (Z.to_nat k) (unread b) /\
    skipn (Z.to_nat k) p' = skipn (Z.to_nat k) p.
Proof.
  intros Hwf Hp Hb k. unfold Reader.Read, Reader.Buffered in *.
  destruct (Z.eqb_spec (len p) 0); [lia|].
  destruct (Z.eqb_spec (Reader.r b) (Reader.w b)); [lia|].
  fold (unread b). destruct (copy_front p (unread b)) as (_ & _ & _ & K4 & K5).
  assert (Hk : copy_count p 0 (unread b) = k).
  { unfold copy_count. rewrite (len_unread b Hwf). unfold Reader.Buffered. lia. }
  rewrite Hk in *. eexists. split; [reflexivity|]. split; assumption.
Qed.

(** X8. [Read(p)] with an empty buffer, no pending error and a destination
    at least as large as the buffer makes exactly one call to the stream,
    asking for [len(p)] bytes, and returns that call's count and error as
    they are; the buffer and the cursors are not touched and no error stays
    stored. *)
Theorem Read_large_bypasses_buffer
    (b : @Reader.t S) (p d : list byte) (e : option error) (s' : Reader.stream) :
  0 < len p -> Reader.r b = Reader.w b -> Reader.err b = None ->
  len (Reader.buf b) <= len p ->
  Reader.stream_Read rd_Read (Reader.rd b) (len p) = (Reply d e, s') ->
  Reader.Read rd_Read b p
    = Ret (copy_into p 0 d, len d, e, Reader.with_rd b s') /\
  Reader.calls s' = (len p, Reply d e) :: Reader.calls (Reader.rd b).
Proof.
  intros Hp Hr He Hbig Hread. unfold Reader.Read.
  destruct (Z.eqb_spec (len p) 0); [lia|].
  destruct (Z.eqb_spec (Reader.r b) (Reader.w b)); [|contradiction].
  rewrite He. cbn [is_nil negb].
  destruct (Z.leb_spec (len (Reader.buf b)) (len p)); [|lia].
  rewrite Hread. split.
  - cbn. unfold Reader.with_err, Reader.with_rd. cbn. rewrite He. reflexivity.
  - eapply stream_Read_calls; eauto.
Qed.

(** X9. [ReadByte] on a stream that has no [ReadByte] of its own is
    [Pop(1)]: with at least one byte buffered it returns the first unread
    byte and advances the cursor by one, without calling the stream, and
    when [Pop(1)] fails it returns [0] with that error.  On a stream that
    has a [ReadByte], the call goes straight to the stream: the byte and
    error come from there, and the buffer, the cursors and the stored error
    are as before, so unread buffered bytes are passed over. *)
Theorem ReadByte_paths (b : @Reader.t S) :
  (reader_wf b -> 0 < Reader.Buffered b ->
   Reader.ReadByte rd_Read None b
     = Ret (nth 0 (unread b) x00, None, Reader.with_r b (Reader.r b + 1))) /\
  (forall d e b', Reader.Pop rd_Read b 1 = Ret (d, Some e, b') ->
     Reader.ReadByte rd_Read None b = Ret (x00, Some e, b')) /\
  (forall readByte c e st', readByte (Reader.st (Reader.rd b)) = (c, e, st') ->
     exists b',
       Reader.ReadByte rd_Read (Some readByte) b = Ret (c, e, b') /\
       unread b' = unread b /\ Reader.r b' = Reader.r b /\
       Reader.err b' = Reader.err b /\
       Reader.calls (Reader.rd b') = Reader.calls (Reader.rd b) /\
       Reader.st (Reader.rd b') = st').
Proof.
  split; [|split].
  - intros Hwf Hb. unfold Reader.ReadByte, Reader.Pop.
    assert (Hcap : 1 <= len (Reader.buf b)).
    { destruct Hwf as (Hr & Hw). unfold Reader.Buffered in *. lia. }
    rewrite (Peek_buffered rd_Read b 1) by lia. cbn [bind].
    rewrite (unread_front b 1 Hwf) by lia.
    pose proof (len_unread b Hwf) as Hlen.
    destruct (unread b) as [|c rest] eqn:Eu.
    + unfold len in Hlen. cbn in Hlen. lia.
    + reflexivity.
  - intros d e b' H. unfold Reader.ReadByte. rewrite H. reflexivity.
  - intros readByte c e st' H. unfold Reader.ReadByte. rewrite H.
    eexists. split; [reflexivity|]. repeat split.
Qed.

End ReaderData.

(** ** The Writer hands on the bytes it is given, in order *)

Lemma slice_copy_into_keep (b d : list byte) (hi : Z) :
  0 <= hi <= len b -> slice (copy_into b hi d) 0 hi = slice b 0 hi.
Proof.
  intros H. unfold slice, copy_into, len in *. change (Z.to_nat 0) with O.
  cbn [skipn]. rewrite !Z.sub_0_r.
  rewrite firstn_app, length_firstn.
  replace (Z.to_nat hi - Nat.min (Z.to_nat hi) (length b))%nat with O by lia.
  cbn [firstn]. rewrite app_nil_r, firstn_firstn. f_equal. lia.
Qed.

Lemma slice_front_append (b d : list byte) (hi : Z) :
  0 <= hi -> hi + len d <= len b ->
  slice (copy_into b hi d) 0 (hi + len d) = slice b 0 hi ++ d.
Proof. intros H1 H2. apply slice_copy_into_append; lia. Qed.

Lemma slice_whole_window (b d : list byte) (lo : Z) :
  0 <= lo -> lo + len d <= len b ->
  slice (copy_into b lo d) lo (lo + len d) = d.
Proof.
  intros H1 H2.
  rewrite (slice_copy_into_append b d lo lo) by lia.
  now rewrite slice_empty.
Qed.

Section WriterData.

Context {T : Type}.
Variable wr_Write : T -> list byte -> write_reply * T.

Lemma stream_Write_calls (s s' : Writer.stream) (p : list byte) (rep : write_reply) :
  Writer.stream_Write wr_Write s p = (rep, s') ->
  Writer.calls s' = p :: Writer.calls s /\ rep = fst (wr_Write (Writer.st s) p).
Proof.
  unfold Writer.stream_Write. destruct (wr_Write (Writer.st s) p) as [rep0 st'].
  intros H. inversion H. split; reflexivity.
Qed.

Lemma handed_cons (s s' : @Writer.stream T) (p : list byte) :
  Writer.calls s' = p :: Writer.calls s -> handed s' = handed s ++ p.
Proof.
  unfold handed. intros ->. cbn [rev]. rewrite concat_app. cbn. now rewrite app_nil_r.
Qed.

(** What [flush] does on a Writer without error that holds bytes. *)
Lemma flush_step (b : @Writer.t T) :
  Writer.err b = None -> Writer.n b <> 0 ->
  exists k e0 s',
    Writer.stream_Write wr_Write (Writer.wr b) (pending b) = (WReply k e0, s') /\
    Writer.calls s' = pending b :: Writer.calls (Writer.wr b) /\
    WReply k e0 = fst (wr_Write (Writer.st (Writer.wr b)) (pending b)) /\
    ((k < Writer.n b \/ e0 <> None) ->
       exists e, Writer.flush wr_Write b
                 = (Some e, {| Writer.err := Some e;
                               Writer.buf := if (0 <? k) && (k <? Writer.n b)
                                             then copy_into (Writer.buf b) 0
                                                    (slice (Writer.buf b) k (Writer.n b))
                                             else Writer.buf b;
                               Writer.n := Writer.n b - k; Writer.wr := s' |})) /\
    (Writer.n b <= k -> e0 = None ->
       Writer.flush wr_Write b
       = (None, {| Writer.err := None; Writer.buf := Writer.buf b;
                   Writer.n := 0; Writer.wr := s' |})).
Proof.
  intros He Hn. unfold Writer.flush, pending. rewrite He. cbn [is_nil negb].
  destruct (Z.eqb_spec (Writer.n b) 0); [contradiction|].
  destruct (Writer.stream_Write wr_Write (Writer.wr b) (slice (Writer.buf b) 0 (Writer.n b)))
    as [[k e0] s'] eqn:E.
  destruct (stream_Write_calls _ _ _ _ E) as (Hc & Hrep).
  exists k, e0, s'. split; [reflexivity|]. split; [exact Hc|]. split; [exact Hrep|].
  split.
  - intros Hfail. destruct e0 as [x|]; cbn [is_nil].
    + rewrite andb_false_r. eauto.
    + destruct Hfail as [Hk|Hk]; [|congruence].
      destruct (Z.ltb_spec k (Writer.n b)); [|lia]. cbn [andb]. eauto.
  - intros Hk ->. cbn [is_nil]. destruct (Z.ltb_spec k (Writer.n b)); [lia|].
    cbn [andb]. reflexivity.
Qed.

Lemma flush_wf (b : @Writer.t T) :
  writes_fit wr_Write -> writer_wf b ->
  let (e, b') := Writer.Flush wr_Write b in
  writer_wf b' /\ len (Writer.buf b') = len (Writer.buf b) /\
  Writer.err b' = e /\ (e = None -> Writer.n b' = 0).
Proof.
  intros Hfit Hwf. unfold Writer.Flush.
  destruct (Writer.err b) as [x|] eqn:He.
  { rewrite (flush_failed wr_Write b x He). unfold writer_wf in *.
    repeat split; try lia; try assumption. discriminate. }
  destruct (Z.eq_dec (Writer.n b) 0) as [Hz|Hnz].
  { unfold Writer.flush. rewrite He. cbn [is_nil negb].
    destruct (Z.eqb_spec (Writer.n b) 0); [|contradiction].
    unfold writer_wf in *. repeat split; try lia; assumption. }
  destruct (flush_step b He Hnz) as (k & e0 & s' & _ & _ & Hrep & Hbad & Hgood).
  specialize (Hfit (Writer.st (Writer.wr b)) (pending b)). rewrite <- Hrep in Hfit.
  assert (Hlen : len (pending b) = Writer.n b).
  { unfold pending. rewrite len_slice; unfold writer_wf in Hwf; lia. }
  rewrite Hlen in Hfit.
  destruct (Z.eq_dec k (Writer.n b)) as [Hk|Hk]; [destruct e0 as [x|]|].
  - destruct (Hbad ltac:(right; discriminate)) as (e & ->).
    unfold writer_wf in *. cbn.
    destruct ((0 <? k) && (k <? Writer.n b)); rewrite ?len_copy_into;
      repeat split; try lia; discriminate.
  - rewrite (Hgood ltac:(lia) eq_refl). unfold writer_wf in *. cbn.
    repeat split; lia.
  - destruct (Hbad ltac:(left; lia)) as (e & ->).
    unfold writer_wf in *. cbn.
    destruct ((0 <? k) && (k <? Writer.n b)); rewrite ?len_copy_into;
      repeat split; try lia; discriminate.
Qed.

(** X10. Against a stream that keeps to the [io.Writer] contract, [Flush]
    keeps the Writer's invariant [0 <= n <= capacity] and its capacity; it
    returns [nil] exactly when no error is stored afterwards, and then the
    buffer is empty. *)
Theorem Flush_keeps_invariant (b : @Writer.t T) :
  writes_fit wr_Write -> writer_wf b ->
  let (e, b') := Writer.Flush wr_Write b in
  writer_wf b' /\ len (Writer.buf b') = len (Writer.buf b) /\
  Writer.err b' = e /\ (e = None -> Writer.n b' = 0).
Proof. exact (flush_wf b). Qed.

Lemma len_skipn_Z (p : list byte) (k : Z) :
  0 <= k <= len p -> len (skipn (Z.to_nat k) p) = len p - k.
Proof. unfold len. intros H. rewrite length_skipn. lia. Qed.

Lemma Write_loop_account (fuel : nat) :
  forall (b b1 : @Writer.t T) (p p1 : list byte) (nn nn1 : Z),
  writes_fit wr_Write -> writer_wf b ->
  Writer.Write_loop wr_Write fuel b p nn = Ret (b1, p1, nn1) ->
  writer_wf b1 /\ len (Writer.buf b1) = len (Writer.buf b) /\
  nn <= nn1 /\ nn1 - nn + len p1 = len p /\
  (Writer.err b1 = None -> len p1 <= Writer.Available b1).
Proof.
  induction fuel as [|f IH]; intros b b1 p p1 nn nn1 Hfit Hwf H;
    rewrite Write_loop_eq in H.
  - destruct ((Writer.Available b <? len p) && is_nil (Writer.err b)) eqn:Hc;
      [discriminate|].
    inversion H; subst. split; [exact Hwf|]. split; [reflexivity|].
    split; [lia|]. split; [lia|].
    intros He. rewrite He in Hc. cbn [is_nil] in Hc. rewrite andb_true_r in Hc.
    apply Z.ltb_ge in Hc. exact Hc.
  - destruct ((Writer.Available b <? len p) && is_nil (Writer.err b)) eqn:Hc.
    + apply andb_true_iff in Hc. destruct Hc as [Hav He]. apply Z.ltb_lt in Hav.
      pose proof (len_nonneg p) as Hp0.
      destruct (Z.eqb_spec (Writer.Buffered b) 0) as [Hz|Hnz].
      * destruct (Writer.stream_Write wr_Write (Writer.wr b) p) as [[k e] s'] eqn:E.
        destruct ((k <? 0) || (len p <? k)) eqn:Hk; [discriminate|].
        apply orb_false_iff in Hk. destruct Hk as [Hk1 Hk2].
        apply Z.ltb_ge in Hk1, Hk2.
        apply IH in H; [|exact Hfit|exact Hwf].
        cbn in H. rewrite len_skipn_Z in H by lia.
        destruct H as (H1 & H2 & H3 & H4 & H5).
        repeat split; try assumption; try apply H1; lia.
      * cbv zeta in H.
        set (k := copy_count (Writer.buf b) (Writer.n b) p) in *.
        assert (Hkv : k = len (Writer.buf b) - Writer.n b).
        { unfold k, copy_count, Writer.Available in *. lia. }
        set (b0 := {| Writer.err := Writer.err b;
                      Writer.buf := copy_into (Writer.buf b) (Writer.n b) p;
                      Writer.n := Writer.n b + k; Writer.wr := Writer.wr b |}) in *.
        assert (Hwf0 : writer_wf b0).
        { unfold writer_wf in *. cbn. rewrite len_copy_into. lia. }
        pose proof (flush_wf b0 Hfit Hwf0) as Hfl. unfold Writer.Flush in Hfl.
        destruct (Writer.flush wr_Write b0) as [e2 b2].
        destruct Hfl as (Hwf2 & Hl2 & _).
        apply IH in H; [|exact Hfit|exact Hwf2].
        unfold writer_wf in Hwf. unfold Writer.Available in Hav.
        rewrite len_skipn_Z in H by lia.
        destruct H as (H1 & H2 & H3 & H4 & H5).
        split; [exact H1|]. split; [rewrite H2, Hl2; cbn; apply len_copy_into|].
        split; [lia|]. split; [lia | exact H5].
    + inversion H; subst. split; [exact Hwf|]. split; [reflexivity|].
      split; [lia|]. split; [lia|].
      intros He. rewrite He in Hc. cbn [is_nil] in Hc. rewrite andb_true_r in Hc.
      apply Z.ltb_ge in Hc. exact Hc.
Qed.

(** X11. Against a stream that keeps to the contract, whenever [Write(p)]
    returns, the count [nn] lies in [0, len(p)], a [nil] error means that
    all of [p] was accepted ([nn = len(p)]), the error returned is the one
    stored, and the Writer keeps its invariant and its capacity. *)
Theorem Write_count_and_error
    (fuel : nat) (b b' : @Writer.t T) (p : list byte) (nn : Z) (e : option error) :
  writes_fit wr_Write -> writer_wf b ->
  Writer.Write wr_Write fuel b p = Ret (nn, e, b') ->
  0 <= nn <= len p /\ (e = None -> nn = len p) /\
  Writer.err b' = e /\
  writer_wf b' /\ len (Writer.buf b') = len (Writer.buf b).
Proof.
  intros Hfit Hwf H. unfold Writer.Write in H.
  destruct (Writer.Write_loop wr_Write fuel b p 0) as [[[b1 p1] nn1]| |] eqn:El;
    cbn [bind] in H; try discriminate.
  apply Write_loop_account in El; [|exact Hfit|exact Hwf].
  destruct El as (Hwf1 & Hl1 & Hn1 & Hsum & Hav).
  pose proof (len_nonneg p1) as Hp1.
  destruct (Writer.err b1) as [x|] eqn:He1.
  - inversion H; subst. repeat split; try apply Hwf1; try assumption; try lia.
    discriminate.
  - inversion H; subst. specialize (Hav eq_refl).
    unfold copy_count, writer_wf, Writer.Available in *. cbn.
    rewrite len_copy_into. repeat split; try lia.
Qed.

Lemma Write_fits (fuel : nat) (b : @Writer.t T) (p : list byte) :
  writer_wf b -> Writer.err b = None -> len p <= Writer.Available b ->
  exists b',
    Writer.Write wr_Write fuel b p = Ret (len p, None, b') /\
    Writer.wr b' = Writer.wr b /\ Writer.err b' = None /\
    Writer.n b' = Writer.n b + len p /\
    len (Writer.buf b') = len (Writer.buf b) /\
    pending b' = pending b ++ p.
Proof.
  intros Hwf He Hfits. unfold Writer.Write. rewrite Write_loop_eq.
  destruct (Z.ltb_spec (Writer.Available b) (len p)); [lia|]. cbn [andb bind].
  rewrite He. unfold writer_wf, Writer.Available in *.
  assert (Hk : copy_count (Writer.buf b) (Writer.n b) p = len p)
    by (unfold copy_count; lia).
  rewrite Hk. eexists. split; [reflexivity|]. cbn.
  split; [reflexivity|]. split; [reflexivity|]. split; [reflexivity|].
  split; [apply len_copy_into|].
  unfold pending. cbn. apply slice_front_append; lia.
Qed.

(** X12. A [Write(p)] that fits in the free part of the buffer of a Writer
    without error makes no call to the stream, whatever the fuel: it
    returns [len(p)] and [nil] and appends [p] to the pending bytes. *)
Theorem Write_that_fits_is_buffered (fuel : nat) (b : @Writer.t T) (p : list byte) :
  writer_wf b -> Writer.err b = None -> len p <= Writer.Available b ->
  exists b',
    Writer.Write wr_Write fuel b p = Ret (len p, None, b') /\
    Writer.wr b' = Writer.wr b /\ Writer.err b' = None /\
    Writer.n b' = Writer.n b + len p /\
    pending b' = pending b ++ p.
Proof.
  intros Hwf He Hfits.
  destruct (Write_fits fuel b p Hwf He Hfits) as (b' & H1 & H2 & H3 & H4 & _ & H6).
  exists b'. repeat split; assumption.
Qed.

Lemma copy_into_to_the_end (dst src : list byte) (off : Z) :
  0 <= off <= len dst -> len dst - off <= len src ->
  copy_into dst off src = slice dst 0 off ++ firstn (Z.to_nat (len dst - off)) src.
Proof.
  unfold copy_into, slice, len. intros H1 H2. change (Z.to_nat 0) with O.
  cbn [skipn]. rewrite Z.sub_0_r.
  replace (Nat.min (length src) (length dst - Z.to_nat off)) with (length dst - Z.to_nat off)%nat
    by lia.
  replace (Z.to_nat off + (length dst - Z.to_nat off))%nat with (length dst) by lia.
  rewrite skipn_all, app_nil_r. do 2 f_equal. lia.
Qed.

Lemma flush_accepting (b : @Writer.t T) :
  accepts_all wr_Write -> writer_wf b -> Writer.err b = None ->
  exists b',
    Writer.flush wr_Write b = (None, b') /\
    Writer.err b' = None /\ Writer.n b' = 0 /\ Writer.buf b' = Writer.buf b /\
    handed (Writer.wr b') = handed (Writer.wr b) ++ pending b /\
    (Writer.n b = 0 -> Writer.wr b' = Writer.wr b).
Proof.
  intros Hacc Hwf He.
  destruct (Z.eq_dec (Writer.n b) 0) as [Hz|Hnz].
  - exists b. unfold Writer.flush, pending. rewrite He, Hz. cbn.
    rewrite slice_empty, app_nil_r. repeat split; assumption.
  - destruct (flush_step b He Hnz) as (k & e0 & s' & _ & Hc & Hrep & _ & Hgood).
    rewrite Hacc in Hrep. inversion Hrep; subst k e0.
    assert (Hlen : len (pending b) = Writer.n b).
    { unfold pending. rewrite len_slice; unfold writer_wf in Hwf; lia. }
    rewrite (Hgood ltac:(lia) eq_refl). eexists. split; [reflexivity|]. cbn.
    repeat split; [now apply handed_cons | intros; contradiction].
Qed.

Lemma Write_loop_empty_accepting (fuel : nat) (b : @Writer.t T) (p : list byte) (nn : Z) :
  accepts_all wr_Write -> Writer.err b = None -> Writer.n b = 0 ->
  (1 <= fuel)%nat ->
  exists b1 p1,
    Writer.Write_loop wr_Write fuel b p nn = Ret (b1, p1, nn + (len p - len p1)) /\
    Writer.err b1 = None /\ Writer.n b1 = 0 /\ Writer.buf b1 = Writer.buf b /\
    len p1 <= len (Writer.buf b) /\
    handed (Writer.wr b1) ++ p1 = handed (Writer.wr b) ++ p.
Proof.
  intros Hacc He Hn Hfuel. rewrite Write_loop_eq. rewrite He. cbn [is_nil].
  rewrite andb_true_r. unfold Writer.Available, Writer.Buffered. rewrite Hn, Z.sub_0_r.
  pose proof (len_nonneg p) as Hp0. pose proof (len_nonneg (Writer.buf b)) as Hb0.
  destruct (Z.ltb_spec (len (Writer.buf b)) (len p)) as [Hbig|Hfits].
  - destruct fuel as [|f]; [lia|]. cbn [Z.eqb].
    destruct (Writer.stream_Write wr_Write (Writer.wr b) p) as [rep s'] eqn:E.
    destruct (stream_Write_calls _ _ _ _ E) as (Hc & Hrep).
    rewrite Hacc in Hrep. subst rep.
    destruct (Z.ltb_spec (len p) 0); [lia|].
    destruct (Z.ltb_spec (len p) (len p)); [lia|]. cbn [orb].
    rewrite Write_loop_eq. cbn [Writer.err Writer.buf Writer.n is_nil].
    unfold Writer.Available. cbn [Writer.buf Writer.n].
    assert (Hrest : skipn (Z.to_nat (len p)) p = []).
    { apply skipn_all2. unfold len. lia. }
    rewrite Hrest. change (len (@nil byte)) with 0.
    destruct (Z.ltb_spec (len (Writer.buf b) - 0) 0); [lia|]. cbn [andb].
    eexists _, []. split; [f_equal; f_equal; change (len (@nil byte)) with 0; lia|].
    cbn [Writer.err Writer.n Writer.buf Writer.wr].
    split; [reflexivity|]. split; [reflexivity|]. split; [reflexivity|].
    split; [change (len (@nil byte)) with 0; lia|].
    rewrite app_nil_r. now apply handed_cons.
  - exists b, p. split; [f_equal; f_equal; lia|]. repeat split; assumption.
Qed.

Lemma Write_conserves (fuel : nat) (b : @Writer.t T) (p : list byte) :
  accepts_all wr_Write -> writer_wf b -> Writer.err b = None ->
  (2 <= fuel)%nat ->
  exists b',
    Writer.Write wr_Write fuel b p = Ret (len p, None, b') /\
    writer_wf b' /\ Writer.err b' = None /\
    len (Writer.buf b') = len (Writer.buf b) /\
    handed (Writer.wr b') ++ pending b' = handed (Writer.wr b) ++ pending b ++ p.
Proof.
  intros Hacc Hwf He Hfuel. pose proof (len_nonneg p) as Hp0.
  (* what the last lines of [Write] do after the loop *)
  assert (Hfinal : forall (b1 : @Writer.t T) (p1 : list byte) (nn1 : Z) (front : list byte),
    Writer.Write_loop wr_Write fuel b p 0 = Ret (b1, p1, nn1) ->
    nn1 + len p1 = len p ->
    Writer.err b1 = None -> Writer.n b1 = 0 ->
    len (Writer.buf b1) = len (Writer.buf b) -> len p1 <= len (Writer.buf b) ->
    handed (Writer.wr b1) ++ p1 = handed (Writer.wr b) ++ pending b ++ p ->
    exists b',
      Writer.Write wr_Write fuel b p = Ret (len p, None, b') /\
      writer_wf b' /\ Writer.err b' = None /\
      len (Writer.buf b') = len (Writer.buf b) /\
      handed (Writer.wr b') ++ pending b' = handed (Writer.wr b) ++ pending b ++ p).
  { intros b1 p1 nn1 front Hl Hsum He1 Hn1 Hlen1 Hp1 Hh.
    pose proof (len_nonneg p1) as Hp10.
    unfold Writer.Write. rewrite Hl. cbn [bind]. rewrite He1.
    assert (Hk : copy_count (Writer.buf b1) (Writer.n b1) p1 = len p1)
      by (unfold copy_count; lia).
    rewrite Hk. eexists. split; [f_equal; f_equal; f_equal; lia|].
    unfold writer_wf, pending. cbn. rewrite len_copy_into, Hn1.
    split; [lia|]. split; [reflexivity|]. split; [exact Hlen1|].
    rewrite slice_whole_window by lia. exact Hh. }
  destruct (Z.ltb_spec (Writer.Available b) (len p)) as [Hbig|Hfits].
  - destruct (Z.eq_dec (Writer.n b) 0) as [Hz|Hnz].
    + destruct (Write_loop_empty_accepting fuel b p 0 Hacc He Hz ltac:(lia))
        as (b1 & p1 & Hl & He1 & Hn1 & Hb1 & Hp1 & Hh).
      apply (Hfinal b1 p1 _ [] Hl); try assumption; try lia.
      * now rewrite Hb1.
      * unfold pending. rewrite Hz, slice_empty. exact Hh.
    + destruct fuel as [|f]; [lia|].
      unfold writer_wf, Writer.Available in *.
      set (k := copy_count (Writer.buf b) (Writer.n b) p).
      assert (Hkv : k = len (Writer.buf b) - Writer.n b) by (unfold k, copy_count; lia).
      set (b0 := {| Writer.err := Writer.err b;
                    Writer.buf := copy_into (Writer.buf b) (Writer.n b) p;
                    Writer.n := Writer.n b + k; Writer.wr := Writer.wr b |}).
      assert (Hwf0 : writer_wf b0).
      { unfold writer_wf. cbn. rewrite len_copy_into. lia. }
      destruct (flush_accepting b0 Hacc Hwf0 He)
        as (b2 & Hfl & He2 & Hn2 & Hb2 & Hh2 & _).
      assert (Hpend0 : pending b0 = pending b ++ firstn (Z.to_nat k) p).
      { unfold pending. cbn. rewrite copy_into_to_the_end by lia.
        rewrite <- Hkv.
        replace (Writer.n b + k) with (len (slice (Writer.buf b) 0 (Writer.n b) ++
                                           firstn (Z.to_nat k) p)).
        - unfold slice at 1. change (Z.to_nat 0) with O. cbn [skipn].
          rewrite Z.sub_0_r. unfold len. rewrite Nat2Z.id. apply firstn_all.
        - rewrite len_app, len_slice, len_firstn_le by lia. lia. }
      destruct (Write_loop_empty_accepting f b2 (skipn (Z.to_nat k) p) (0 + k)
                  Hacc He2 Hn2 ltac:(lia))
        as (b1 & p1 & Hl & He1 & Hn1 & Hb1 & Hp1 & Hh).
      assert (Hloop : Writer.Write_loop wr_Write (Datatypes.S f) b p 0
                      = Ret (b1, p1, 0 + k + (len (skipn (Z.to_nat k) p) - len p1))).
      { rewrite Write_loop_eq.
        replace (is_nil (Writer.err b)) with true by (rewrite He; reflexivity).
        rewrite andb_true_r.
        unfold Writer.Available, Writer.Buffered.
        destruct (Z.ltb_spec (len (Writer.buf b) - Writer.n b) (len p)); [|lia].
        destruct (Z.eqb_spec (Writer.n b) 0); [contradiction|].
        cbv zeta. fold k. fold b0. rewrite Hfl. exact Hl. }
      rewrite len_skipn_Z in Hloop by lia.
      apply (Hfinal b1 p1 _ [] Hloop); try assumption; try lia.
      * rewrite Hb1, Hb2. cbn. apply len_copy_into.
      * rewrite Hb2 in Hp1. cbn in Hp1. rewrite len_copy_into in Hp1. exact Hp1.
      * rewrite Hh, Hh2, Hpend0. rewrite <- !app_assoc. do 2 f_equal.
        apply firstn_skipn.
  - destruct (Write_fits fuel b p Hwf He Hfits)
      as (b' & Hw & Hwr & He' & Hn' & Hl' & Hp').
    exists b'. split; [exact Hw|].
    unfold writer_wf, Writer.Available in *.
    split; [lia|]. split; [exact He'|]. split; [exact Hl'|].
    rewrite Hwr, Hp'. reflexivity.
Qed.

(** X13. Against a stream that takes everything it is handed, [Write(p)]
    on a well-formed Writer without error returns [len(p)] and [nil] within
    two turns of its loop, and no byte is lost or reordered: the bytes
    handed to the stream followed by the bytes pending are, after the call,
    what they were before followed by [p].  A [Flush] then hands the pending
    bytes over, so the stream has received everything and the buffer is
    empty. *)
Theorem Write_then_Flush_delivers_everything
    (fuel : nat) (b : @Writer.t T) (p : list byte) :
  accepts_all wr_Write -> writer_wf b -> Writer.err b = None ->
  (2 <= fuel)%nat ->
  exists b1 b2,
    Writer.Write wr_Write fuel b p = Ret (len p, None, b1) /\
    writer_wf b1 /\
    handed (Writer.wr b1) ++ pending b1 = handed (Writer.wr b) ++ pending b ++ p /\
    Writer.Flush wr_Write b1 = (None, b2) /\
    Writer.n b2 = 0 /\ Writer.err b2 = None /\
    handed (Writer.wr b2) = handed (Writer.wr b) ++ pending b ++ p.
Proof.
  intros Hacc Hwf He Hfuel.
  destruct (Write_conserves fuel b p Hacc Hwf He Hfuel) as (b1 & Hw & Hwf1 & He1 & _ & Hh1).
  destruct (flush_accepting b1 Hacc Hwf1 He1) as (b2 & Hf & He2 & Hn2 & _ & Hh2 & _).
  exists b1, b2. unfold Writer.Flush.
  split; [exact Hw|]. split; [exact Hwf1|]. split; [exact Hh1|].
  split; [exact Hf|]. split; [exact Hn2|]. split; [exact He2|].
  rewrite Hh2. exact Hh1.
Qed.

(** X14. [Write(p)] on a Writer with an empty buffer and no error, with [p]
    larger than the buffer, hands [p] itself to the stream in one call and
    copies nothing: when the stream takes all of [p], or reports an error,
    [Write] returns the stream's count and error, the buffer stays empty,
    and the error, if any, is stored. *)
Theorem Write_large_goes_direct
    (f : nat) (b : @Writer.t T) (p : list byte) (k : Z) (e : option error)
    (s' : Writer.stream) :
  Writer.n b = 0 -> Writer.err b = None -> len (Writer.buf b) < len p ->
  Writer.stream_Write wr_Write (Writer.wr b) p = (WReply k e, s') ->
  0 <= k <= len p -> e <> None \/ k = len p ->
  exists b',
    Writer.Write wr_Write (Datatypes.S f) b p = Ret (k, e, b') /\
    Writer.buf b' = Writer.buf b /\ Writer.n b' = 0 /\
    Writer.err b' = e /\ Writer.wr b' = s' /\
    Writer.calls s' = p :: Writer.calls (Writer.wr b).
Proof.
  intros Hn He Hbig Hreply Hk Hdone.
  destruct (stream_Write_calls _ _ _ _ Hreply) as (Hc & _).
  pose proof (len_nonneg (Writer.buf b)) as Hb0.
  unfold Writer.Write. rewrite Write_loop_eq.
  unfold Writer.Available, Writer.Buffered. rewrite He, Hn, Z.sub_0_r.
  destruct (Z.ltb_spec (len (Writer.buf b)) (len p)); [|lia].
  cbn [is_nil andb Z.eqb]. rewrite Hreply.
  destruct (Z.ltb_spec k 0); [lia|]. destruct (Z.ltb_spec (len p) k); [lia|].
  cbn [orb]. rewrite Write_loop_eq. cbn [Writer.err Writer.buf Writer.n].
  destruct e as [x|].
  - cbn [is_nil]. rewrite andb_false_r. cbn [bind Writer.err].
    eexists. split; [reflexivity|]. cbn. repeat split; assumption.
  - destruct Hdone as [Hd|Hd]; [congruence|]. subst k.
    assert (Hrest : skipn (Z.to_nat (len p)) p = []).
    { apply skipn_all2. unfold len. lia. }
    rewrite Hrest. unfold Writer.Available. cbn [Writer.buf Writer.n].
    change (len (@nil byte)) with 0. rewrite Z.sub_0_r.
    destruct (Z.ltb_spec (len (Writer.buf b)) 0); [lia|].
    cbn [andb bind Writer.err Writer.buf Writer.n Writer.wr].
    rewrite copy_into_nil.
    assert (Hz : copy_count (Writer.buf b) 0 [] = 0).
    { unfold copy_count. change (len (@nil byte)) with 0. lia. }
    rewrite Hz. eexists. split; [f_equal; f_equal; f_equal; lia|].
    cbn. repeat split; assumption.
Qed.

(** X15. [Peek(k)] on a Writer without error, with [0 <= k <= capacity]:
    when [k] bytes are free it makes no call to the stream and hands out
    the window right after the pending bytes, counting it as pending at
    once; otherwise it flushes exactly once, and then either hands out the
    window at the start of the emptied buffer or returns the error of that
    flush. *)
Theorem Peek_reserves_window (b : @Writer.t T) (k : Z) :
  Writer.err b = None -> 0 <= k <= len (Writer.buf b) ->
  (k <= Writer.Available b ->
   Writer.Peek wr_Write b k
   = Ret ((Writer.n b, Writer.n b + k), None,
          {| Writer.err := None; Writer.buf := Writer.buf b;
             Writer.n := Writer.n b + k; Writer.wr := Writer.wr b |})) /\
  (Writer.Available b < k ->
   match Writer.flush wr_Write b with
   | (None, b1) =>
       Writer.Peek wr_Write b k
       = Ret ((0, k), None,
              {| Writer.err := None; Writer.buf := Writer.buf b;
                 Writer.n := k; Writer.wr := Writer.wr b1 |})
   | (Some x, b1) =>
       Writer.Peek wr_Write b k = Ret (Writer.nil_window, Some x, b1)
   end).
Proof.
  intros He Hk. unfold Writer.Peek.
  destruct (Z.ltb_spec k 0); [lia|].
  destruct (Z.ltb_spec (len (Writer.buf b)) k); [lia|].
  split; intros Hav.
  - rewrite WPeek_loop_eq. destruct (Z.ltb_spec (Writer.Available b) k); [lia|].
    cbn [andb bind]. rewrite He. reflexivity.
  - assert (Hnz : Writer.n b <> 0) by (unfold Writer.Available in Hav; lia).
    rewrite WPeek_loop_eq. destruct (Z.ltb_spec (Writer.Available b) k); [|lia].
    rewrite He. cbn [is_nil andb].
    destruct (flush_step b He Hnz) as (j & e0 & s' & _ & _ & _ & Hbad & Hgood).
    destruct (Z.lt_ge_cases j (Writer.n b)) as [Hj|Hj]; [|destruct e0 as [x|]].
    + destruct (Hbad ltac:(left; exact Hj)) as (x & ->). cbn [snd].
      rewrite WPeek_loop_eq. cbn [Writer.err is_nil]. rewrite andb_false_r.
      reflexivity.
    + destruct (Hbad ltac:(right; discriminate)) as (y & ->). cbn [snd].
      rewrite WPeek_loop_eq. cbn [Writer.err is_nil]. rewrite andb_false_r.
      reflexivity.
    + rewrite (Hgood Hj eq_refl). cbn [snd].
      rewrite WPeek_loop_eq. unfold Writer.Available. cbn [Writer.err Writer.buf Writer.n].
      destruct (Z.ltb_spec (len (Writer.buf b) - 0) k); [lia|]. reflexivity.
Qed.

End WriterData.

(** ** More on the codec *)

Lemma to_byte_eq (v : Z) (b : byte) : v mod 256 = byte_val b -> to_byte v = b.
Proof.
  unfold to_byte, byte_val. intros H. rewrite H, N2Z.id, Byte.of_to_N. reflexivity.
Qed.

Lemma testbit_byte_high (b : byte) (i : Z) : 8 <= i -> Z.testbit (byte_val b) i = false.
Proof.
  intros Hi. apply (testbit_above 8); [lia | | exact Hi].
  pose proof (byte_val_range b). change (2 ^ 8) with 256. lia.
Qed.

Lemma lor_range (w a b : Z) :
  0 <= w -> 0 <= a < 2 ^ w -> 0 <= b < 2 ^ w -> 0 <= Z.lor a b < 2 ^ w.
Proof.
  intros Hw Ha Hb.
  assert (Hn : 0 <= Z.lor a b) by (apply Z.lor_nonneg; lia).
  split; [exact Hn|].
  assert (Hm : Z.lor a b = Z.lor a b mod 2 ^ w).
  { apply Z.bits_inj'. intros i Hi. rewrite Z.testbit_mod_pow2 by lia.
    destruct (Z.ltb_spec i w); [reflexivity|]. cbn [andb].
    rewrite Z.lor_spec, (testbit_above w a i), (testbit_above w b i) by lia.
    reflexivity. }
  rewrite Hm. apply Z.mod_pos_bound. lia.
Qed.

Lemma shl_range (w x k : Z) : 0 <= w -> 0 <= shl w x k < 2 ^ w.
Proof. intros Hw. unfold shl. apply Z.mod_pos_bound. lia. Qed.

Lemma byte_val_uint (w : Z) (b : byte) : 8 <= w -> 0 <= byte_val b < 2 ^ w.
Proof.
  intros Hw. pose proof (byte_val_range b).
  assert (2 ^ 8 <= 2 ^ w) by (apply Z.pow_le_mono_r; lia).
  change (2 ^ 8) with 256 in *. lia.
Qed.

Ltac codec_unfold :=
  cbv [GetUint16LE PutUint16LE GetUint16BE PutUint16BE
       GetUint32LE PutUint32LE GetUint32BE PutUint32BE
       GetUint64LE PutUint64LE GetUint64BE PutUint64BE
       binary.LittleEndian_Uint16 binary.LittleEndian_PutUint16
       binary.BigEndian_Uint16 binary.BigEndian_PutUint16
       binary.LittleEndian_Uint32 binary.LittleEndian_PutUint32
       binary.BigEndian_Uint32 binary.BigEndian_PutUint32
       binary.LittleEndian_Uint64 binary.LittleEndian_PutUint64
       binary.BigEndian_Uint64 binary.BigEndian_PutUint64].

(** A value put together from bytes lies in the range of its type. *)
Ltac word_in_range :=
  unfold is_uint, at_;
  repeat first [ apply lor_range; [lia | | ]
               | apply shl_range; lia
               | apply byte_val_uint; lia ].

(** Byte [i] of a word put together from bytes is the byte it was put
    together from. *)
Ltac byte_of_word :=
  apply to_byte_eq; unfold at_; cbn [nth];
  apply Z.bits_inj';
  let i := fresh "i" in
  let Hi := fresh "Hi" in
  intros i Hi;
  rewrite testbit_low8 by lia;
  rewrite ?Z.shiftr_spec by lia;
  destruct (Z.ltb_spec i 8);
  [ cbn [andb];
    repeat rewrite Z.lor_spec;
    repeat (rewrite testbit_shl by lia);
    repeat decide_cmp; cbn [andb orb];
    repeat match goal with
           | |- context [Z.testbit (byte_val ?b) ?j] =>
               rewrite (testbit_byte_high b j) by lia
           end;
    rewrite ?orb_false_r; cbn [orb]; f_equal; lia
  | cbn [andb]; symmetry; apply testbit_byte_high; lia ].

Lemma codec_short_window :
  Forall (fun c => let '(w, k, get, put) := c in
            forall (b : list byte) (v : Z),
              (length b < k)%nat -> get b = None /\ put b v = None)
         uint_codecs.
Proof.
  unfold uint_codecs.
  repeat (apply Forall_cons;
          [cbv beta iota zeta; intros b v Hb; codec_unfold;
           match goal with
           | |- context [(length b <? ?k)%nat] => destruct (Nat.ltb_spec (length b) k)
           end; [split; reflexivity | lia]|]).
  apply Forall_nil.
Qed.

Lemma codec_long_window :
  Forall (fun c => let '(w, k, get, put) := c in
            forall (b : list byte) (v : Z),
              (k <= length b)%nat ->
              exists u b',
                get b = Some u /\ is_uint w u /\
                put b v = Some b' /\ length b' = length b /\
                skipn k b' = skipn k b)
         uint_codecs.
Proof.
  unfold uint_codecs.
  apply Forall_cons; [|apply Forall_cons].
  1, 2: cbv beta iota zeta; intros b v Hb;
    destruct b as [|b0 [|b1 b]]; cbn [length] in Hb; try lia;
    codec_unfold; cbn [length Nat.ltb Nat.leb upd];
    eexists _, _; split; [reflexivity|]; split; [word_in_range|];
    split; [reflexivity|]; split; reflexivity.
  apply Forall_cons; [|apply Forall_cons].
  1, 2: cbv beta iota zeta; intros b v Hb;
    destruct b as [|b0 [|b1 [|b2 [|b3 b]]]]; cbn [length] in Hb; try lia;
    codec_unfold; cbn [length Nat.ltb Nat.leb upd];
    eexists _, _; split; [reflexivity|]; split; [word_in_range|];
    split; [reflexivity|]; split; reflexivity.
  apply Forall_cons; [|apply Forall_cons].
  1, 2: cbv beta iota zeta; intros b v Hb;
    destruct b as [|b0 [|b1 [|b2 [|b3 [|b4 [|b5 [|b6 [|b7 b]]]]]]]];
    cbn [length] in Hb; try lia;
    codec_unfold; cbn [length Nat.ltb Nat.leb upd];
    eexists _, _; split; [reflexivity|]; split; [word_in_range|];
    split; [reflexivity|]; split; reflexivity.
  apply Forall_nil.
Qed.

(** X16. Each unsigned decoder and encoder of the codec panics exactly on
    a window shorter than its width.  On a longer window the decoder
    returns a value of its width, and the encoder keeps the length of the
    window and leaves every byte past the width as it was. *)
Theorem codec_window_bounds :
  Forall (fun c => let '(w, k, get, put) := c in
            forall (b : list byte) (v : Z),
              ((length b < k)%nat -> get b = None /\ put b v = None) /\
              ((k <= length b)%nat ->
               exists u b',
                 get b = Some u /\ is_uint w u /\
                 put b v = Some b' /\ length b' = length b /\
                 skipn k b' = skipn k b))
         uint_codecs.
Proof.
  pose proof codec_short_window as Hs. pose proof codec_long_window as Hl.
  rewrite Forall_forall in *. intros [[[w k] get] put] Hin b v.
  split; [apply (Hs _ Hin) | apply (Hl _ Hin)].
Qed.

Ltac exact_window b H :=
  repeat (destruct b as [|? b]; cbn [length] in H; try lia); clear H.

Ltac encode_decoded :=
  let b := fresh "b" in
  let b' := fresh "b'" in
  let u := fresh "u" in
  let Hb := fresh "Hb" in
  let Hb' := fresh "Hb'" in
  let Hg := fresh "Hg" in
  cbv beta iota zeta; intros b b' u Hb Hb' Hg;
  exact_window b Hb; exact_window b' Hb';
  revert Hg; codec_unfold; cbn [length Nat.ltb Nat.leb upd];
  intros Hg; inversion Hg as [Hu]; clear Hg Hu;
  repeat (f_equal; try byte_of_word).

(** X17. Encoding what was decoded gives the window back: when a decoder
    of the codec returns [u] on a window of exactly its width, the matching
    encoder, given [u], writes those very bytes into any window of that
    width.  So decoding is one-to-one on windows, and with the round trip
    of encoding the codec is a bijection between values and windows. *)
Theorem encode_after_decode :
  Forall (fun c => let '(w, k, get, put) := c in
            forall (b b' : list byte) (u : Z),
              length b = k -> length b' = k ->
              get b = Some u -> put b' u = Some b)
         uint_codecs.
Proof.
  unfold uint_codecs.
  apply Forall_cons; [encode_decoded|].
  apply Forall_cons; [encode_decoded|].
  apply Forall_cons; [encode_decoded|].
  apply Forall_cons; [encode_decoded|].
  apply Forall_cons; [encode_decoded|].
  apply Forall_cons; [encode_decoded|].
  apply Forall_nil.
Qed.

(** ** Signed values *)

Lemma conversions_undo (w i u : Z) :
  0 < w -> is_int w i -> is_uint w u ->
  (is_uint w (to_unsigned w i) /\ to_signed w (to_unsigned w i) = i) /\
  (is_int w (to_signed w u) /\ to_unsigned w (to_signed w u) = u).
Proof.
  unfold is_int, is_uint, to_signed, to_unsigned. intros Hw Hi Hu.
  assert (Hp : 2 ^ w = 2 * 2 ^ (w - 1)).
  { replace w with (Z.succ (w - 1)) at 1 by lia. apply Z.pow_succ_r. lia. }
  assert (Hpos : 0 < 2 ^ (w - 1)) by (apply Z.pow_pos_nonneg; lia).
  split; split.
  - apply Z.mod_pos_bound. lia.
  - destruct (Z.lt_ge_cases i 0) as [Hneg|Hnn].
    + assert (Hm : i mod 2 ^ w = i + 2 ^ w).
      { symmetry. apply (Z.mod_unique i (2 ^ w) (-1)); lia. }
      rewrite Hm. destruct (Z.ltb_spec (i + 2 ^ w) (2 ^ (w - 1))); lia.
    + rewrite Z.mod_small by lia.
      destruct (Z.ltb_spec i (2 ^ (w - 1))); lia.
  - destruct (Z.ltb_spec u (2 ^ (w - 1))); lia.
  - destruct (Z.ltb_spec u (2 ^ (w - 1))).
    + apply Z.mod_small. lia.
    + symmetry. apply (Z.mod_unique (u - 2 ^ w) (2 ^ w) (-1)); lia.
Qed.

(** X18. The conversions between a signed and an unsigned type of the same
    width, as the signed helpers use them, undo each other: [intN(uintN(i))]
    is [i] for every [i] of the signed type, [uintN(intN(u))] is [u] for
    every [u] of the unsigned type, and each conversion lands in the range
    of its target type. *)
Theorem signed_unsigned_conversions (w i u : Z) :
  0 < w -> is_int w i -> is_uint w u ->
  (is_uint w (to_unsigned w i) /\ to_signed w (to_unsigned w i) = i) /\
  (is_int w (to_signed w u) /\ to_unsigned w (to_signed w u) = u).
Proof. exact (conversions_undo w i u). Qed.

(** ** What a write helper writes, the read helper reads *)

Section HelperRoundTrip.

Context {S T : Type}.
Variable rd_Read : S -> Z -> read_reply * S.
Variable wr_Write : T -> list byte -> write_reply * T.

Lemma reads_back_codec {V : Type} (zero : V) (k : Z) (ok : V -> Prop)
    (put : list byte -> V -> option (list byte)) (get : list byte -> option V) :
  0 <= k ->
  (forall win v, len win = k -> ok v ->
     exists enc, put win v = Some enc /\ len enc = k /\ get enc = Some v) ->
  reads_back k ok (Writer.peek_encode wr_Write k put)
             (Reader.pop_decode rd_Read zero k get).
Proof.
  intros Hk Hpair w v Hok He Hn Hfree.
  assert (Hwin : len (slice (Writer.buf w) (Writer.n w) (Writer.n w + k)) = k).
  { rewrite len_slice; lia. }
  destruct (Hpair _ v Hwin Hok) as (enc & Hput & Hlen & Hget).
  assert (Hpeek : Writer.Peek wr_Write w k
                  = Ret ((Writer.n w, Writer.n w + k), None,
                         {| Writer.err := None; Writer.buf := Writer.buf w;
                            Writer.n := Writer.n w + k; Writer.wr := Writer.wr w |})).
  { unfold Writer.Peek. destruct (Z.ltb_spec k 0); [lia|].
    destruct (Z.ltb_spec (len (Writer.buf w)) k); [lia|].
    rewrite WPeek_loop_eq. unfold Writer.Available.
    destruct (Z.ltb_spec (len (Writer.buf w) - Writer.n w) k); [lia|].
    cbn [andb bind]. rewrite He. reflexivity. }
  eexists _, enc. split.
  { unfold Writer.peek_encode. rewrite Hpeek. cbn [bind].
    unfold Writer.view. cbn [fst snd Writer.buf]. rewrite Hput. reflexivity. }
  cbn [Writer.store Writer.wr Writer.n fst].
  split; [reflexivity|]. split; [reflexivity|]. split; [exact Hlen|].
  split.
  { unfold pending, Writer.store. cbn [Writer.buf Writer.n fst].
    rewrite <- Hlen. apply slice_front_append; lia. }
  intros b Hwf Hbuf Henc.
  unfold Reader.pop_decode, Reader.Pop.
  assert (Hcap : k <= len (Reader.buf b)).
  { destruct Hwf as (Hr & Hw). unfold Reader.Buffered in *. lia. }
  rewrite (Peek_buffered rd_Read b k) by lia. cbn [bind].
  rewrite (unread_front b k Hwf) by lia.
  rewrite Henc, Hget. reflexivity.
Qed.

Lemma reads_back_signed (width k : Z)
    (write : @Writer.t T -> Z -> outcome (Z * option error * @Writer.t T))
    (read : @Reader.t S -> outcome (Z * option error * @Reader.t S)) :
  0 < width ->
  reads_back k (is_uint width) write read ->
  reads_back k (is_int width) (fun w v => write w (to_unsigned width v))
             (Reader.as_signed width read).
Proof.
  intros Hw Hrb w v Hok He Hn Hfree.
  assert (Hu : is_uint width 0).
  { unfold is_uint. split; [lia|]. apply Z.pow_pos_nonneg; lia. }
  destruct (conversions_undo width v 0 Hw Hok Hu) as ((Hrange & Hback) & _).
  destruct (Hrb w (to_unsigned width v) Hrange He Hn Hfree)
    as (w' & enc & H1 & H2 & H3 & H4 & H5 & H6).
  exists w', enc. repeat split; try assumption.
  intros b Hwf Hbuf Henc. unfold Reader.as_signed.
  rewrite (H6 b Hwf Hbuf Henc). cbn [bind]. rewrite Hback. reflexivity.
Qed.

Lemma reads_back_same_range {V : Type} (k : Z) (ok ok' : V -> Prop) (conv : V -> V)
    (write : @Writer.t T -> V -> outcome (Z * option error * @Writer.t T))
    (read : @Reader.t S -> outcome (V * option error * @Reader.t S)) :
  (forall v, ok' v -> ok v /\ conv v = v) ->
  reads_back k ok write read ->
  reads_back k ok' (fun w v => write w (conv v)) read.
Proof.
  intros Hconv Hrb w v Hok He Hn Hfree. destruct (Hconv v Hok) as [Hok' Hc].
  rewrite Hc. apply Hrb; assumption.
Qed.

Lemma uint_pair (w : Z) (k : nat) (get : list byte -> option Z)
    (put : list byte -> Z -> option (list byte)) :
  In (w, k, get, put) uint_codecs ->
  (forall win v, (k <= length win)%nat -> is_uint w v ->
     decode_after_encode put get win v = Some v) ->
  forall win v, len win = Z.of_nat k -> is_uint w v ->
    exists enc, put win v = Some enc /\ len enc = Z.of_nat k /\ get enc = Some v.
Proof.
  intros Hin Hrt win v Hlen Hok.
  pose proof codec_long_window as Hl. rewrite Forall_forall in Hl.
  specialize (Hl _ Hin). cbv beta iota zeta in Hl.
  assert (Hk : (k <= length win)%nat) by (unfold len in Hlen; lia).
  destruct (Hl win v Hk) as (u & enc & _ & _ & Hput & Hlenc & _).
  specialize (Hrt win v Hk Hok). unfold decode_after_encode in Hrt.
  rewrite Hput in Hrt. exists enc. split; [exact Hput|].
  split; [unfold len in *; lia | exact Hrt].
Qed.

Lemma float32_pair (get : list byte -> option Z)
    (put : list byte -> Z -> option (list byte)) :
  (forall win v, len win = 4 -> is_uint 32 v ->
     exists enc, put win v = Some enc /\ len enc = 4 /\ get enc = Some v) ->
  forall win (x : float32), len win = 4 -> float32_wf x ->
    exists enc, put win (Float32bits x) = Some enc /\ len enc = 4 /\
                option_map Float32frombits (get enc) = Some x.
Proof.
  intros Hp win [u] Hlen Hok. destruct (Hp win u Hlen Hok) as (enc & H1 & H2 & H3).
  exists enc. cbn [Float32bits]. rewrite H3. auto.
Qed.

Lemma float64_pair (get : list byte -> option Z)
    (put : list byte -> Z -> option (list byte)) :
  (forall win v, len win = 8 -> is_uint 64 v ->
     exists enc, put win v = Some enc /\ len enc = 8 /\ get enc = Some v) ->
  forall win (x : float64), len win = 8 -> float64_wf x ->
    exists enc, put win (Float64bits x) = Some enc /\ len enc = 8 /\
                option_map Float64frombits (get enc) = Some x.
Proof.
  intros Hp win [u] Hlen Hok. destruct (Hp win u Hlen Hok) as (enc & H1 & H2 & H3).
  exists enc. cbn [Float64bits]. rewrite H3. auto.
Qed.

Lemma uint8_pair (win : list byte) (v : Z) :
  len win = 1 -> is_uint 8 v ->
  exists enc, Writer.put8 win v = Some enc /\ len enc = 1 /\
              option_map byte_val (nth_error enc 0) = Some v.
Proof.
  intros Hlen Hok. destruct win as [|c [|c' rest]]; unfold len in Hlen;
    cbn [length] in Hlen; try lia.
  exists [to_byte v]. cbn. rewrite byte_val_to_byte.
  unfold is_uint in Hok. change (2 ^ 8) with 256 in Hok.
  rewrite Z.mod_small by lia. auto.
Qed.

(** X19. Every fixed-width write helper and the read helper of the same
    type and byte order are a pair: on a Writer without error that has the
    room, the write helper makes no call to the stream and appends the
    encoding of its value to the pending bytes, and a Reader whose next
    unread bytes are that encoding reads the value back and moves past it.
    This holds for the unsigned helpers on the values of their width, for
    the float helpers on every bit pattern, for the signed helpers on the
    values of their signed type, and for [WriteUintBE]/[WriteUintLE] with
    the 64-bit readers. *)
Theorem helpers_read_back_what_was_written :
  reads_back 1 (is_uint 8) (Writer.WriteUint8 wr_Write) (Reader.ReadUint8 rd_Read) /\
  reads_back 2 (is_uint 16) (Writer.WriteUint16BE wr_Write) (Reader.ReadUint16BE rd_Read) /\
  reads_back 2 (is_uint 16) (Writer.WriteUint16LE wr_Write) (Reader.ReadUint16LE rd_Read) /\
  reads_back 4 (is_uint 32) (Writer.WriteUint32BE wr_Write) (Reader.ReadUint32BE rd_Read) /\
  reads_back 4 (is_uint 32) (Writer.WriteUint32LE wr_Write) (Reader.ReadUint32LE rd_Read) /\
  reads_back 8 (is_uint 64) (Writer.WriteUint64BE wr_Write) (Reader.ReadUint64BE rd_Read) /\
  reads_back 8 (is_uint 64) (Writer.WriteUint64LE wr_Write) (Reader.ReadUint64LE rd_Read) /\
  reads_back 4 float32_wf (Writer.WriteFloat32BE wr_Write) (Reader.ReadFloat32BE rd_Read) /\
  reads_back 4 float32_wf (Writer.WriteFloat32LE wr_Write) (Reader.ReadFloat32LE rd_Read) /\
  reads_back 8 float64_wf (Writer.WriteFloat64BE wr_Write) (Reader.ReadFloat64BE rd_Read) /\
  reads_back 8 float64_wf (Writer.WriteFloat64LE wr_Write) (Reader.ReadFloat64LE rd_Read) /\
  reads_back 1 (is_int 8) (Writer.WriteInt8 wr_Write) (Reader.ReadInt8 rd_Read) /\
  reads_back 2 (is_int 16) (Writer.WriteInt16BE wr_Write) (Reader.ReadInt16BE rd_Read) /\
  reads_back 2 (is_int 16) (Writer.WriteInt16LE wr_Write) (Reader.ReadInt16LE rd_Read) /\
  reads_back 4 (is_int 32) (Writer.WriteInt32BE wr_Write) (Reader.ReadInt32BE rd_Read) /\
  reads_back 4 (is_int 32) (Writer.WriteInt32LE wr_Write) (Reader.ReadInt32LE rd_Read) /\
  reads_back 8 (is_int 64) (Writer.WriteInt64BE wr_Write) (Reader.ReadInt64BE rd_Read) /\
  reads_back 8 (is_int 64) (Writer.WriteInt64LE wr_Write) (Reader.ReadInt64LE rd_Read) /\
  reads_back 8 (is_uint 64) (Writer.WriteUintBE wr_Write) (Reader.ReadUint64BE rd_Read) /\
  reads_back 8 (is_uint 64) (Writer.WriteUintLE wr_Write) (Reader.ReadUint64LE rd_Read).
Proof.
  assert (P16L := uint_pair 16 2 GetUint16LE PutUint16LE ltac:(cbn; tauto)
                    (fun win v Hk Hok => proj1 (round_trip_16 win v Hk Hok))).
  assert (P16B := uint_pair 16 2 GetUint16BE PutUint16BE ltac:(cbn; tauto)
                    (fun win v Hk Hok => proj2 (round_trip_16 win v Hk Hok))).
  assert (P32L := uint_pair 32 4 GetUint32LE PutUint32LE ltac:(cbn; tauto)
                    (fun win v Hk Hok => proj1 (round_trip_32 win v Hk Hok))).
  assert (P32B := uint_pair 32 4 GetUint32BE PutUint32BE ltac:(cbn; tauto)
                    (fun win v Hk Hok => proj2 (round_trip_32 win v Hk Hok))).
  assert (P64L := uint_pair 64 8 GetUint64LE PutUint64LE ltac:(cbn; tauto)
                    (fun win v Hk Hok => proj1 (round_trip_64 win v Hk Hok))).
  assert (P64B := uint_pair 64 8 GetUint64BE PutUint64BE ltac:(cbn; tauto)
                    (fun win v Hk Hok => proj2 (round_trip_64 win v Hk Hok))).
  assert (U8 : reads_back 1 (is_uint 8) (Writer.WriteUint8 wr_Write)
                 (Reader.ReadUint8 rd_Read))
    by (apply (reads_back_codec 0 1 (is_uint 8) Writer.put8); [lia | exact uint8_pair]).
  assert (U16B : reads_back 2 (is_uint 16) (Writer.WriteUint16BE wr_Write)
                   (Reader.ReadUint16BE rd_Read))
    by (apply (reads_back_codec 0 2 (is_uint 16) PutUint16BE GetUint16BE); [lia | exact P16B]).
  assert (U16L : reads_back 2 (is_uint 16) (Writer.WriteUint16LE wr_Write)
                   (Reader.ReadUint16LE rd_Read))
    by (apply (reads_back_codec 0 2 (is_uint 16) PutUint16LE GetUint16LE); [lia | exact P16L]).
  assert (U32B : reads_back 4 (is_uint 32) (Writer.WriteUint32BE wr_Write)
                   (Reader.ReadUint32BE rd_Read))
    by (apply (reads_back_codec 0 4 (is_uint 32) PutUint32BE GetUint32BE); [lia | exact P32B]).
  assert (U32L : reads_back 4 (is_uint 32) (Writer.WriteUint32LE wr_Write)
                   (Reader.ReadUint32LE rd_Read))
    by (apply (reads_back_codec 0 4 (is_uint 32) PutUint32LE GetUint32LE); [lia | exact P32L]).
  assert (U64B : reads_back 8 (is_uint 64) (Writer.WriteUint64BE wr_Write)
                   (Reader.ReadUint64BE rd_Read))
    by (apply (reads_back_codec 0 8 (is_uint 64) PutUint64BE GetUint64BE); [lia | exact P64B]).
  assert (U64L : reads_back 8 (is_uint 64) (Writer.WriteUint64LE wr_Write)
                   (Reader.ReadUint64LE rd_Read))
    by (apply (reads_back_codec 0 8 (is_uint 64) PutUint64LE GetUint64LE); [lia | exact P64L]).
  assert (Hsame : forall v, is_uint 64 v -> is_uint 64 v /\ to_unsigned 64 v = v).
  { intros v Hv. split; [exact Hv|]. unfold to_unsigned, is_uint in *.
    apply Z.mod_small. exact Hv. }
  split; [exact U8|]. split; [exact U16B|]. split; [exact U16L|].
  split; [exact U32B|]. split; [exact U32L|]. split; [exact U64B|]. split; [exact U64L|].
  split; [apply (reads_back_codec (F32 0) 4 float32_wf PutFloat32BE GetFloat32BE);
          [lia | exact (float32_pair _ _ P32B)]|].
  split; [apply (reads_back_codec (F32 0) 4 float32_wf PutFloat32LE GetFloat32LE);
          [lia | exact (float32_pair _ _ P32L)]|].
  split; [apply (reads_back_codec (F64 0) 8 float64_wf PutFloat64BE GetFloat64BE);
          [lia | exact (float64_pair _ _ P64B)]|].
  split; [apply (reads_back_codec (F64 0) 8 float64_wf PutFloat64LE GetFloat64LE);
          [lia | exact (float64_pair _ _ P64L)]|].
  split; [exact (reads_back_signed 8 1 _ _ ltac:(lia) U8)|].
  split; [exact (reads_back_signed 16 2 _ _ ltac:(lia) U16B)|].
  split; [exact (reads_back_signed 16 2 _ _ ltac:(lia) U16L)|].
  split; [exact (reads_back_signed 32 4 _ _ ltac:(lia) U32B)|].
  split; [exact (reads_back_signed 32 4 _ _ ltac:(lia) U32L)|].
  split; [exact (reads_back_signed 64 8 _ _ ltac:(lia) U64B)|].
  split; [exact (reads_back_signed 64 8 _ _ ltac:(lia) U64L)|].
  split; [exact (reads_back_same_range 8 _ _ (to_unsigned 64) _ _ Hsame U64B)|].
  exact (reads_back_same_range 8 _ _ (to_unsigned 64) _ _ Hsame U64L).
Qed.

End HelperRoundTrip.

(** ** The outcome of [ReadBytes], and fresh Readers and Writers *)

Section ReadBytesResult.

Context {S : Type}.
Variable rd_Read : S -> Z -> read_reply * S.

Abbreviation delivered_over new := (concat (map delivered (rev new))).

(** X20. Whenever [ReadBytes(n)] returns, against calls that keep to the
    contract: the stream delivered at most [n] bytes, the error is [nil]
    exactly when it delivered [n], the bytes that did arrive are at the
    front of the slice returned, and [io.EOF] is returned only when nothing
    arrived at all (a stream that ends part-way gives another error).  With
    [n = 0] the stream is not called and the result is the empty slice and
    a [nil] error; with [n < 0] the call panics. *)
Theorem ReadBytes_succeeds_iff_all_delivered
    (fuel : nat) (b : @Reader.t S) (n : Z) :
  (forall d e b1, Reader.ReadBytes rd_Read fuel b n = Ret (d, e, b1) ->
     exists new,
       Reader.calls (Reader.rd b1) = new ++ Reader.calls (Reader.rd b) /\
       (forallb reply_fits new = true ->
          len (delivered_over new) <= n /\
          (e = None <-> len (delivered_over new) = n) /\
          firstn (length (delivered_over new)) d = delivered_over new /\
          (e = Some EOF -> delivered_over new = []))) /\
  (n = 0 ->
   exists b1, Reader.ReadBytes rd_Read fuel b n = Ret ([], None, b1) /\
              Reader.rd b1 = Reader.rd b /\ Reader.err b1 = None) /\
  (n < 0 -> Reader.ReadBytes rd_Read fuel b n = Panics PanicBounds).
Proof.
  split; [|split].
  - intros d e b1 H. apply ReadBytes_inv in H.
    destruct H as (Hn & n' & e' & s' & Hloop & He & Hb1).
    pose proof (len_make n Hn) as Hmk. rewrite Hmk in *.
    apply ReadAtLeast_loop_spec in Hloop.
    destruct Hloop as (L & X & new & C & _ & F). rewrite Hmk in *.
    exists new. split; [subst b1; exact C|].
    intros Hfit. destruct (F Hfit ltac:(lia)) as (F1 & F2 & F3).
    change (firstn (Z.to_nat 0) (make n)) with (@nil byte) in F3. cbn [app] in F3.
    pose proof (len_nonneg (delivered_over new)) as Hd0.
    assert (Hn' : n' = len (delivered_over new)) by lia.
    split; [lia|]. split; [|split].
    + split.
      * intros Hnil. rewrite Hnil in He. symmetry in He.
        apply full_read_error_nil in He.
        destruct He as [He|He]; [lia|]. destruct X as [X|X]; [lia | contradiction].
      * intros Hall. rewrite He. unfold full_read_error.
        destruct (Z.leb_spec n n'); [reflexivity | lia].
    + replace (length (delivered_over new)) with (Z.to_nat n')
        by (rewrite Hn'; unfold len; lia).
      exact F3.
    + intros Heof. rewrite Heof in He. unfold full_read_error in He.
      destruct (Z.leb_spec n n'); [discriminate|].
      destruct (Z.ltb_spec 0 n').
      * cbn [andb] in He. destruct e' as [[]|]; try discriminate.
      * assert (Hz : length (delivered_over new) = O) by (unfold len in *; lia).
        destruct (delivered_over new); [reflexivity | discriminate].
  - intros ->. unfold Reader.ReadBytes, Reader.ReadFull. cbn [Z.ltb Z.compare].
    rewrite ReadAtLeast_loop_eq. change (len (make 0)) with 0. cbn [Z.ltb Z.compare andb].
    cbn [bind full_read_error]. eexists. split; [reflexivity|]. split; reflexivity.
  - intros Hn. unfold Reader.ReadBytes. destruct (Z.ltb_spec n 0); [reflexivity | lia].
Qed.

End ReadBytesResult.

(** X21. Over a stream that is not itself a Reader or Writer of this
    package, a Reader made by [NewReaderSize] has a buffer of [max(size, 16)]
    bytes and a Writer made by [NewWriterSize] one of [size] bytes, or of
    4096 when [size <= 0]; both start empty, without error and well-formed.
    [Reset], on any Reader or Writer whatever its state, keeps the buffer
    and gives the same fresh state on the new stream, so a Writer that had
    failed takes a [Write] that fits in its buffer again. *)
Theorem fresh_and_reset_state
    {S T : Type} (wr_Write : T -> list byte -> write_reply * T)
    (s : @Reader.stream S) (t : @Writer.stream T) (size : Z)
    (b : @Reader.t S) (w : @Writer.t T) (fuel : nat) (p : list byte) :
  (let r0 := Reader.NewReaderSize s size in
   len (Reader.buf r0) = Z.max size 16 /\ reader_wf r0 /\
   Reader.Buffered r0 = 0 /\ Reader.err r0 = None /\ Reader.rd r0 = s) /\
  (let w0 := Writer.NewWriterSize t size in
   len (Writer.buf w0) = (if size <=? 0 then 4096 else size) /\ writer_wf w0 /\
   Writer.n w0 = 0 /\ Writer.err w0 = None /\ Writer.wr w0 = t) /\
  (let r1 := Reader.Reset b s in
   Reader.buf r1 = Reader.buf b /\ reader_wf r1 /\
   Reader.Buffered r1 = 0 /\ Reader.err r1 = None /\ Reader.rd r1 = s) /\
  (let w1 := Writer.Reset w t in
   Writer.buf w1 = Writer.buf w /\ writer_wf w1 /\ Writer.err w1 = None /\
   (len p <= len (Writer.buf w) ->
    exists w2, Writer.Write wr_Write fuel w1 p = Ret (len p, None, w2) /\
               pending w2 = p /\ Writer.wr w2 = t)).
Proof.
  split; [|split; [|split]]; cbv zeta.
  - unfold Reader.NewReaderSize, Reader.minReadBufferSize, Reader.reset, reader_wf,
      Reader.Buffered. cbn [Reader.buf Reader.r Reader.w Reader.err Reader.rd].
    destruct (Z.ltb_spec size 16); rewrite len_make by lia; repeat split; lia.
  - unfold Writer.NewWriterSize, Writer.defaultBufSize, writer_wf.
    cbn [Writer.buf Writer.n Writer.err Writer.wr].
    destruct (Z.leb_spec size 0); rewrite len_make by lia; repeat split; lia.
  - unfold Reader.Reset, Reader.reset, reader_wf, Reader.Buffered.
    cbn [Reader.buf Reader.r Reader.w Reader.err Reader.rd].
    pose proof (len_nonneg (Reader.buf b)). repeat split; lia.
  - assert (Hwf : writer_wf (Writer.Reset w t)).
    { unfold writer_wf. cbn. pose proof (len_nonneg (Writer.buf w)). lia. }
    split; [reflexivity|]. split; [exact Hwf|]. split; [reflexivity|].
    intros Hp.
    destruct (Write_fits wr_Write fuel (Writer.Reset w t) p Hwf eq_refl)
      as (w2 & H1 & H2 & _ & _ & _ & H6).
    { unfold Writer.Available. cbn. lia. }
    exists w2. split; [exact H1|]. split; [|exact H2].
    rewrite H6. unfold pending. cbn. now rewrite slice_empty.
Qed.

(** ** The further properties on concrete streams *)

(** The byte source keeps to the contract of [io.Reader], whatever its
    chunk size. *)
Lemma bytes_Read_fits (chunk : nat) : reads_fit (bytes_Read chunk).
Proof.
  intros s k Hk. unfold bytes_Read, reply_fits. destruct s as [|c s].
  - cbn. apply Z.leb_le. change (len (@nil byte)) with 0. lia.
  - cbn [fst snd]. apply Z.leb_le. unfold len.
    pose proof (length_firstn (Nat.min chunk (Z.to_nat k)) (c :: s)). lia.
Qed.

(** The limited sink keeps to the contract of [io.Writer], and the
    collecting sink takes everything. *)
Lemma sink_Write_fits (limit : nat) : writes_fit (sink_Write limit).
Proof. intros s p. unfold sink_Write, len. cbn. lia. Qed.

Lemma collect_Write_accepts_all : accepts_all collect_Write.
Proof. intros s p. reflexivity. Qed.

Lemma chunked_reader_wf (s : list byte) : reader_wf (chunked_reader s).
Proof. vm_compute. intuition discriminate. Qed.

Lemma peeked_reader_wf : reader_wf peeked_reader.
Proof. vm_compute. intuition discriminate. Qed.

Lemma loaded_writer_wf : writer_wf loaded_writer.
Proof. vm_compute. intuition discriminate. Qed.

Lemma fill_appends_delivered_bytes_witness :
  Reader.Buffered peeked_reader < len (Reader.buf peeked_reader) /\
  exists b' new,
    Reader.fill (bytes_Read 3) peeked_reader = Ret b' /\
    Reader.calls (Reader.rd b') = new ++ Reader.calls (Reader.rd peeked_reader) /\
    unread b' = unread peeked_reader ++ concat (map delivered (rev new)).
Proof.
  assert (Hlt : Reader.Buffered peeked_reader < len (Reader.buf peeked_reader))
    by (vm_compute; reflexivity).
  split; [exact Hlt|].
  destruct (fill_appends_delivered_bytes (bytes_Read 3) (bytes_Read_fits 3)
              peeked_reader peeked_reader_wf) as (H & _).
  destruct (H Hlt) as (b' & new & Hf & _ & _ & _ & Hc & Hu).
  exists b', new. split; [exact Hf|]. split; [exact Hc | exact Hu].
Defined.

Lemma Peek_returns_next_bytes_witness :
  0 <= 3 <= len (Reader.buf (chunked_reader bytes_1_to_6)) /\
  exists d e b' new,
    Reader.Peek (bytes_Read 1) (chunked_reader bytes_1_to_6) 3 = Ret (d, e, b') /\
    Reader.calls (Reader.rd b') = new ++ Reader.calls (Reader.rd (chunked_reader bytes_1_to_6)) /\
    unread b' = unread (chunked_reader bytes_1_to_6) ++ concat (map delivered (rev new)) /\
    d = firstn (Z.to_nat 3) (unread b') /\ (e = None <-> 3 <= Reader.Buffered b').
Proof.
  assert (Hn : 0 <= 3 <= len (Reader.buf (chunked_reader bytes_1_to_6)))
    by (vm_compute; split; discriminate).
  split; [exact Hn|].
  destruct (Peek_returns_next_bytes (bytes_Read 1) (bytes_Read_fits 1)
              (chunked_reader bytes_1_to_6) 3 (chunked_reader_wf _) Hn)
    as (d & e & b' & new & Hp & _ & _ & Hc & Hu & Hd & He).
  exists d, e, b', new. repeat (split; [assumption|]). exact He.
Defined.

Lemma Pop_consumes_next_bytes_witness :
  0 <= 3 <= len (Reader.buf (chunked_reader bytes_1_to_6)) /\
  exists d e b' new,
    Reader.Pop (bytes_Read 2) (chunked_reader bytes_1_to_6) 3 = Ret (d, e, b') /\
    (e = None ->
     len d = 3 /\
     d ++ unread b' =
     unread (chunked_reader bytes_1_to_6) ++ concat (map delivered (rev new))).
Proof.
  assert (Hn : 0 <= 3 <= len (Reader.buf (chunked_reader bytes_1_to_6)))
    by (vm_compute; split; discriminate).
  split; [exact Hn|].
  destruct (Pop_consumes_next_bytes (bytes_Read 2) (bytes_Read_fits 2)
              (chunked_reader bytes_1_to_6) 3 (chunked_reader_wf _) Hn)
    as (d & e & b' & new & Hp & _ & _ & _ & Hok & _).
  exists d, e, b', new. split; [exact Hp | exact Hok].
Defined.

Lemma Discard_skips_next_bytes_witness :
  0 < len (Reader.buf (chunked_reader bytes_1_to_6)) /\
  exists k e b' new,
    Reader.Discard (bytes_Read 2) (chunked_reader bytes_1_to_6) 20 = Ret (k, e, b') /\
    0 <= k <= 20 /\ (e = None <-> k = 20) /\
    unread b' =
    skipn (Z.to_nat k)
      (unread (chunked_reader bytes_1_to_6) ++ concat (map delivered (rev new))).
Proof.
  assert (Hc : 0 < len (Reader.buf (chunked_reader bytes_1_to_6)))
    by (vm_compute; reflexivity).
  split; [exact Hc|].
  destruct (Discard_skips_next_bytes (bytes_Read 2) (bytes_Read_fits 2)
              (chunked_reader bytes_1_to_6) 20 (chunked_reader_wf _) Hc ltac:(lia))
    as (k & e & b' & new & Hd & _ & _ & Hk & He & _ & Hu).
  exists k, e, b', new. repeat (split; [assumption|]). exact Hu.
Defined.

Lemma Discard_within_buffer_witness :
  0 <= 2 <= Reader.Buffered peeked_reader /\
  Reader.Discard (bytes_Read 3) peeked_reader 2
    = Ret (2, None, Reader.with_r peeked_reader (Reader.r peeked_reader + 2)).
Proof.
  assert (Hn : 0 <= 2 <= Reader.Buffered peeked_reader)
    by (vm_compute; split; discriminate).
  split; [exact Hn|].
  exact (Discard_within_buffer (bytes_Read 3) peeked_reader 2 Hn).
Defined.

Lemma Read_hands_on_next_bytes_witness :
  reader_wf (chunked_reader bytes_1_to_6) /\
  len (make 4) < len (Reader.buf (chunked_reader bytes_1_to_6)) /\
  exists p' k e b' new,
    Reader.Read (bytes_Read 2) (chunked_reader bytes_1_to_6) (make 4) = Ret (p', k, e, b') /\
    0 <= k <= len (make 4) /\
    firstn (Z.to_nat k) p' ++ unread b' =
    unread (chunked_reader bytes_1_to_6) ++ concat (map delivered (rev new)) /\
    skipn (Z.to_nat k) p' = skipn (Z.to_nat k) (make 4).
Proof.
  split; [apply chunked_reader_wf|].
  assert (Hl : len (make 4) < len (Reader.buf (chunked_reader bytes_1_to_6)))
    by (vm_compute; reflexivity).
  split; [exact Hl|].
  destruct (Read_hands_on_next_bytes (bytes_Read 2) (bytes_Read_fits 2)
              (chunked_reader bytes_1_to_6) (make 4) (chunked_reader_wf _))
    as (p' & k & e & b' & new & Hr & _ & _ & Hk & _ & _ & Hd & Hs & _).
  exists p', k, e, b', new. repeat (split; [assumption|]). apply Hs. left. exact Hl.
Defined.

Lemma Read_serves_from_buffer_witness :
  0 < len (make 2) /\ 0 < Reader.Buffered peeked_reader /\
  exists p',
    Reader.Read (bytes_Read 3) peeked_reader (make 2)
      = Ret (p', 2, None, Reader.with_r peeked_reader (Reader.r peeked_reader + 2)) /\
    firstn 2 p' = [x01; x02].
Proof.
  assert (Hp : 0 < len (make 2)) by (vm_compute; reflexivity).
  assert (Hb : 0 < Reader.Buffered peeked_reader) by (vm_compute; reflexivity).
  split; [exact Hp|]. split; [exact Hb|].
  destruct (Read_serves_from_buffer (bytes_Read 3) peeked_reader (make 2)
              peeked_reader_wf Hp Hb) as (p' & H1 & H2 & _).
  exists p'. split; [exact H1 | exact H2].
Defined.

Lemma Read_large_bypasses_buffer_witness :
  len (Reader.buf (chunked_reader bytes_1_to_6)) <= len (make 16) /\
  exists s',
    Reader.Read (bytes_Read 4) (chunked_reader bytes_1_to_6) (make 16)
      = Ret (copy_into (make 16) 0 [x01; x02; x03; x04], 4, None,
             Reader.with_rd (chunked_reader bytes_1_to_6) s') /\
    Reader.calls s' = [(16, Reply [x01; x02; x03; x04] None)].
Proof.
  assert (Hl : len (Reader.buf (chunked_reader bytes_1_to_6)) <= len (make 16))
    by (vm_compute; discriminate).
  split; [exact Hl|].
  exists {| Reader.st := [x05; x06];
            Reader.calls := [(16, Reply [x01; x02; x03; x04] None)] |}.
  apply (Read_large_bypasses_buffer (bytes_Read 4) (chunked_reader bytes_1_to_6) (make 16)
           [x01; x02; x03; x04] None).
  - vm_compute; reflexivity.
  - reflexivity.
  - reflexivity.
  - exact Hl.
  - vm_compute; reflexivity.
Defined.

Lemma ReadByte_paths_witness :
  0 < Reader.Buffered peeked_reader /\
  Reader.ReadByte (bytes_Read 3) None peeked_reader
    = Ret (x01, None, Reader.with_r peeked_reader (Reader.r peeked_reader + 1)) /\
  exists b',
    Reader.ReadByte (bytes_Read 3)
      (Some (fun s : list byte => (nth 0 s x00, @None error, tl s))) peeked_reader
      = Ret (x04, None, b') /\
    unread b' = unread peeked_reader /\ Reader.st (Reader.rd b') = [x05; x06].
Proof.
  assert (Hb : 0 < Reader.Buffered peeked_reader) by (vm_compute; reflexivity).
  split; [exact Hb|].
  destruct (ReadByte_paths (bytes_Read 3) peeked_reader) as (H1 & _ & H3).
  split; [exact (H1 peeked_reader_wf Hb)|].
  destruct (H3 (fun s : list byte => (nth 0 s x00, @None error, tl s)) x04 None [x05; x06])
    as (b' & E & Hu & _ & _ & _ & Hs).
  - vm_compute; reflexivity.
  - exists b'. split; [exact E|]. split; [exact Hu | exact Hs].
Defined.

Lemma Flush_keeps_invariant_witness :
  writes_fit (sink_Write 1) /\ writer_wf loaded_writer /\
  let (e, b') := Writer.Flush (sink_Write 1) loaded_writer in
  writer_wf b' /\ len (Writer.buf b') = len (Writer.buf loaded_writer) /\
  Writer.err b' = e /\ (e = None -> Writer.n b' = 0).
Proof.
  split; [apply sink_Write_fits|]. split; [apply loaded_writer_wf|].
  exact (Flush_keeps_invariant (sink_Write 1) loaded_writer
           (sink_Write_fits 1) loaded_writer_wf).
Defined.

Lemma Write_count_and_error_witness :
  exists b',
    Writer.Write (sink_Write 1) 3 loaded_writer bytes_c_to_10
      = Ret (2, Some ErrShortWrite, b') /\
    0 <= 2 <= len bytes_c_to_10 /\
    Writer.err b' = Some ErrShortWrite /\ writer_wf b' /\
    len (Writer.buf b') = len (Writer.buf loaded_writer).
Proof.
  eassert (E : Writer.Write (sink_Write 1) 3 loaded_writer bytes_c_to_10
               = Ret (2, Some ErrShortWrite, _)) by (vm_compute; reflexivity).
  eexists. split; [exact E|].
  destruct (Write_count_and_error (sink_Write 1) 3 loaded_writer _ bytes_c_to_10 _ _
              (sink_Write_fits 1) loaded_writer_wf E) as (H1 & _ & H3 & H4 & H5).
  split; [exact H1|]. split; [exact H3|]. split; [exact H4 | exact H5].
Defined.

Lemma Write_that_fits_is_buffered_witness :
  len [x0c; x0d] <= Writer.Available loaded_writer /\
  exists b',
    Writer.Write collect_Write 1 loaded_writer [x0c; x0d] = Ret (len [x0c; x0d], None, b') /\
    Writer.wr b' = Writer.wr loaded_writer /\
    pending b' = pending loaded_writer ++ [x0c; x0d].
Proof.
  assert (Hp : len [x0c; x0d] <= Writer.Available loaded_writer)
    by (vm_compute; discriminate).
  split; [exact Hp|].
  destruct (Write_that_fits_is_buffered collect_Write 1 loaded_writer [x0c; x0d]
              loaded_writer_wf eq_refl Hp) as (b' & H1 & H2 & _ & _ & H5).
  exists b'. split; [exact H1|]. split; [exact H2 | exact H5].
Defined.

Lemma Write_then_Flush_delivers_everything_witness :
  accepts_all collect_Write /\
  exists b1 b2,
    Writer.Write collect_Write 2 loaded_writer bytes_c_to_10
      = Ret (len bytes_c_to_10, None, b1) /\
    Writer.Flush collect_Write b1 = (None, b2) /\
    handed (Writer.wr b2) =
    handed (Writer.wr loaded_writer) ++ pending loaded_writer ++ bytes_c_to_10.
Proof.
  split; [exact collect_Write_accepts_all|].
  destruct (Write_then_Flush_delivers_everything collect_Write 2 loaded_writer bytes_c_to_10
              collect_Write_accepts_all loaded_writer_wf eq_refl (le_n 2))
    as (b1 & b2 & H1 & _ & _ & H4 & _ & _ & H7).
  exists b1, b2. split; [exact H1|]. split; [exact H4 | exact H7].
Defined.

Lemma Write_large_goes_direct_witness :
  len (Writer.buf sink_writer) < len bytes_c_to_10 /\
  exists b',
    Writer.Write collect_Write 1 sink_writer bytes_c_to_10 = Ret (5, None, b') /\
    Writer.buf b' = Writer.buf sink_writer /\ Writer.n b' = 0 /\
    Writer.calls (Writer.wr b') = [bytes_c_to_10].
Proof.
  assert (Hl : len (Writer.buf sink_writer) < len bytes_c_to_10)
    by (vm_compute; reflexivity).
  split; [exact Hl|].
  destruct (Write_large_goes_direct collect_Write 0 sink_writer bytes_c_to_10 5 None
              {| Writer.st := bytes_c_to_10; Writer.calls := [bytes_c_to_10] |})
    as (b' & H1 & H2 & H3 & _ & H5 & _).
  - reflexivity.
  - reflexivity.
  - exact Hl.
  - vm_compute; reflexivity.
  - vm_compute; split; discriminate.
  - right; vm_compute; reflexivity.
  - exists b'. split; [exact H1|]. split; [exact H2|]. split; [exact H3|].
    rewrite H5. reflexivity.
Defined.

Lemma Peek_reserves_window_witness :
  0 <= 2 <= len (Writer.buf loaded_writer) /\ 2 <= Writer.Available loaded_writer /\
  Writer.Peek collect_Write loaded_writer 2
    = Ret (2, 4, None,
           {| Writer.err := None; Writer.buf := Writer.buf loaded_writer;
              Writer.n := 4; Writer.wr := Writer.wr loaded_writer |}).
Proof.
  assert (Hk : 0 <= 2 <= len (Writer.buf loaded_writer))
    by (vm_compute; split; discriminate).
  assert (Ha : 2 <= Writer.Available loaded_writer) by (vm_compute; discriminate).
  split; [exact Hk|]. split; [exact Ha|].
  exact (proj1 (Peek_reserves_window collect_Write loaded_writer 2 eq_refl Hk) Ha).
Defined.

Lemma codec_window_bounds_witness :
  GetUint16BE [x01] = None /\ PutUint16BE [x01] 0x0a0b = None /\
  exists u b',
    GetUint16BE [x01; x02; x03] = Some u /\ is_uint 16 u /\
    PutUint16BE [x01; x02; x03] 0x0a0b = Some b' /\
    length b' = 3%nat /\ skipn 2 b' = [x03].
Proof.
  pose proof codec_window_bounds as H. rewrite Forall_forall in H.
  assert (Hin : In (16, 2%nat, GetUint16BE, PutUint16BE) uint_codecs)
    by (cbn; tauto).
  pose proof (H _ Hin) as Hc. cbv beta iota zeta in Hc.
  destruct (Hc [x01] 0x0a0b) as (Hs & _).
  destruct (Hs ltac:(cbn; lia)) as (H1 & H2).
  split; [exact H1|]. split; [exact H2|].
  destruct (Hc [x01; x02; x03] 0x0a0b) as (_ & Hl).
  destruct (Hl ltac:(cbn; lia)) as (u & b' & G & U & P & L & K).
  exists u, b'. split; [exact G|]. split; [exact U|]. split; [exact P|].
  split; [exact L | exact K].
Defined.

Lemma encode_after_decode_witness :
  GetUint32LE [x01; x02; x03; x04] = Some 0x04030201 /\
  PutUint32LE [x00; x00; x00; x00] 0x04030201 = Some [x01; x02; x03; x04].
Proof.
  pose proof encode_after_decode as H. rewrite Forall_forall in H.
  assert (Hin : In (32, 4%nat, GetUint32LE, PutUint32LE) uint_codecs)
    by (cbn; tauto).
  pose proof (H _ Hin) as Hc. cbv beta iota zeta in Hc.
  assert (G : GetUint32LE [x01; x02; x03; x04] = Some 0x04030201)
    by (vm_compute; reflexivity).
  split; [exact G|].
  exact (Hc [x01; x02; x03; x04] [x00; x00; x00; x00] 0x04030201 eq_refl eq_refl G).
Defined.

Lemma signed_unsigned_conversions_witness :
  0 < 8 /\ is_int 8 (-1) /\ is_uint 8 255 /\
  (is_uint 8 (to_unsigned 8 (-1)) /\ to_signed 8 (to_unsigned 8 (-1)) = -1) /\
  is_int 8 (to_signed 8 255) /\ to_unsigned 8 (to_signed 8 255) = 255.
Proof.
  assert (Hw : 0 < 8) by lia.
  assert (Hi : is_int 8 (-1)) by (vm_compute; split; [discriminate | reflexivity]).
  assert (Hu : is_uint 8 255) by (vm_compute; split; [discriminate | reflexivity]).
  split; [exact Hw|]. split; [exact Hi|]. split; [exact Hu|].
  exact (signed_unsigned_conversions 8 (-1) 255 Hw Hi Hu).
Defined.

Lemma helpers_read_back_what_was_written_witness :
  is_int 16 (-2) /\
  exists w',
    Writer.WriteInt16BE collect_Write loaded_writer (-2) = Ret (2, None, w') /\
    pending w' = pending loaded_writer ++ [xff; xfe] /\
    firstn (Z.to_nat 2) (unread encoded_reader) = [xff; xfe] /\
    Reader.ReadInt16BE (bytes_Read 3) encoded_reader
      = Ret (-2, None, Reader.with_r encoded_reader (Reader.r encoded_reader + 2)).
Proof.
  assert (Hi : is_int 16 (-2)) by (vm_compute; split; [discriminate | reflexivity]).
  split; [exact Hi|].
  destruct (helpers_read_back_what_was_written (bytes_Read 3) collect_Write)
    as (_ & _ & _ & _ & _ & _ & _ & _ & _ & _ & _ & _ & H & _).
  destruct (H loaded_writer (-2) Hi eq_refl)
    as (w' & enc & H1 & _ & _ & _ & H5 & H6).
  - vm_compute; discriminate.
  - vm_compute; discriminate.
  - eassert (E : Writer.WriteInt16BE collect_Write loaded_writer (-2) = Ret (2, None, _))
      by (vm_compute; reflexivity).
    pose proof H1 as H0. rewrite E in H0. injection H0 as Hw. subst w'.
    assert (Henc : enc = [xff; xfe]).
    { apply (app_inv_head (pending loaded_writer)). rewrite <- H5.
      vm_compute; reflexivity. }
    subst enc.
    assert (Hfront : firstn (Z.to_nat 2) (unread encoded_reader) = [xff; xfe])
      by (vm_compute; reflexivity).
    eexists. split; [exact H1|]. split; [exact H5|]. split; [exact Hfront|].
    apply H6; [vm_compute; intuition discriminate | vm_compute; discriminate | exact Hfront].
Defined.

Lemma ReadBytes_succeeds_iff_all_delivered_witness :
  (exists b1, Reader.ReadBytes script_Read 1 ended_reader 0 = Ret ([], None, b1) /\
              Reader.rd b1 = Reader.rd ended_reader /\ Reader.err b1 = None) /\
  Reader.ReadBytes script_Read 1 ended_reader (-1) = Panics PanicBounds /\
  exists d e b1 new,
    Reader.ReadBytes (bytes_Read 1) 3 (chunked_reader [x01; x02]) 3 = Ret (d, e, b1) /\
    Reader.calls (Reader.rd b1) = new ++ [] /\
    (forallb reply_fits new = true ->
     firstn (length (concat (map delivered (rev new)))) d = concat (map delivered (rev new))).
Proof.
  split; [|split].
  - exact (proj1 (proj2 (ReadBytes_succeeds_iff_all_delivered script_Read 1 ended_reader 0))
             eq_refl).
  - exact (proj2 (proj2 (ReadBytes_succeeds_iff_all_delivered script_Read 1 ended_reader (-1)))
             eq_refl).
  - eassert (E : Reader.ReadBytes (bytes_Read 1) 3 (chunked_reader [x01; x02]) 3
                 = Ret (_, _, _)) by (vm_compute; reflexivity).
    destruct (proj1 (ReadBytes_succeeds_iff_all_delivered (bytes_Read 1) 3
                       (chunked_reader [x01; x02]) 3) _ _ _ E) as (new & Hc & Hf).
    do 3 eexists. exists new. split; [exact E|]. split; [exact Hc|].
    intros Hfit. exact (proj1 (proj2 (proj2 (Hf Hfit)))).
Defined.

Lemma fresh_and_reset_state_witness :
  Writer.err failed_writer = Some ErrShortWrite /\
  len [x0c; x0d] <= len (Writer.buf failed_writer) /\
  exists w2,
    Writer.Write script_Write 1
      (Writer.Reset failed_writer {| Writer.st := []; Writer.calls := [] |}) [x0c; x0d]
      = Ret (len [x0c; x0d], None, w2) /\
    pending w2 = [x0c; x0d].
Proof.
  split; [vm_compute; reflexivity|].
  assert (Hp : len [x0c; x0d] <= len (Writer.buf failed_writer))
    by (vm_compute; discriminate).
  split; [exact Hp|].
  destruct (fresh_and_reset_state script_Write
              {| Reader.st := @nil read_reply; Reader.calls := [] |}
              {| Writer.st := []; Writer.calls := [] |} 4 ended_reader failed_writer 1
              [x0c; x0d]) as (_ & _ & _ & _ & _ & _ & H).
  destruct (H Hp) as (w2 & H1 & H2 & _).
  exists w2. split; [exact H1 | exact H2].
Defined.
